(** * unCaptcha: challenge lifecycle engine

    A shallow embedding of the challenge generator, the dual-mode verifier,
    the fixed-window rate limiter and the encoding / crypto primitives of
    unCaptcha (TypeScript), with the properties of its specification.

    Conventions of the embedding.
    - A JavaScript string is the list of its UTF-16 code units ([list Z],
      every unit in [0, 65536)).  A [Buffer] is the list of its bytes.
    - JavaScript numbers that the engine handles (timestamps, counters,
      randomInt bounds, puzzle operands) are integers; they are modelled
      by [Z] with exact arithmetic, which agrees with double arithmetic
      as long as the values stay within the safe integer range.  Where
      the code leaves that range ([Math.random() * n], [randomInt] on a
      range of more than six bytes) the rounding is written out ([Double]).
    - [Map] objects are finite maps ([gmap]); an entry object mutated in
      place is written back under its key.
    - [Date.now()] is an input of every operation that reads the clock.
    - [crypto.randomBytes] and [Math.random] draw from explicit tapes.
    - A thrown [Error] is a result carrying its message.
    - HMAC-SHA256 is a parameter of the development. *)

From Stdlib Require Import ZArith NArith List Ascii String Bool Lia Decimal DecimalZ DecimalPos.
From Stdlib.Strings Require Byte.
From stdpp Require Import base option list gmap.

Local Open Scope Z_scope.

(** ** JavaScript strings and results *)

Abbreviation jsstring := (list Z).

(** The code units of an ASCII literal. *)
Fixpoint js (s : string) : jsstring :=
  match s with
  | EmptyString => []
  | String a s' => Z.of_N (N_of_ascii a) :: js s'
  end.

(** [s === 'name'], the test of a [switch] over strings. *)
Definition named (name : string) (s : jsstring) : bool :=
  bool_decide (s = js name).

(** A call either returns or throws [new Error(message)]. *)
Inductive result (A : Type) : Type :=
| Ok (a : A)
| Thrown (message : jsstring).
Arguments Ok {A} a.
Arguments Thrown {A} message.

(** [String(n)] for an integer [n]: the decimal digits, with a minus sign. *)
Fixpoint digitsOf (d : Decimal.uint) : jsstring :=
  match d with
  | Nil => []
  | D0 d => 48 :: digitsOf d
  | D1 d => 49 :: digitsOf d
  | D2 d => 50 :: digitsOf d
  | D3 d => 51 :: digitsOf d
  | D4 d => 52 :: digitsOf d
  | D5 d => 53 :: digitsOf d
  | D6 d => 54 :: digitsOf d
  | D7 d => 55 :: digitsOf d
  | D8 d => 56 :: digitsOf d
  | D9 d => 57 :: digitsOf d
  end.

Definition numberToString (n : Z) : jsstring :=
  match Z.to_int n with
  | Decimal.Pos d => digitsOf d
  | Decimal.Neg d => 45 :: digitsOf d
  end.

(** ** Node's [Buffer] conversions used by the sources *)

Module Buffer.

Definition isHighSurrogate (c : Z) : bool := (0xD800 <=? c) && (c <=? 0xDBFF).
Definition isLowSurrogate (c : Z) : bool := (0xDC00 <=? c) && (c <=? 0xDFFF).

(** The UTF-8 bytes of U+FFFD, which replace an unpaired surrogate. *)
Definition replacementBytes : list Z := [0xEF; 0xBF; 0xBD].

(** [Buffer.from(s, 'utf-8')] (also [Buffer.from(s)]). *)
Fixpoint fromUtf8 (s : jsstring) : list Z :=
  match s with
  | [] => []
  | c :: rest =>
      if c <? 0x80 then c :: fromUtf8 rest
      else if c <? 0x800 then
        (0xC0 + c / 64) :: (0x80 + c mod 64) :: fromUtf8 rest
      else if isHighSurrogate c then
        match rest with
        | d :: rest' =>
            if isLowSurrogate d then
              let cp := 0x10000 + (c - 0xD800) * 0x400 + (d - 0xDC00) in
              (0xF0 + cp / 262144) :: (0x80 + (cp / 4096) mod 64)
                :: (0x80 + (cp / 64) mod 64) :: (0x80 + cp mod 64) :: fromUtf8 rest'
            else replacementBytes ++ fromUtf8 rest
        | [] => replacementBytes
        end
      else if isLowSurrogate c then replacementBytes ++ fromUtf8 rest
      else
        (0xE0 + c / 4096) :: (0x80 + (c / 64) mod 64) :: (0x80 + c mod 64)
          :: fromUtf8 rest
  end.

Definition inRange (lo hi b : Z) : bool := (lo <=? b) && (b <=? hi).

(** The code units of a decoded code point. *)
Definition unitsOf (cp : Z) : jsstring :=
  if cp <? 0x10000 then [cp]
  else [0xD800 + (cp - 0x10000) / 0x400; 0xDC00 + (cp - 0x10000) mod 0x400].

(** [buf.toString('utf-8')]: every maximal ill-formed subsequence becomes
    U+FFFD, and the byte that broke a sequence is decoded again. *)
Fixpoint toUtf8 (bs : list Z) : jsstring :=
  match bs with
  | [] => []
  | b0 :: r0 =>
      if b0 <? 0x80 then b0 :: toUtf8 r0
      else if inRange 0xC2 0xDF b0 then
        match r0 with
        | [] => [0xFFFD]
        | b1 :: r1 =>
            if inRange 0x80 0xBF b1
            then ((b0 - 0xC0) * 64 + (b1 - 0x80)) :: toUtf8 r1
            else 0xFFFD :: toUtf8 r0
        end
      else if inRange 0xE0 0xEF b0 then
        match r0 with
        | [] => [0xFFFD]
        | b1 :: r1 =>
            if inRange (if b0 =? 0xE0 then 0xA0 else 0x80)
                       (if b0 =? 0xED then 0x9F else 0xBF) b1
            then
              match r1 with
              | [] => [0xFFFD]
              | b2 :: r2 =>
                  if inRange 0x80 0xBF b2
                  then ((b0 - 0xE0) * 4096 + (b1 - 0x80) * 64 + (b2 - 0x80)) :: toUtf8 r2
                  else 0xFFFD :: toUtf8 r1
              end
            else 0xFFFD :: toUtf8 r0
        end
      else if inRange 0xF0 0xF4 b0 then
        match r0 with
        | [] => [0xFFFD]
        | b1 :: r1 =>
            if inRange (if b0 =? 0xF0 then 0x90 else 0x80)
                       (if b0 =? 0xF4 then 0x8F else 0xBF) b1
            then
              match r1 with
              | [] => [0xFFFD]
              | b2 :: r2 =>
                  if inRange 0x80 0xBF b2
                  then
                    match r2 with
                    | [] => [0xFFFD]
                    | b3 :: r3 =>
                        if inRange 0x80 0xBF b3
                        then unitsOf ((b0 - 0xF0) * 262144 + (b1 - 0x80) * 4096
                                      + (b2 - 0x80) * 64 + (b3 - 0x80)) ++ toUtf8 r3
                        else 0xFFFD :: toUtf8 r2
                    end
                  else 0xFFFD :: toUtf8 r1
              end
            else 0xFFFD :: toUtf8 r0
        end
      else 0xFFFD :: toUtf8 r0
  end.

(** One lower-case hexadecimal digit. *)
Definition hexDigit (n : Z) : Z := if n <? 10 then 48 + n else 87 + n.

(** [buf.toString('hex')] *)
Definition toHex (bs : list Z) : jsstring :=
  flat_map (fun b => [hexDigit (b / 16); hexDigit (b mod 16)]) bs.

Definition unhex (c : Z) : option Z :=
  if inRange 48 57 c then Some (c - 48)
  else if inRange 97 102 c then Some (c - 87)
  else if inRange 65 70 c then Some (c - 55)
  else None.

(** [Buffer.from(s, 'hex')]: the decoder reads the code units two by
    two and of each unit only the low byte, so that U+0136 counts as the
    digit 6.  Decoding stops, without an error, at the first pair that is
    not two hexadecimal digits; a trailing single unit is dropped. *)
Fixpoint fromHex (s : jsstring) : list Z :=
  match s with
  | a :: b :: rest =>
      match unhex (a mod 256), unhex (b mod 256) with
      | Some x, Some y => (16 * x + y) :: fromHex rest
      | _, _ => []
      end
  | _ => []
  end.

(** The base64 alphabet. *)
Definition base64Char (n : Z) : Z :=
  if n <? 26 then 65 + n
  else if n <? 52 then 71 + n
  else if n <? 62 then n - 4
  else if n =? 62 then 43
  else 47.

(** [buf.toString('base64')] *)
Fixpoint toBase64 (bs : list Z) : jsstring :=
  match bs with
  | [] => []
  | b0 :: r0 =>
      match r0 with
      | [] => [base64Char (b0 / 4); base64Char ((b0 mod 4) * 16); 61; 61]
      | b1 :: r1 =>
          match r1 with
          | [] => [base64Char (b0 / 4); base64Char ((b0 mod 4) * 16 + b1 / 16);
                   base64Char ((b1 mod 16) * 4); 61]
          | b2 :: r2 =>
              base64Char (b0 / 4) :: base64Char ((b0 mod 4) * 16 + b1 / 16)
                :: base64Char ((b1 mod 16) * 4 + b2 / 64) :: base64Char (b2 mod 64)
                :: toBase64 r2
          end
      end
  end.

(** Both the standard and the URL-safe alphabet are accepted. *)
Definition unbase64 (c : Z) : option Z :=
  if inRange 65 90 c then Some (c - 65)
  else if inRange 97 122 c then Some (c - 71)
  else if inRange 48 57 c then Some (c + 4)
  else if (c =? 43) || (c =? 45) then Some 62
  else if (c =? 47) || (c =? 95) then Some 63
  else None.

(** The 6-bit values of the legal characters up to the first [=];
    other characters are skipped.  Of each code unit the decoder reads
    only the low byte, so that U+0141 counts as the letter A and U+013D
    as [=]. *)
Fixpoint sextets (s : jsstring) : list Z :=
  match s with
  | [] => []
  | c :: rest =>
      if c mod 256 =? 61 then []
      else match unbase64 (c mod 256) with
           | Some v => v :: sextets rest
           | None => sextets rest
           end
  end.

Fixpoint packSextets (vs : list Z) : list Z :=
  match vs with
  | s0 :: s1 :: r1 =>
      match r1 with
      | [] => [s0 * 4 + s1 / 16]
      | s2 :: r2 =>
          match r2 with
          | [] => [s0 * 4 + s1 / 16; (s1 mod 16) * 16 + s2 / 4]
          | s3 :: r3 =>
              (s0 * 4 + s1 / 16) :: ((s1 mod 16) * 16 + s2 / 4)
                :: ((s2 mod 4) * 64 + s3) :: packSextets r3
          end
      end
  | _ => []
  end.

(** [Buffer.from(s, 'base64')]: never an error. *)
Definition fromBase64 (s : jsstring) : list Z := packSextets (sextets s).

End Buffer.

(** ** src/core/encoding.ts *)

Module Encoding.

Definition encodeBase64 (value : jsstring) : jsstring :=
  Buffer.toBase64 (Buffer.fromUtf8 value).

Definition decodeBase64 (value : jsstring) : jsstring :=
  Buffer.toUtf8 (Buffer.fromBase64 value).

Definition encodeHex (value : jsstring) : jsstring :=
  Buffer.toHex (Buffer.fromUtf8 value).

Definition decodeHex (value : jsstring) : jsstring :=
  Buffer.toUtf8 (Buffer.fromHex value).

(** The replacement callback of [encodeRot13], for a unit matched by
    [/[a-zA-Z]/]. *)
Definition rot13Letter (char : Z) : Z :=
  let base := if char <=? 90 then 65 else 97 in
  Z.rem (char - base + 13) 26 + base.

Definition isLetter (c : Z) : bool := Buffer.inRange 97 122 c || Buffer.inRange 65 90 c.

Definition encodeRot13 (value : jsstring) : jsstring :=
  map (fun c => if isLetter c then rot13Letter c else c) value.

Definition decodeRot13 (value : jsstring) : jsstring := encodeRot13 value.

Definition unknownEncoding (encoding : jsstring) : jsstring :=
  js "Unknown encoding type: " ++ encoding.

Definition encode (value encoding : jsstring) : result jsstring :=
  if named "plain" encoding then Ok value
  else if named "base64" encoding then Ok (encodeBase64 value)
  else if named "hex" encoding then Ok (encodeHex value)
  else if named "rot13" encoding then Ok (encodeRot13 value)
  else Thrown (unknownEncoding encoding).

Definition decode (value encoding : jsstring) : result jsstring :=
  if named "plain" encoding then Ok value
  else if named "base64" encoding then Ok (decodeBase64 value)
  else if named "hex" encoding then Ok (decodeHex value)
  else if named "rot13" encoding then Ok (decodeRot13 value)
  else Thrown (unknownEncoding encoding).

(** [encodings.reduce((acc, e) => encode(acc, e), value)] *)
Fixpoint encodeChain (value : jsstring) (encodings : list jsstring) : result jsstring :=
  match encodings with
  | [] => Ok value
  | e :: rest =>
      match encode value e with
      | Ok acc => encodeChain acc rest
      | Thrown m => Thrown m
      end
  end.

Fixpoint decodeAll (value : jsstring) (reversed : list jsstring) : result jsstring :=
  match reversed with
  | [] => Ok value
  | e :: rest =>
      match decode value e with
      | Ok acc => decodeAll acc rest
      | Thrown m => Thrown m
      end
  end.

(** [[...encodings].reverse().reduce((acc, e) => decode(acc, e), value)] *)
Definition decodeChain (value : jsstring) (encodings : list jsstring) : result jsstring :=
  decodeAll value (rev encodings).

End Encoding.

(** ** Double-precision arithmetic on integers *)

(** Where a product, a sum or a quotient of the source can leave the
    safe integer range, its rounding to the nearest double is written
    out. *)
Module Double.

(** The distance between neighbouring doubles at the magnitude of the
    integer [n]: 1 below 2^53, then 2, 4, ... *)
Definition ulp (n : Z) : Z := 2 ^ Z.max 0 (Z.log2 (Z.abs n) - 52).

(** Rounding to the nearest of two neighbours, ties to the even
    significand: [q] with remainder [r] out of [s]. *)
Definition nearest (q r s : Z) : Z :=
  if 2 * r <? s then q
  else if s <? 2 * r then q + 1
  else if Z.even q then q else q + 1.

(** The double nearest to the integer [n]: what [+], [-] and [*] return
    when their exact result is [n]. *)
Definition round (n : Z) : Z :=
  let s := ulp n in nearest (n / s) (n mod s) s * s.

(** [Math.floor(a / b)] for integers [a >= b > 0]: the quotient is rounded
    to 53 significant bits, the last of them of weight 2^e, and then cut. *)
Definition floorOfQuotient (a b : Z) : Z :=
  let e := Z.log2 (a / b) - 52 in
  if e <? 0 then
    let scaled := a * 2 ^ (- e) in
    nearest (scaled / b) (scaled mod b) b / 2 ^ (- e)
  else
    let unit := b * 2 ^ e in
    nearest (a / unit) (a mod unit) unit * 2 ^ e.

End Double.

(** ** Sources of randomness, and computations that draw from them *)

(** [entropy] is what [crypto.randomBytes] will deliver, [uniform] what
    [Math.random] will: a draw [u] stands for the number [u / 2^53]. *)
Record World := mkWorld { entropy : list Byte.byte; uniform : list Z }.

(** A computation returns a value and the remaining tapes, throws, or
    finds a tape exhausted. *)
Inductive outcome (A : Type) : Type :=
| Return (a : A) (w : World)
| Throw (message : jsstring)
| Starved.
Arguments Return {A} a w.
Arguments Throw {A} message.
Arguments Starved {A}.

Definition M (A : Type) : Type := World -> outcome A.

Definition ret {A} (a : A) : M A := fun w => Return a w.

Definition throw {A} (message : jsstring) : M A := fun _ => Throw message.

Definition bind {A B} (m : M A) (k : A -> M B) : M B :=
  fun w =>
    match m w with
    | Return a w' => k a w'
    | Throw message => Throw message
    | Starved => Starved
    end.

Notation "'let*' x ':=' m 'in' k" := (bind m (fun x => k))
  (at level 10, x pattern, m at level 100, k at level 200).

(** A pure call that may throw. *)
Definition lift {A} (r : result A) : M A :=
  match r with
  | Ok a => ret a
  | Thrown message => throw message
  end.

(** [n] times the same computation, results in order. *)
Fixpoint repeatM {A} (n : nat) (m : M A) : M (list A) :=
  match n with
  | O => ret []
  | S n' => let* x := m in let* xs := repeatM n' m in ret (x :: xs)
  end.

(** [Math.floor(Math.random() * n)]: the product of the draw [u / 2^53]
    and [n] is rounded to a double before it is cut, and a product just
    below an integer can round up to it. *)
Definition randomIndex (n : Z) : M Z :=
  fun w =>
    match uniform w with
    | [] => Starved
    | u :: rest =>
        Return (Double.round ((u mod 2 ^ 53) * n) / 2 ^ 53) (mkWorld (entropy w) rest)
    end.

(** ** src/utils/crypto.ts *)

Module Crypto.

Definition byteValue (b : Byte.byte) : Z := Z.of_N (Byte.to_N b).

(** [crypto.randomBytes(size)], for a [size] that is not negative, which
    is how the sources call it after the empty range of [randomInt] is
    set apart. *)
Definition randomBytes (size : Z) : M (list Z) :=
  fun w =>
    let n := Z.to_nat size in
    if (n <=? length (entropy w))%nat
    then Return (map byteValue (take n (entropy w)))
                (mkWorld (drop n (entropy w)) (uniform w))
    else Starved.

(** [generateId(length = 32)] *)
Definition generateId (length : Z) : M jsstring :=
  let* bytes := randomBytes length in ret (Buffer.toHex bytes).

Section Hmac.
(** [createHmac('sha256', key).update(data).digest()] on bytes. *)
Variable hmacSha256 : list Z -> list Z -> list Byte.byte.

(** [signChallenge(data, secret)] *)
Definition signChallenge (data secret : jsstring) : jsstring :=
  Buffer.toHex (map byteValue (hmacSha256 (Buffer.fromUtf8 secret) (Buffer.fromUtf8 data))).
End Hmac.

(** [crypto.timingSafeEqual(a, b)]: throws on buffers of different
    byte length. *)
Definition timingSafeEqual (a b : list Z) : result bool :=
  if bool_decide (length a = length b)
  then Ok (bool_decide (a = b))
  else Thrown (js "Input buffers must have the same byte length").

(** [safeCompare(a, b)] *)
Definition safeCompare (a b : jsstring) : bool :=
  if negb (bool_decide (length a = length b)) then false
  else
    match timingSafeEqual (Buffer.fromUtf8 a) (Buffer.fromUtf8 b) with
    | Ok equal => equal
    | Thrown _ => false
    end.

(** [Math.ceil(Math.log2(range) / 8) || 1], for [range] other than 0
    ([Math.log2] of a negative range is [NaN], which [|| 1] replaces). *)
Definition bytesNeededFor (range : Z) : Z :=
  let k := (Z.log2_up range + 7) / 8 in
  if k =? 0 then 1 else k.

(** [Math.floor(256 ** bytesNeeded / range) * range - 1] *)
Definition maxValidFor (bytesNeeded range : Z) : Z :=
  256 ^ bytesNeeded / range * range - 1.

(** [bytes.reduce((acc, byte, i) => acc + byte * 256 ** i, 0)] *)
Definition reduceBytes (bytes : list Z) : Z :=
  fst (fold_left (fun acc byte => (fst acc + byte * 256 ^ snd acc, snd acc + 1))
                 bytes (0, 0)).

(** The [do ... while (randomValue > maxValid)] loop of [randomInt].
    Every round draws at least one byte, so [fuel] above the length of
    the tape is never used up. *)
Fixpoint sample (fuel : nat) (bytesNeeded maxValid : Z) : M Z :=
  match fuel with
  | O => fun _ => Starved
  | S fuel' =>
      let* bytes := randomBytes bytesNeeded in
      let randomValue := reduceBytes bytes in
      if randomValue >? maxValid then sample fuel' bytesNeeded maxValid
      else ret randomValue
  end.

(** [randomInt(min, max)].  For an empty range [randomBytes(-Infinity)]
    throws a [RangeError], which is given here by its code, not by its
    message.  The arithmetic is exact, as the code's is while the range
    takes at most six bytes and the bounds are safe integers; what the
    doubles of the code do beyond that is in [RandomIntDoubles]. *)
Definition randomInt (min max : Z) : M Z :=
  fun w =>
    let range := max - min + 1 in
    if range =? 0 then Throw (js "ERR_OUT_OF_RANGE")
    else
      let bytesNeeded := bytesNeededFor range in
      let maxValid := maxValidFor bytesNeeded range in
      (let* randomValue := sample (S (length (entropy w))) bytesNeeded maxValid in
       ret (min + Z.rem randomValue range)) w.

(** [randomElement(arr)]; the index drawn is always within the array. *)
Definition randomElement {A} (arr : list A) : M A :=
  match arr with
  | [] => throw (js "Cannot select from empty array")
  | first :: _ =>
      let* i := randomInt 0 (Z.of_nat (length arr) - 1) in
      ret (nth (Z.to_nat i) arr first)
  end.

End Crypto.

(** ** src/utils/crypto.ts: the numbers of [randomInt] as doubles *)

(** The arithmetic of [randomInt] with the rounding of every operation
    written out.  Powers of 256, a byte times such a power and the
    remainder [%] are exact in doubles; differences, sums, products and the
    quotient are rounded. *)
Module RandomIntDoubles.

(** [max - min + 1] *)
Definition rangeOf (min max : Z) : Z := Double.round (Double.round (max - min) + 1).

(** [Math.floor(256 ** bytesNeeded / range) * range - 1], for a [range]
    from 1 to [256 ** bytesNeeded]. *)
Definition maxValidFor (bytesNeeded range : Z) : Z :=
  Double.round
    (Double.round (Double.floorOfQuotient (256 ^ bytesNeeded) range * range) - 1).

(** [bytes.reduce((acc, byte, i) => acc + byte * 256 ** i, 0)] *)
Definition reduceBytes (bytes : list Z) : Z :=
  fst (fold_left (fun acc byte =>
                    (Double.round (fst acc + byte * 256 ^ snd acc), snd acc + 1))
                 bytes (0, 0)).

(** [min + (randomValue % range)] *)
Definition result (min range randomValue : Z) : Z :=
  Double.round (min + Z.rem randomValue range).

End RandomIntDoubles.

(** ** JSON values and [JSON.stringify] *)

(** The values a payload is made of: what [JSON.stringify] writes and
    [JSON.parse] reads back.  An optional property that is [undefined] is
    a property left out, which is how [JSON.stringify] treats it. *)
#[local] Unset Elimination Schemes.
Inductive json : Type :=
| JNull
| JBool (b : bool)
| JNum (n : Z)
| JStr (s : jsstring)
| JArr (items : list json)
| JObj (props : list (jsstring * json)).
#[local] Set Elimination Schemes.

Module JSON.

(** [\uXXXX] with lower-case digits. *)
Definition unicodeEscape (c : Z) : jsstring :=
  [92; 117; Buffer.hexDigit (c / 4096); Buffer.hexDigit ((c / 256) mod 16);
   Buffer.hexDigit ((c / 16) mod 16); Buffer.hexDigit (c mod 16)].

(** One code unit that is not part of a surrogate pair. *)
Definition escapeUnit (c : Z) : jsstring :=
  if c =? 8 then [92; 98]
  else if c =? 9 then [92; 116]
  else if c =? 10 then [92; 110]
  else if c =? 12 then [92; 102]
  else if c =? 13 then [92; 114]
  else if c =? 34 then [92; 34]
  else if c =? 92 then [92; 92]
  else if Buffer.inRange 0 31 c then unicodeEscape c
  else if Buffer.inRange 0xD800 0xDFFF c then unicodeEscape c
  else [c].

(** The characters between the quotes: surrogate pairs are kept, an
    unpaired surrogate is escaped. *)
Fixpoint quoteBody (s : jsstring) : jsstring :=
  match s with
  | [] => []
  | c :: rest =>
      if Buffer.isHighSurrogate c then
        match rest with
        | d :: rest' =>
            if Buffer.isLowSurrogate d then c :: d :: quoteBody rest'
            else unicodeEscape c ++ quoteBody rest
        | [] => unicodeEscape c
        end
      else escapeUnit c ++ quoteBody rest
  end.

Definition quote (s : jsstring) : jsstring := 34 :: quoteBody s ++ [34].

(** [JSON.stringify(v)] without indentation: elements and members in
    order, separated by commas.  The members of an object are those of the
    list in its order, which is the order of the object's keys unless some
    of them are array indices (JavaScript lists these first, ascending);
    integers are printed in full, as the code prints them below 1e21. *)
Fixpoint stringify (v : json) : jsstring :=
  match v with
  | JNull => js "null"
  | JBool b => if b then js "true" else js "false"
  | JNum n => numberToString n
  | JStr s => quote s
  | JArr items =>
      91 :: match items with
            | [] => [93]
            | x :: more =>
                stringify x ++
                (fix elements (l : list json) : jsstring :=
                   match l with
                   | [] => [93]
                   | y :: l' => 44 :: stringify y ++ elements l'
                   end) more
            end
  | JObj props =>
      123 :: match props with
             | [] => [125]
             | (k, x) :: more =>
                 quote k ++ 58 :: stringify x ++
                 (fix members (l : list (jsstring * json)) : jsstring :=
                    match l with
                    | [] => [125]
                    | (k', y) :: l' => 44 :: quote k' ++ 58 :: stringify y ++ members l'
                    end) more
             end
  end.

(** [Array.prototype.join(',')] over already converted elements. *)
Fixpoint joinComma (parts : list jsstring) : jsstring :=
  match parts with
  | [] => []
  | [p] => p
  | p :: rest => p ++ 44 :: joinComma rest
  end.

(** [String(v)] *)
Fixpoint toString (v : json) : jsstring :=
  match v with
  | JNull => js "null"
  | JBool b => if b then js "true" else js "false"
  | JNum n => numberToString n
  | JStr s => s
  | JArr items =>
      joinComma (map (fun x => match x with JNull => [] | _ => toString x end) items)
  | JObj _ => js "[object Object]"
  end.

End JSON.

(** ** src/core/types.ts *)

Inductive ChallengeDifficulty : Type := easy | medium | hard.

#[global] Instance ChallengeDifficulty_eq_dec : EqDecision ChallengeDifficulty.
Proof. solve_decision. Defined.

Inductive VerificationErrorCode : Type :=
| EXPIRED
| INVALID_SIGNATURE
| INVALID_SOLUTION
| RATE_LIMITED
| CHALLENGE_NOT_FOUND.

Module Challenge.
Record t := make {
  id : jsstring;
  type : jsstring;
  difficulty : ChallengeDifficulty;
  payload : json;
  expiresAt : Z;
  signature : jsstring
}.
End Challenge.

Module ChallengeSolution.
Record t := make { challengeId : jsstring; solution : jsstring }.
End ChallengeSolution.

Record VerificationResult := mkResult {
  valid : bool;
  error : option jsstring;
  errorCode : option VerificationErrorCode
}.

Record RegisteredFunction := mkFunction {
  name : jsstring;
  fn : list json -> result json;
  parameterTypes : list jsstring;
  description : jsstring;
  fnDifficulty : ChallengeDifficulty
}.

(** ** src/utils/rate-limiter.ts *)

Module RateLimiter.

Record RateLimitEntry := mkEntry { count : Z; resetAt : Z }.

Record RateLimitConfig := mkConfig { maxAttempts : Z; windowMs : Z }.

Record Attempt := mkAttempt { allowed : bool; remaining : Z; attemptResetAt : Z }.

Abbreviation entries := (gmap (list Z) RateLimitEntry).

Section Limiter.
Variable config : RateLimitConfig.

(** [isRateLimited(key)]: lazily drops the entry of an elapsed window. *)
Definition isRateLimited (now : Z) (key : jsstring) (es : entries) : bool * entries :=
  match es !! key with
  | None => (false, es)
  | Some entry =>
      if now >? resetAt entry then (false, delete key es)
      else (count entry >=? maxAttempts config, es)
  end.

(** The entry [recordAttempt] works on after its first [if]: the stored
    one, or a fresh window when there is none or the stored one elapsed
    (the fresh entry is written to the map at once). *)
Definition openWindow (now : Z) (key : jsstring) (es : entries) : RateLimitEntry * entries :=
  match es !! key with
  | Some entry =>
      if now >? resetAt entry
      then let fresh := mkEntry 0 (now + windowMs config) in (fresh, <[key := fresh]> es)
      else (entry, es)
  | None =>
      let fresh := mkEntry 0 (now + windowMs config) in (fresh, <[key := fresh]> es)
  end.

(** [recordAttempt(key)] *)
Definition recordAttempt (now : Z) (key : jsstring) (es : entries) : Attempt * entries :=
  let '(entry, es1) := openWindow now key es in
  if count entry >=? maxAttempts config then
    (mkAttempt false 0 (resetAt entry), es1)
  else
    let entry' := mkEntry (count entry + 1) (resetAt entry) in
    (mkAttempt true (maxAttempts config - count entry') (resetAt entry'),
     <[key := entry']> es1).

(** [getRemainingAttempts(key)] *)
Definition getRemainingAttempts (now : Z) (key : jsstring) (es : entries) : Z :=
  match es !! key with
  | None => maxAttempts config
  | Some entry =>
      if now >? resetAt entry then maxAttempts config
      else Z.max 0 (maxAttempts config - count entry)
  end.

(** [reset(key)] *)
Definition reset (key : jsstring) (es : entries) : entries := delete key es.

(** [clear()] *)
Definition clear (es : entries) : entries := ∅.

(** [cleanup()]: the periodic sweep. *)
Definition cleanup (now : Z) (es : entries) : entries :=
  filter (fun kv => negb (now >? resetAt kv.2) = true) es.

(** [destroy()]: the timer handle is not part of the model. *)
Definition destroy (es : entries) : entries := clear es.

End Limiter.

(** [createRateLimiter(config?)] with its defaults. *)
Definition createRateLimiter (config : option (option Z * option Z)) : RateLimitConfig :=
  match config with
  | None => mkConfig 10 60000
  | Some (ma, wm) => mkConfig (default 10 ma) (default 60000 wm)
  end.

End RateLimiter.

(** ** src/core/verifier.ts *)

(** [Required<UnCaptchaConfig>]: the configuration once the defaults of
    the constructors are filled in. *)
Record UnCaptchaConfig := mkUnCaptchaConfig {
  secret : jsstring;
  defaultDifficulty : ChallengeDifficulty;
  challengeTypes : list jsstring;
  expirationMs : Z;
  rateLimit : RateLimiter.RateLimitConfig
}.

(** What a caller passes: everything but the secret is optional. *)
Record UserConfig := mkUserConfig {
  userSecret : jsstring;
  userDifficulty : option ChallengeDifficulty;
  userChallengeTypes : option (list jsstring);
  userExpirationMs : option Z;
  userRateLimit : option RateLimiter.RateLimitConfig
}.

(** [{ ...defaults, ...config }] *)
Definition withDefaults (config : UserConfig) : UnCaptchaConfig :=
  mkUnCaptchaConfig
    (userSecret config)
    (default medium (userDifficulty config))
    (default [js "function_execution"; js "chained_operations"; js "encoded_instruction"]
             (userChallengeTypes config))
    (default 30000 (userExpirationMs config))
    (default (RateLimiter.mkConfig 10 60000) (userRateLimit config)).

Module ChallengeStore.
Record t := make { expectedAnswer : jsstring; expiresAt : Z }.
End ChallengeStore.

Module Verifier.

(** The two maps a [ChallengeVerifier] owns. *)
Record state := mkState {
  rateLimiter : gmap (list Z) RateLimiter.RateLimitEntry;
  challengeStore : gmap (list Z) ChallengeStore.t
}.

Definition withLimiter (es : gmap (list Z) RateLimiter.RateLimitEntry) (st : state) : state :=
  mkState es (challengeStore st).

Definition withStore (cs : gmap (list Z) ChallengeStore.t) (st : state) : state :=
  mkState (rateLimiter st) cs.

(** [new ChallengeVerifier(config)] *)
Definition create : state := mkState ∅ ∅.

(** [clientIdentifier || 'anonymous'] *)
Definition clientKeyOf (clientIdentifier : option jsstring) : jsstring :=
  match clientIdentifier with
  | None | Some [] => js "anonymous"
  | Some key => key
  end.

(** The object whose serialization is signed. *)
Definition signatureData (id type : jsstring) (payload : json) (expiresAt : Z)
    (expectedAnswer : jsstring) : jsstring :=
  JSON.stringify (JObj [(js "id", JStr id); (js "type", JStr type);
                        (js "payload", payload); (js "expiresAt", JNum expiresAt);
                        (js "expectedAnswer", JStr expectedAnswer)]).

Definition failure (message : jsstring) (code : VerificationErrorCode) : VerificationResult :=
  mkResult false (Some message) (Some code).

(** [Math.ceil(ms / 1000)] *)
Definition ceilSeconds (ms : Z) : Z := - ((- ms) / 1000).

Definition rateLimitedMessage (resetAt now : Z) : jsstring :=
  js "Rate limited. Try again in " ++ numberToString (ceilSeconds (resetAt - now))
    ++ js " seconds.".

Section Verifier.
Variable hmacSha256 : list Z -> list Z -> list Byte.byte.
Variable config : UnCaptchaConfig.

Definition limiterConfig : RateLimiter.RateLimitConfig :=
  RateLimiter.createRateLimiter
    (Some (Some (RateLimiter.maxAttempts (rateLimit config)),
           Some (RateLimiter.windowMs (rateLimit config)))).

(** [storeChallenge(challengeId, expectedAnswer, expiresAt)] *)
Definition storeChallenge (challengeId expectedAnswer : jsstring) (expiresAt : Z)
    (st : state) : state :=
  withStore (<[challengeId := ChallengeStore.make expectedAnswer expiresAt]>
               (challengeStore st)) st.

(** [verify(challenge, solution, clientIdentifier?)].  [now k] is the
    value of the [k]-th call of [Date.now()] made while verifying. *)
Definition verify (now : nat -> Z) (challenge : Challenge.t)
    (solution : ChallengeSolution.t) (clientIdentifier : option jsstring)
    (st : state) : VerificationResult * state :=
  let clientKey := clientKeyOf clientIdentifier in
  let '(rateLimitResult, limiter1) :=
    RateLimiter.recordAttempt limiterConfig (now 0%nat) clientKey (rateLimiter st) in
  let st1 := withLimiter limiter1 st in
  if negb (RateLimiter.allowed rateLimitResult) then
    (failure (rateLimitedMessage (RateLimiter.attemptResetAt rateLimitResult) (now 1%nat))
             RATE_LIMITED, st1)
  else if negb (bool_decide (Challenge.id challenge = ChallengeSolution.challengeId solution)) then
    (failure (js "Challenge ID mismatch") CHALLENGE_NOT_FOUND, st1)
  else if now 1%nat >? Challenge.expiresAt challenge then
    (failure (js "Challenge has expired") EXPIRED, st1)
  else
    match challengeStore st1 !! Challenge.id challenge with
    | None => (failure (js "Challenge not found or already used") CHALLENGE_NOT_FOUND, st1)
    | Some stored =>
        if now 2%nat >? ChallengeStore.expiresAt stored then
          (failure (js "Challenge has expired") EXPIRED,
           withStore (delete (Challenge.id challenge) (challengeStore st1)) st1)
        else
          let signatureData :=
            signatureData (Challenge.id challenge) (Challenge.type challenge)
              (Challenge.payload challenge) (Challenge.expiresAt challenge)
              (ChallengeStore.expectedAnswer stored) in
          let expectedSignature :=
            Crypto.signChallenge hmacSha256 signatureData (secret config) in
          if negb (Crypto.safeCompare (Challenge.signature challenge) expectedSignature) then
            (failure (js "Invalid challenge signature") INVALID_SIGNATURE, st1)
          else if negb (Crypto.safeCompare (ChallengeSolution.solution solution)
                          (ChallengeStore.expectedAnswer stored)) then
            (failure (js "Incorrect solution") INVALID_SOLUTION, st1)
          else
            let st2 := withStore (delete (Challenge.id challenge) (challengeStore st1)) st1 in
            let st3 := withLimiter (RateLimiter.reset clientKey (rateLimiter st2)) st2 in
            (mkResult true None None, st3)
    end.

(** [verifyStateless(challenge, solution, clientIdentifier?)] *)
Definition verifyStateless (now : nat -> Z) (challenge : Challenge.t)
    (solution : ChallengeSolution.t) (clientIdentifier : option jsstring)
    (st : state) : VerificationResult * state :=
  let clientKey := clientKeyOf clientIdentifier in
  let '(rateLimitResult, limiter1) :=
    RateLimiter.recordAttempt limiterConfig (now 0%nat) clientKey (rateLimiter st) in
  let st1 := withLimiter limiter1 st in
  if negb (RateLimiter.allowed rateLimitResult) then
    (failure (rateLimitedMessage (RateLimiter.attemptResetAt rateLimitResult) (now 1%nat))
             RATE_LIMITED, st1)
  else if negb (bool_decide (Challenge.id challenge = ChallengeSolution.challengeId solution)) then
    (failure (js "Challenge ID mismatch") CHALLENGE_NOT_FOUND, st1)
  else if now 1%nat >? Challenge.expiresAt challenge then
    (failure (js "Challenge has expired") EXPIRED, st1)
  else
    let signatureData :=
      signatureData (Challenge.id challenge) (Challenge.type challenge)
        (Challenge.payload challenge) (Challenge.expiresAt challenge)
        (ChallengeSolution.solution solution) in
    let computedSignature :=
      Crypto.signChallenge hmacSha256 signatureData (secret config) in
    if negb (Crypto.safeCompare (Challenge.signature challenge) computedSignature) then
      (failure (js "Incorrect solution") INVALID_SOLUTION, st1)
    else (mkResult true None None, st1).

(** [getRateLimitStatus(clientIdentifier)]: two reads of the limiter,
    the second of which may drop an elapsed entry. *)
Definition getRateLimitStatus (now : nat -> Z) (clientIdentifier : jsstring)
    (st : state) : (Z * bool) * state :=
  let remaining :=
    RateLimiter.getRemainingAttempts limiterConfig (now 0%nat) clientIdentifier
      (rateLimiter st) in
  let '(isLimited, limiter1) :=
    RateLimiter.isRateLimited limiterConfig (now 1%nat) clientIdentifier (rateLimiter st) in
  ((remaining, isLimited), withLimiter limiter1 st).

(** [cleanup()]: the periodic sweep of the store. *)
Definition cleanup (now : Z) (st : state) : state :=
  withStore (filter (fun kv => negb (now >? ChallengeStore.expiresAt kv.2) = true)
                    (challengeStore st)) st.

(** [destroy()] *)
Definition destroy (st : state) : state :=
  mkState (RateLimiter.destroy (rateLimiter st)) ∅.
End Verifier.

End Verifier.

(** ** src/functions/index.ts and src/core/generator.ts *)

Module Generator.

Definition difficultyName (d : ChallengeDifficulty) : jsstring :=
  match d with
  | easy => js "easy"
  | medium => js "medium"
  | hard => js "hard"
  end.

(** [ChainedOperation['operation']] *)
Inductive Operation : Type :=
| add | subtract | multiply | divide | modulo | power | floor | ceil | abs | negate.

Definition operationName (o : Operation) : jsstring :=
  match o with
  | add => js "add"
  | subtract => js "subtract"
  | multiply => js "multiply"
  | divide => js "divide"
  | modulo => js "modulo"
  | power => js "power"
  | floor => js "floor"
  | ceil => js "ceil"
  | abs => js "abs"
  | negate => js "negate"
  end.

(** [{ operation, value }]; a [value] that is [undefined] is left out
    of the serialization. *)
Definition chainedOperation (o : Operation) (value : option Z) : json :=
  JObj ((js "operation", JStr (operationName o)) ::
        match value with
        | Some v => [(js "value", JNum v)]
        | None => []
        end).

(** The operand drawn for an operation. *)
Definition operandFor (o : Operation) : M (option Z) :=
  match o with
  | add | subtract => let* v := Crypto.randomInt 1 50 in ret (Some v)
  | multiply => let* v := Crypto.randomInt 2 10 in ret (Some v)
  | divide => let* v := Crypto.randomInt 2 5 in ret (Some v)
  | modulo => let* v := Crypto.randomInt 10 100 in ret (Some v)
  | power => let* v := Crypto.randomInt 1 3 in ret (Some v)
  | _ => ret None
  end.

(** The running value after one operation.  [divide] is never drawn (it
    is not among the available operations); its quotient is truncated
    here.  The arithmetic is exact: it is that of the code while the
    running value is a safe integer, which a chain of [power] and
    [multiply] steps of the hard difficulty can leave. *)
Definition applyOperation (o : Operation) (value : option Z) (currentValue : Z) : Z :=
  let v := default 0 value in
  match o with
  | add => currentValue + v
  | subtract => currentValue - v
  | multiply => currentValue * v
  | divide => Z.quot currentValue v
  | modulo => Z.rem currentValue v
  | power => currentValue ^ v
  | floor => currentValue
  | ceil => currentValue
  | abs => Z.abs currentValue
  | negate => - currentValue
  end.

Definition words : list jsstring :=
  [js "hello"; js "world"; js "test"; js "code"; js "data"; js "alpha"; js "beta"; js "gamma"].

Definition alphabet : jsstring := js "abcdefghijklmnopqrstuvwxyz".

(** [selected.join(' ')] *)
Fixpoint joinSpace (parts : list jsstring) : jsstring :=
  match parts with
  | [] => []
  | [p] => p
  | p :: rest => p ++ 32 :: joinSpace rest
  end.

(** [generateRandomWords(count)] *)
Definition generateRandomWords (count : nat) : M jsstring :=
  let* selected := repeatM count (Crypto.randomElement words) in
  ret (joinSpace selected).

(** ['abcdefghijklmnopqrstuvwxyz'[randomInt(0, 25)]] *)
Definition randomLetter : M Z :=
  let* i := Crypto.randomInt 0 (Z.of_nat (length alphabet) - 1) in
  ret (nth (Z.to_nat i) alphabet 0).

(** [generateRandomWord(length)] *)
Definition generateRandomWord (length : nat) : M jsstring :=
  repeatM length randomLetter.

(** [while (positions.size < target) positions.add(randomInt(0, n - 1))]:
    the set keeps insertion order and ignores a position it has. *)
Fixpoint drawPositions (fuel : nat) (target : nat) (n : Z) (positions : list Z)
  : M (list Z) :=
  if (length positions <? target)%nat then
    match fuel with
    | O => fun _ => Starved
    | S fuel' =>
        let* p := Crypto.randomInt 0 (n - 1) in
        drawPositions fuel' target n
          (if bool_decide (p ∈ positions) then positions else positions ++ [p])
    end
  else ret positions.

(** [do { newChar = ... } while (newChar === chars[pos])] *)
Fixpoint drawOtherLetter (fuel : nat) (old : option Z) : M Z :=
  match fuel with
  | O => fun _ => Starved
  | S fuel' =>
      let* newChar := randomLetter in
      if bool_decide (Some newChar = old) then drawOtherLetter fuel' old
      else ret newChar
  end.

Fixpoint mutateAt (positions : list Z) (chars : list Z) : M (list Z) :=
  match positions with
  | [] => ret chars
  | pos :: rest =>
      fun w =>
        (let* newChar := drawOtherLetter (S (length (entropy w))) (chars !! Z.to_nat pos) in
         mutateAt rest (<[Z.to_nat pos := newChar]> chars)) w
  end.

(** [mutateWord(word, changes)] *)
Definition mutateWord (word : jsstring) (changes : nat) : M jsstring :=
  fun w =>
    (let* positions :=
       drawPositions (S (length (entropy w))) (Nat.min changes (length word))
                     (Z.of_nat (length word)) [] in
     mutateAt positions word) w.

(** [generateRandomArray(length)] *)
Definition generateRandomArray (length : nat) : M (list Z) :=
  repeatM length (Crypto.randomInt 1 50).

Definition numbers (l : list Z) : json := JArr (map JNum l).

Definition oneOf (names : list string) (s : jsstring) : bool :=
  existsb (fun n => named n s) names.

(** [difficulty === 'easy' ? e : difficulty === 'medium' ? m : h] *)
Definition byDifficulty (difficulty : ChallengeDifficulty) (e m h : nat) : nat :=
  match difficulty with easy => e | medium => m | hard => h end.

(** [generateParameters(functionName, difficulty)] *)
Definition generateParameters (functionName : jsstring) (difficulty : ChallengeDifficulty)
  : M (list json) :=
  let range := match difficulty with
               | easy => (1, 20) | medium => (10, 50) | hard => (20, 100)
               end in
  if named "fibonacci" functionName then
    let* n := Crypto.randomInt 5 15 in ret [JNum n]
  else if named "isPrime" functionName then
    let* n := Crypto.randomInt (fst range) (snd range) in ret [JNum n]
  else if oneOf ["gcd"; "lcm"]%string functionName then
    let* a := Crypto.randomInt (fst range) (snd range) in
    let* b := Crypto.randomInt (fst range) (snd range) in ret [JNum a; JNum b]
  else if named "factorial" functionName then
    let* n := Crypto.randomInt 3 10 in ret [JNum n]
  else if named "modPow" functionName then
    let* a := Crypto.randomInt 2 10 in
    let* b := Crypto.randomInt 2 8 in
    let* c := Crypto.randomInt 10 50 in ret [JNum a; JNum b; JNum c]
  else if oneOf ["digitSum"; "digitCount"; "isPerfectSquare"; "triangular"]%string
                functionName then
    let* n := Crypto.randomInt (fst range) (snd range) in ret [JNum n]
  else if named "sumOfPrimes" functionName then
    let* n := Crypto.randomInt 3 8 in ret [JNum n]
  else if oneOf ["reverseWords"; "reverseString"; "countVowels"; "countConsonants";
                 "removeVowels"; "alternatingCase"; "wordCount"; "longestWord";
                 "asciiSum"]%string functionName then
    let* s := generateRandomWords (byDifficulty difficulty 2 4 6) in ret [JStr s]
  else if named "caesarCipher" functionName then
    let* s := generateRandomWords 3 in
    let* k := Crypto.randomInt 1 25 in ret [JStr s; JNum k]
  else if named "hammingDistance" functionName then
    let* word := generateRandomWord 5 in
    let* other := mutateWord word 2 in ret [JStr word; JStr other]
  else if named "countSubstring" functionName then
    ret [JStr (js "hello world hello"); JStr (js "hello")]
  else if named "charAtWrapped" functionName then
    let* i := Crypto.randomInt 0 20 in ret [JStr (js "alphabet"); JNum i]
  else if oneOf ["sumEvens"; "sumOdds"; "product"; "findMedian"; "findMode"; "range";
                 "secondLargest"; "runningSum"; "maxIndex"]%string functionName then
    let* arr := generateRandomArray (byDifficulty difficulty 4 6 8) in ret [numbers arr]
  else if named "rotateArray" functionName then
    let* arr := generateRandomArray 5 in
    let* k := Crypto.randomInt 1 5 in ret [numbers arr; JNum k]
  else if oneOf ["countGreaterThan"; "countLessThan"]%string functionName then
    let* arr := generateRandomArray 6 in
    let* k := Crypto.randomInt 20 50 in ret [numbers arr; JNum k]
  else if named "elementAtWrapped" functionName then
    let* arr := generateRandomArray 5 in
    let* k := Crypto.randomInt 0 10 in ret [numbers arr; JNum k]
  else if named "dotProduct" functionName then
    let len := byDifficulty difficulty 3 4 5 in
    let* a := generateRandomArray len in
    let* b := generateRandomArray len in ret [numbers a; numbers b]
  else if named "evaluatePolynomial" functionName then
    let* a := Crypto.randomInt 1 5 in
    let* b := Crypto.randomInt 1 10 in
    let* c := Crypto.randomInt 1 10 in
    let* d := Crypto.randomInt 1 5 in ret [JNum a; JNum b; JNum c; JNum d]
  else if named "weightedSum" functionName then
    let wlen := byDifficulty difficulty 3 4 4 in
    let* a := generateRandomArray wlen in
    let* b := generateRandomArray wlen in ret [numbers a; numbers b]
  else if named "checksum" functionName then
    let* arr := generateRandomArray 5 in ret [numbers arr]
  else if named "computeAndHash" functionName then
    let* a := Crypto.randomInt 10 50 in
    let* b := Crypto.randomInt 10 50 in
    let* c := Crypto.randomInt 10 50 in ret [JNum a; JNum b; JNum c]
  else
    let* n := Crypto.randomInt (fst range) (snd range) in ret [JNum n].

(** The sources shown to the solver, as in [codeMap]. *)
Definition fibonacciCode : string :=
"function fibonacci(n) {
  if (n <= 1) return n;
  let a = 0, b = 1;
  for (let i = 2; i <= n; i++) {
    const temp = a + b;
    a = b;
    b = temp;
  }
  return b;
}".

Definition isPrimeCode : string :=
"function isPrime(n) {
  if (n < 2) return false;
  if (n === 2) return true;
  if (n % 2 === 0) return false;
  for (let i = 3; i <= Math.sqrt(n); i += 2) {
    if (n % i === 0) return false;
  }
  return true;
}".

Definition gcdCode : string :=
"function gcd(a, b) {
  a = Math.abs(a);
  b = Math.abs(b);
  while (b !== 0) {
    const temp = b;
    b = a % b;
    a = temp;
  }
  return a;
}".

Definition digitSumCode : string :=
"function digitSum(n) {
  n = Math.abs(n);
  let sum = 0;
  while (n > 0) {
    sum += n % 10;
    n = Math.floor(n / 10);
  }
  return sum;
}".

Definition countVowelsCode : string :=
"function countVowels(str) {
  const vowels = 'aeiouAEIOU';
  let count = 0;
  for (const char of str) {
    if (vowels.includes(char)) count++;
  }
  return count;
}".

Definition sumEvensCode : string :=
"function sumEvens(arr) {
  return arr.filter(n => n % 2 === 0).reduce((a, b) => a + b, 0);
}".

(** [getFunctionCodeString(functionName)]: the entry of [codeMap], or a
    placeholder. *)
Definition getFunctionCodeString (functionName : jsstring) : jsstring :=
  if named "fibonacci" functionName then js fibonacciCode
  else if named "isPrime" functionName then js isPrimeCode
  else if named "gcd" functionName then js gcdCode
  else if named "digitSum" functionName then js digitSumCode
  else if named "countVowels" functionName then js countVowelsCode
  else if named "sumEvens" functionName then js sumEvensCode
  else js "function " ++ functionName ++ js "(...args) { /* implementation */ }".

(** [getResponseEncoding(difficulty)] *)
Definition getResponseEncoding (difficulty : ChallengeDifficulty) : M jsstring :=
  match difficulty with
  | easy => ret (js "plain")
  | medium => Crypto.randomElement [js "plain"; js "base64"]
  | hard => Crypto.randomElement [js "base64"; js "hex"]
  end.

(** [getInstructionEncoding(difficulty)] *)
Definition getInstructionEncoding (difficulty : ChallengeDifficulty) : M jsstring :=
  match difficulty with
  | easy => ret (js "base64")
  | medium => Crypto.randomElement [js "base64"; js "rot13"]
  | hard => Crypto.randomElement [js "hex"; js "rot13"]
  end.

(** The body of the loop of [generateChainedOperations], [count] times:
    the operations pushed and the running value. *)
Fixpoint chain (count : nat) (availableOps : list Operation) (currentValue : Z)
  : M (list json * Z) :=
  match count with
  | O => ret ([], currentValue)
  | S count' =>
      let* operation := Crypto.randomElement availableOps in
      let* value := operandFor operation in
      let* (operations, final) :=
        chain count' availableOps (applyOperation operation value currentValue) in
      ret (chainedOperation operation value :: operations, final)
  end.

(** [generateChainedOperations(difficulty)] *)
Definition generateChainedOperations (difficulty : ChallengeDifficulty)
  : M (json * jsstring) :=
  let operationCount := byDifficulty difficulty 3 5 7 in
  let* initialValue := Crypto.randomInt 10 100 in
  let availableOps :=
    [add; subtract; multiply; modulo; floor; abs]
      ++ match difficulty with hard => [power; ceil; negate] | _ => [] end in
  let* (operations, currentValue) := chain operationCount availableOps initialValue in
  let* responseEncoding := getResponseEncoding difficulty in
  let* expectedAnswer := lift (Encoding.encode (numberToString currentValue) responseEncoding) in
  ret (JObj [(js "type", JStr (js "chained_operations"));
             (js "initialValue", JNum initialValue);
             (js "operations", JArr operations);
             (js "responseEncoding", JStr responseEncoding)],
       expectedAnswer).

(** [generateEncodedInstruction(difficulty)] *)
Definition generateEncodedInstruction (difficulty : ChallengeDifficulty)
  : M (json * jsstring) :=
  let* a := Crypto.randomInt 10 100 in
  let* b := Crypto.randomInt 10 100 in
  let* op := Crypto.randomElement [js "+"; js "-"; js "*"] in
  let result :=
    if named "+" op then a + b
    else if named "-" op then a - b
    else if named "*" op then a * b
    else a + b in
  let instruction :=
    js "Calculate: " ++ numberToString a ++ js " " ++ op ++ js " " ++ numberToString b in
  let* instructionEncoding := getInstructionEncoding difficulty in
  let* responseEncoding := getResponseEncoding difficulty in
  let* encodedInstruction := lift (Encoding.encode instruction instructionEncoding) in
  let* expectedAnswer := lift (Encoding.encode (numberToString result) responseEncoding) in
  ret (JObj [(js "type", JStr (js "encoded_instruction"));
             (js "instruction", JStr encodedInstruction);
             (js "instructionEncoding", JStr instructionEncoding);
             (js "responseEncoding", JStr responseEncoding)],
       expectedAnswer).

(** The items of a pattern-extraction puzzle: [{ id: i + 1, value }]. *)
Fixpoint drawItems (count : nat) (i : Z) : M (list (Z * Z)) :=
  match count with
  | O => ret []
  | S count' =>
      let* value := Crypto.randomInt 10 100 in
      let* rest := drawItems count' (i + 1) in
      ret ((i + 1, value) :: rest)
  end.

Definition itemJson (item : Z * Z) : json :=
  JObj [(js "id", JNum (fst item)); (js "value", JNum (snd item))].

(** The four queries and their aggregates over [items[*].value]. *)
Inductive Query : Type := qSum | qMax | qMin | qCount.

Definition queryText (q : Query) : jsstring :=
  match q with
  | qSum => js "sum(items[*].value)"
  | qMax => js "max(items[*].value)"
  | qMin => js "min(items[*].value)"
  | qCount => js "count(items)"
  end.

(** [Math.max(...values)] and [Math.min(...values)] of a non-empty list. *)
Definition maxOf (values : list Z) : Z :=
  match values with
  | [] => 0
  | v :: rest => fold_left Z.max rest v
  end.

Definition minOf (values : list Z) : Z :=
  match values with
  | [] => 0
  | v :: rest => fold_left Z.min rest v
  end.

Definition queryFn (q : Query) (items : list (Z * Z)) : Z :=
  match q with
  | qSum => fold_left (fun s i => s + snd i) items 0
  | qMax => maxOf (map snd items)
  | qMin => minOf (map snd items)
  | qCount => Z.of_nat (length items)
  end.

(** [generatePatternExtraction(difficulty)] *)
Definition generatePatternExtraction (difficulty : ChallengeDifficulty)
  : M (json * jsstring) :=
  let count := byDifficulty difficulty 3 5 7 in
  let* items := drawItems count 0 in
  let* selected := Crypto.randomElement [qSum; qMax; qMin; qCount] in
  let result := queryFn selected items in
  let* responseEncoding := getResponseEncoding difficulty in
  let* expectedAnswer := lift (Encoding.encode (numberToString result) responseEncoding) in
  ret (JObj [(js "type", JStr (js "pattern_extraction"));
             (js "data", JObj [(js "items", JArr (map itemJson items))]);
             (js "query", JStr (queryText selected));
             (js "responseEncoding", JStr responseEncoding)],
       expectedAnswer).

(** [generateCodeTransform(difficulty)] *)
Definition generateCodeTransform (difficulty : ChallengeDifficulty)
  : M (json * jsstring) :=
  let* a := Crypto.randomInt 1 20 in
  let* b := Crypto.randomInt 1 20 in
  let code :=
    js "const x = " ++ numberToString a ++ js "; const y = " ++ numberToString b
      ++ js "; return x + y;" in
  let result := a + b in
  let* responseEncoding := getResponseEncoding difficulty in
  let* expectedAnswer := lift (Encoding.encode (numberToString result) responseEncoding) in
  ret (JObj [(js "type", JStr (js "code_transform"));
             (js "code", JStr code);
             (js "transform", JStr (js "execute"));
             (js "responseEncoding", JStr responseEncoding)],
       expectedAnswer).

Section Generator.
Variable hmacSha256 : list Z -> list Z -> list Byte.byte.

(** The catalog of puzzle functions ([allFunctions]). *)
Variable allFunctions : list RegisteredFunction.

Variable config : UnCaptchaConfig.

(** [getFunctionsByDifficulty(difficulty)] *)
Definition getFunctionsByDifficulty (difficulty : ChallengeDifficulty)
  : list RegisteredFunction :=
  List.filter (fun f => bool_decide (fnDifficulty f = difficulty)) allFunctions.

(** [getRandomFunction(difficulty)] *)
Definition getRandomFunction (difficulty : ChallengeDifficulty) : M RegisteredFunction :=
  let pool := getFunctionsByDifficulty difficulty in
  match pool with
  | [] => throw (js "No functions available for difficulty: " ++ difficultyName difficulty)
  | first :: _ =>
      let* index := randomIndex (Z.of_nat (length pool)) in
      ret (nth (Z.to_nat index) pool first)
  end.

(** [generateFunctionExecution(difficulty)] *)
Definition generateFunctionExecution (difficulty : ChallengeDifficulty)
  : M (json * jsstring) :=
  let* func := getRandomFunction difficulty in
  let* parameters := generateParameters (name func) difficulty in
  let* result := lift (fn func parameters) in
  let* responseEncoding := getResponseEncoding difficulty in
  let* expectedAnswer := lift (Encoding.encode (JSON.toString result) responseEncoding) in
  let functionCode := getFunctionCodeString (name func) in
  ret (JObj [(js "type", JStr (js "function_execution"));
             (js "functionName", JStr (name func));
             (js "functionCode", JStr functionCode);
             (js "parameters", JArr parameters);
             (js "responseEncoding", JStr responseEncoding)],
       expectedAnswer).

(** [generatePayload(type, difficulty)] *)
Definition generatePayload (type : jsstring) (difficulty : ChallengeDifficulty)
  : M (json * jsstring) :=
  if named "function_execution" type then generateFunctionExecution difficulty
  else if named "chained_operations" type then generateChainedOperations difficulty
  else if named "encoded_instruction" type then generateEncodedInstruction difficulty
  else if named "pattern_extraction" type then generatePatternExtraction difficulty
  else if named "code_transform" type then generateCodeTransform difficulty
  else throw (js "Unknown challenge type: " ++ type).

(** [generate(overrides?)], with [now] the value of [Date.now()]. *)
Definition generate (now : Z)
    (overrides : option (option jsstring * option ChallengeDifficulty))
  : M (Challenge.t * jsstring) :=
  let* type :=
    match overrides with
    | Some (Some t, _) => ret t
    | _ => Crypto.randomElement (challengeTypes config)
    end in
  let difficulty :=
    match overrides with
    | Some (_, Some d) => d
    | _ => defaultDifficulty config
    end in
  let* (payload, expectedAnswer) := generatePayload type difficulty in
  let* id := Crypto.generateId 32 in
  let expiresAt := now + expirationMs config in
  let signatureData :=
    Verifier.signatureData id type payload expiresAt expectedAnswer in
  let signature := Crypto.signChallenge hmacSha256 signatureData (secret config) in
  ret (Challenge.make id type difficulty payload expiresAt signature, expectedAnswer).
End Generator.

End Generator.

(** ** src/utils/rate-limiter.ts: statistics *)

Module LimiterStats.

Record Stats := mkStats { activeKeys : Z; totalAttempts : Z }.

(** [getStats()]: the number of keys and the sum of their counts. *)
Definition getStats (es : gmap (list Z) RateLimiter.RateLimitEntry) : Stats :=
  mkStats (Z.of_nat (size es))
          (map_fold (fun _ entry total => total + RateLimiter.count entry) 0 es).

End LimiterStats.

(** ** src/utils/crypto.ts: signatures and shuffling *)

Module CryptoMore.

Section Hmac.
Variable hmacSha256 : list Z -> list Z -> list Byte.byte.

(** [verifySignature(data, signature, secret)] *)
Definition verifySignature (data signature secret : jsstring) : bool :=
  let expected := Crypto.signChallenge hmacSha256 data secret in
  match Crypto.timingSafeEqual (Buffer.fromHex signature) (Buffer.fromHex expected) with
  | Ok equal => equal
  | Thrown _ => false
  end.

(** [sha256(data)]: an HMAC under the empty key. *)
Definition sha256 (data : jsstring) : jsstring :=
  Crypto.signChallenge hmacSha256 data [].
End Hmac.

(** [[result[i], result[j]] = [result[j], result[i]]]; both indices are
    within the array wherever [shuffle] gets here. *)
Definition swap {A} (i j : nat) (result : list A) : list A :=
  match result !! j, result !! i with
  | Some atJ, Some atI => <[j := atI]> (<[i := atJ]> result)
  | _, _ => result
  end.

(** The loop of [shuffle], from index [i] down to 1. *)
Fixpoint shuffleFrom {A} (i : nat) (result : list A) : M (list A) :=
  match i with
  | O => ret result
  | S i' =>
      let* j := Crypto.randomInt 0 (Z.of_nat i) in
      shuffleFrom i' (swap i (Z.to_nat j) result)
  end.

(** [shuffle(arr)] *)
Definition shuffle {A} (arr : list A) : M (list A) :=
  shuffleFrom (length arr - 1) arr.

End CryptoMore.

(** ** src/client/executor.ts *)

Module Executor.

(** How a run of the client's code ends: with a value, with a thrown
    [Error], or [Beyond] what is followed here: a number that is not an
    integer which a double holds exactly (a fraction, NaN, an infinity, a
    magnitude above 2^53), a value of another type than the payload's
    interface declares, a property found on [Object.prototype], or code
    handed to [new Function]. *)
Inductive ran (A : Type) : Type :=
| Done (a : A)
| Failed (message : jsstring)
| Beyond.
Arguments Done {A} a.
Arguments Failed {A} message.
Arguments Beyond {A}.

Definition andThen {A B} (r : ran A) (k : A -> ran B) : ran B :=
  match r with
  | Done a => k a
  | Failed message => Failed message
  | Beyond => Beyond
  end.

(** An integer result of double arithmetic, exact up to 2^53. *)
Definition number (n : Z) : ran Z :=
  if Z.abs n <=? 2 ^ 53 then Done n else Beyond.

(** [object[name]] for an own property; of members with one name the
    last counts, as after [JSON.parse]. *)
Fixpoint member (name : jsstring) (props : list (jsstring * json)) : option json :=
  match props with
  | [] => None
  | (k, v) :: rest =>
      match member name rest with
      | Some later => Some later
      | None => if bool_decide (k = name) then Some v else None
      end
  end.

(** The names that every object inherits from [Object.prototype]. *)
Definition inherited : list jsstring :=
  [js "constructor"; js "hasOwnProperty"; js "isPrototypeOf"; js "propertyIsEnumerable";
   js "toLocaleString"; js "toString"; js "valueOf"; js "__proto__";
   js "__defineGetter__"; js "__defineSetter__"; js "__lookupGetter__";
   js "__lookupSetter__"].

(** One [{ operation, value? }]: the name and [op.value], where [null]
    and a missing member are alike to [??]. *)
Definition operationOf (op : json) : option (jsstring * option Z) :=
  match op with
  | JObj props =>
      match member (js "operation") props with
      | Some (JStr operation) =>
          match member (js "value") props with
          | None | Some JNull => Some (operation, None)
          | Some (JNum v) => Some (operation, Some v)
          | Some _ => None
          end
      | _ => None
      end
  | _ => None
  end.

(** The body of the [switch] of [executeChainedOperations]: [orElse] is
    the operand of [op.value ?? orElse]. *)
Definition applyStep (result : Z) (operation : jsstring) (value : option Z) : ran Z :=
  let operand orElse := number (default orElse value) in
  if named "add" operation then
    andThen (operand 0) (fun v => number (result + v))
  else if named "subtract" operation then
    andThen (operand 0) (fun v => number (result - v))
  else if named "multiply" operation then
    andThen (operand 1) (fun v => number (result * v))
  else if named "divide" operation then
    if bool_decide (value = Some 0) then Failed (js "Division by zero")
    else andThen (operand 1) (fun v =>
           if Z.rem result v =? 0 then number (Z.quot result v) else Beyond)
  else if named "modulo" operation then
    if bool_decide (value = Some 0) then Failed (js "Modulo by zero")
    else andThen (operand 1) (fun v => number (Z.rem result v))
  else if named "power" operation then Beyond
  else if named "floor" operation then Done result
  else if named "ceil" operation then Done result
  else if named "abs" operation then number (Z.abs result)
  else if named "negate" operation then number (- result)
  else Failed (js "Unknown operation: " ++ operation).

(** [executeChainedOperations(initialValue, operations)]; [Math.pow] is
    not followed. *)
Fixpoint executeChainedOperations (result : Z) (operations : list (jsstring * option Z))
  : ran Z :=
  match operations with
  | [] => Done result
  | (operation, value) :: rest =>
      andThen (applyStep result operation value)
              (fun next => executeChainedOperations next rest)
  end.

(** The class [\s] of a regular expression. *)
Definition isSpace (c : Z) : bool :=
  Buffer.inRange 9 13 c || (c =? 32) || (c =? 160) || (c =? 0x1680)
  || Buffer.inRange 0x2000 0x200A c || (c =? 0x2028) || (c =? 0x2029)
  || (c =? 0x202F) || (c =? 0x205F) || (c =? 0x3000) || (c =? 0xFEFF).

(** The classes [\d] and [\w]. *)
Definition isDigit (c : Z) : bool := Buffer.inRange 48 57 c.

Definition isWord (c : Z) : bool :=
  isDigit c || Buffer.inRange 65 90 c || Buffer.inRange 97 122 c || (c =? 95).

(** The longest prefix within a class, and what follows it. *)
Fixpoint span (class : Z -> bool) (s : jsstring) : jsstring * jsstring :=
  match s with
  | c :: rest =>
      if class c then let '(run, after) := span class rest in (c :: run, after)
      else ([], s)
  | [] => ([], [])
  end.

Fixpoint stripPrefix (prefix s : jsstring) : option jsstring :=
  match prefix, s with
  | [], _ => Some s
  | p :: prefix', c :: s' => if p =? c then stripPrefix prefix' s' else None
  | _ :: _, [] => None
  end.

(** A match of [/Calculate:\s*(\d+)\s*([+\-*\/])\s*(\d+)/] that starts at
    the head of [s]: the three groups.  The classes that follow one
    another are disjoint, so that the longest runs are the only choice. *)
Definition matchInstructionHere (s : jsstring) : option (jsstring * Z * jsstring) :=
  match stripPrefix (js "Calculate:") s with
  | None => None
  | Some r0 =>
      let '(a, r1) := span isDigit (span isSpace r0).2 in
      match a, (span isSpace r1).2 with
      | _ :: _, op :: r2 =>
          if (op =? 43) || (op =? 45) || (op =? 42) || (op =? 47) then
            match (span isDigit (span isSpace r2).2).1 with
            | [] => None
            | b => Some (a, op, b)
            end
          else None
      | _, _ => None
      end
  end.

(** [instruction.match(...)]: the leftmost match. *)
Fixpoint matchInstruction (s : jsstring) : option (jsstring * Z * jsstring) :=
  match matchInstructionHere s with
  | Some groups => Some groups
  | None =>
      match s with
      | [] => None
      | _ :: rest => matchInstruction rest
      end
  end.

(** [parseInt(digits, 10)] on a run of decimal digits. *)
Definition parseDigits (digits : jsstring) : ran Z :=
  number (fold_left (fun acc c => 10 * acc + (c - 48)) digits 0).

(** [executeEncodedInstruction(encodedInstruction, encoding)] *)
Definition executeEncodedInstruction (encodedInstruction encoding : jsstring) : ran Z :=
  match Encoding.decode encodedInstruction encoding with
  | Thrown message => Failed message
  | Ok instruction =>
      match matchInstruction instruction with
      | None => Failed (js "Could not parse instruction: " ++ instruction)
      | Some (match1, op, match3) =>
          andThen (parseDigits match1) (fun a =>
          andThen (parseDigits match3) (fun b =>
            if op =? 43 then number (a + b)
            else if op =? 45 then number (a - b)
            else if op =? 42 then number (a * b)
            else if (b =? 0) || negb (Z.rem a b =? 0) then Beyond
            else number (Z.quot a b)))
      end
  end.

(** The groups of [/^(\w+)\(([^)]+)\)$/] on the whole of [query]. *)
Definition matchQuery (query : jsstring) : option (jsstring * jsstring) :=
  let '(func, r) := span isWord query in
  match func, r with
  | _ :: _, 40 :: r1 =>
      let '(path, r2) := span (fun c => negb (c =? 41)) r1 in
      match path, r2 with
      | _ :: _, [41] => Some (func, path)
      | _, _ => None
      end
  | _, _ => None
  end.

(** The groups of [/^(\w+)\[\*\]\.(\w+)$/] on the whole of [path]. *)
Definition matchWildcard (path : jsstring) : option (jsstring * jsstring) :=
  let '(arrayName, r) := span isWord path in
  match arrayName, stripPrefix (js "[*].") r with
  | _ :: _, Some r1 =>
      match span isWord r1 with
      | ((_ :: _) as propName, []) => Some (arrayName, propName)
      | _ => None
      end
  | _, _ => None
  end.

(** [item[propName]] for the items of the array. *)
Fixpoint pluck (propName : jsstring) (arr : list json) : ran (list (option json)) :=
  match arr with
  | [] => Done []
  | JObj props :: rest =>
      match member propName props with
      | None =>
          if bool_decide (propName ∈ inherited) then Beyond
          else andThen (pluck propName rest) (fun values => Done (None :: values))
      | Some v => andThen (pluck propName rest) (fun values => Done (Some v :: values))
      end
  | _ :: _ => Beyond
  end.

(** [extractPathValues(data, path)] *)
Definition extractPathValues (data : list (jsstring * json)) (path : jsstring)
  : ran (list (option json)) :=
  match matchWildcard path with
  | Some (arrayName, propName) =>
      match member arrayName data with
      | Some (JArr arr) => pluck propName arr
      | _ => Failed (js "Expected array at " ++ arrayName)
      end
  | None =>
      match member path data with
      | Some (JArr arr) => Done (map Some arr)
      | Some value => Done [Some value]
      | None =>
          if bool_decide (path ∈ inherited) then Beyond
          else Failed (js "Invalid path: " ++ path)
      end
  end.

(** The values as numbers, where all of them are. *)
Fixpoint asNumbers (values : list (option json)) : ran (list Z) :=
  match values with
  | [] => Done []
  | Some (JNum n) :: rest =>
      andThen (number n) (fun n' =>
      andThen (asNumbers rest) (fun ns => Done (n' :: ns)))
  | _ :: _ => Beyond
  end.

(** [nums.reduce((a, b) => a + b, 0)] *)
Fixpoint sumFrom (acc : Z) (nums : list Z) : ran Z :=
  match nums with
  | [] => Done acc
  | n :: rest => andThen (number (acc + n)) (fun acc' => sumFrom acc' rest)
  end.

(** [func.toLowerCase()] on word characters. *)
Definition toLowerCase (s : jsstring) : jsstring :=
  map (fun c => if Buffer.inRange 65 90 c then c + 32 else c) s.

(** [executePatternExtraction(data, query)] *)
Definition executePatternExtraction (data : list (jsstring * json)) (query : jsstring)
  : ran Z :=
  match matchQuery query with
  | None => Failed (js "Invalid query format: " ++ query)
  | Some (func, path) =>
      andThen (extractPathValues data path) (fun values =>
        let lower := toLowerCase func in
        if named "sum" lower then andThen (asNumbers values) (sumFrom 0)
        else if named "max" lower then
          andThen (asNumbers values) (fun nums =>
            match nums with
            | [] => Beyond
            | n :: rest => Done (fold_left Z.max rest n)
            end)
        else if named "min" lower then
          andThen (asNumbers values) (fun nums =>
            match nums with
            | [] => Beyond
            | n :: rest => Done (fold_left Z.min rest n)
            end)
        else if named "count" lower then Done (Z.of_nat (length values))
        else if named "avg" lower then
          andThen (asNumbers values) (fun nums =>
            andThen (sumFrom 0 nums) (fun total =>
              let n := Z.of_nat (length nums) in
              if (n =? 0) || negb (Z.rem total n =? 0) then Beyond
              else Done (Z.quot total n)))
        else Failed (js "Unknown function: " ++ func))
  end.

(** The typed operations of a payload. *)
Fixpoint operationsOf (ops : list json) : option (list (jsstring * option Z)) :=
  match ops with
  | [] => Some []
  | op :: rest =>
      match operationOf op, operationsOf rest with
      | Some typed, Some more => Some (typed :: more)
      | _, _ => None
      end
  end.

(** [executePayload(payload)].  [executeFunction] and
    [executeCodeTransform] run code through [new Function] and are not
    followed. *)
Definition executePayload (payload : json) : ran Z :=
  match payload with
  | JObj props =>
      match member (js "type") props with
      | Some (JStr type) =>
          if named "function_execution" type then Beyond
          else if named "chained_operations" type then
            match member (js "initialValue") props, member (js "operations") props with
            | Some (JNum initialValue), Some (JArr ops) =>
                match operationsOf ops with
                | Some operations =>
                    andThen (number initialValue)
                            (fun start => executeChainedOperations start operations)
                | None => Beyond
                end
            | _, _ => Beyond
            end
          else if named "encoded_instruction" type then
            match member (js "instruction") props,
                  member (js "instructionEncoding") props with
            | Some (JStr instruction), Some (JStr encoding) =>
                executeEncodedInstruction instruction encoding
            | _, _ => Beyond
            end
          else if named "pattern_extraction" type then
            match member (js "data") props, member (js "query") props with
            | Some (JObj data), Some (JStr query) => executePatternExtraction data query
            | _, _ => Beyond
            end
          else if named "code_transform" type then Beyond
          else Failed (js "Unknown challenge type: " ++ type)
      | _ => Beyond
      end
  | _ => Beyond
  end.

End Executor.

(** ** src/client/solver.ts *)

Module Solver.

Record SolutionResult := mkSolution {
  solution : jsstring;
  solveDuration : Z;
  success : bool;
  error : option jsstring
}.

(** [payload.responseEncoding || 'plain'] *)
Definition responseEncodingOf (payload : json) : option jsstring :=
  match payload with
  | JObj props =>
      match Executor.member (js "responseEncoding") props with
      | None | Some JNull | Some (JStr []) => Some (js "plain")
      | Some (JStr encoding) => Some encoding
      | Some _ => None
      end
  | _ => None
  end.

(** [solve(challenge)]; [now k] is the k-th reading of the clock.  [None]
    where the run of the payload is not followed. *)
Definition solve (now : nat -> Z) (challenge : Challenge.t) : option SolutionResult :=
  let startTime := now 0%nat in
  if now 1%nat >? Challenge.expiresAt challenge then
    Some (mkSolution [] (now 2%nat - startTime) false (Some (js "Challenge has expired")))
  else
    match Executor.executePayload (Challenge.payload challenge) with
    | Executor.Beyond => None
    | Executor.Failed message =>
        Some (mkSolution [] (now 2%nat - startTime) false (Some message))
    | Executor.Done rawResult =>
        match responseEncodingOf (Challenge.payload challenge) with
        | None => None
        | Some responseEncoding =>
            match Encoding.encode (numberToString rawResult) responseEncoding with
            | Ok solution => Some (mkSolution solution (now 2%nat - startTime) true None)
            | Thrown message =>
                Some (mkSolution [] (now 2%nat - startTime) false (Some message))
            end
        end
    end.

End Solver.

(** ** src/functions/math.ts *)

Module MathFunctions.

(** The loop of [gcd]: [while (b !== 0) { temp = b; b = a % b; a = temp }];
    [None] when [fuel] rounds were not enough. *)
Fixpoint gcdLoop (fuel : nat) (a b : Z) : option Z :=
  match fuel with
  | O => if b =? 0 then Some a else None
  | S fuel' => if b =? 0 then Some a else gcdLoop fuel' b (Z.rem a b)
  end.

(** [gcd(a, b)] on integers; the remainder shrinks in every round, so
    that [|b| + 1] rounds are enough. *)
Definition gcd (a b : Z) : option Z :=
  gcdLoop (S (Z.to_nat (Z.abs b))) (Z.abs a) (Z.abs b).

(** [lcm(a, b)]: [Math.abs(a * b) / gcd(a, b)].  [None] where the product
    is above 2^53 and so not exact, and for 0 / 0. *)
Definition lcm (a b : Z) : option Z :=
  if Z.abs (a * b) <=? 2 ^ 53 then
    match gcd a b with
    | Some g => if g =? 0 then None else Some (Z.abs (a * b) / g)
    | None => None
    end
  else None.

(** The loop of [modPow]. *)
Fixpoint modPowLoop (fuel : nat) (result base exp modulus : Z) : option Z :=
  match fuel with
  | O => if exp >? 0 then None else Some result
  | S fuel' =>
      if exp >? 0 then
        modPowLoop fuel'
          (if Z.rem exp 2 =? 1 then Z.rem (result * base) modulus else result)
          (Z.rem (base * base) modulus) (exp / 2) modulus
      else Some result
  end.

(** [modPow(base, exp, mod)] on integers.  [None] for [mod] 0 (the
    remainder is NaN) and where [mod * mod] is above 2^53, so that a
    product could be inexact.  The exponent is halved in every round. *)
Definition modPow (base exp modulus : Z) : option Z :=
  if modulus =? 1 then Some 0
  else if (modulus =? 0) || negb (modulus * modulus <=? 2 ^ 53) then None
  else modPowLoop (S (Z.to_nat (Z.log2 exp))) 1 (Z.rem base modulus) exp modulus.

End MathFunctions.

(** * Vocabulary of the statements *)



(** The client is not rate limited: the limiter, asked first by both
    verification modes at the clock reading [now], lets the attempt
    through. *)
Definition admitted (config : UnCaptchaConfig) (now : Z)
    (clientIdentifier : option jsstring) (st : Verifier.state) : Prop :=
  RateLimiter.allowed
    (RateLimiter.recordAttempt (Verifier.limiterConfig config) now
       (Verifier.clientKeyOf clientIdentifier) (Verifier.rateLimiter st)).1 = true.

(** The state after the limiter has counted an attempt. *)
Definition counted (config : UnCaptchaConfig) (now : Z) (cid : option jsstring)
    (st : Verifier.state) : Verifier.state :=
  Verifier.withLimiter
    (RateLimiter.recordAttempt (Verifier.limiterConfig config) now
       (Verifier.clientKeyOf cid) (Verifier.rateLimiter st)).2 st.


(** A small stand-in for HMAC-SHA256, to run the statements on concrete
    inputs: the byte sums of key and data and the length of the data. *)
Definition toyMac (key data : list Z) : list Byte.byte :=
  let byte (n : Z) := default Byte.x00 (Byte.of_N (Z.to_N (n mod 256))) in
  [byte (fold_right Z.add 0 key); byte (fold_right Z.add 0 data);
   byte (Z.of_nat (length data))].

(** Three entries of the catalog, for concrete runs: [sumEvens],
    [dotProduct] and [modPow] on integer arguments. *)
Definition numbersOf (v : json) : option (list Z) :=
  match v with
  | JArr items =>
      mapM (fun x => match x with JNum n => Some n | _ => None end) items
  | _ => None
  end.

Definition sampleCatalog : list RegisteredFunction :=
  [mkFunction (js "sumEvens")
     (fun args =>
        match args with
        | arr :: _ =>
            match numbersOf arr with
            | Some l => Ok (JNum (fold_left Z.add (List.filter (fun n => Z.rem n 2 =? 0) l) 0))
            | None => Thrown (js "arr.filter is not a function")
            end
        | [] => Thrown (js "Cannot read properties of undefined")
        end)
     [js "number[]"] (js "Sum all even numbers in an array") easy;
   mkFunction (js "dotProduct")
     (fun args =>
        match args with
        | a :: b :: _ =>
            match numbersOf a, numbersOf b with
            | Some x, Some y =>
                if bool_decide (length x = length y)
                then Ok (JNum (fold_left Z.add (zip_with Z.mul x y) 0))
                else Thrown (js "Arrays must have equal length")
            | _, _ => Thrown (js "Arrays must have equal length")
            end
        | _ => Thrown (js "Cannot read properties of undefined")
        end)
     [js "number[]"; js "number[]"] (js "Calculate dot product of two arrays") medium;
   mkFunction (js "modPow")
     (fun args =>
        match args with
        | JNum base :: JNum exp :: JNum modulus :: _ =>
            Ok (JNum (if modulus =? 1 then 0 else Z.rem (Z.rem base modulus ^ exp) modulus))
        | _ => Thrown (js "modPow expects three numbers")
        end)
     [js "number"; js "number"; js "number"] (js "Modular exponentiation") hard].

(** Tapes for concrete runs: the bytes 7, 20, 33, ... and a few draws of
    [Math.random]. *)
Definition sampleWorld : World :=
  mkWorld
    (map (fun i => default Byte.x00 (Byte.of_N (N.of_nat ((7 + 13 * i) mod 256))))
         (seq 0 400))
    [2 ^ 52; 12345; 2 ^ 53 - 1].

(** The number a little-endian sequence of bytes denotes. *)
Fixpoint littleEndian (bytes : list Z) : Z :=
  match bytes with
  | [] => 0
  | b :: rest => b + 256 * littleEndian rest
  end.

(** The candidates that [randomInt(min, max)] accepts and maps to [x],
    among all the values that [bytesNeeded] bytes can denote. *)
Definition acceptedFor (min max x : Z) : list Z :=
  let range := max - min + 1 in
  let bytesNeeded := Crypto.bytesNeededFor range in
  filter (fun v => v <= Crypto.maxValidFor bytesNeeded range /\ min + Z.rem v range = x)
         (seqZ 0 (256 ^ bytesNeeded)).

(** The candidates that the doubles of [randomInt(min, max)] accept and
    map to [x]. *)
Definition acceptedAsComputed (min max x : Z) : list Z :=
  let range := RandomIntDoubles.rangeOf min max in
  let bytesNeeded := Crypto.bytesNeededFor range in
  filter (fun v => v <= RandomIntDoubles.maxValidFor bytesNeeded range
                   /\ RandomIntDoubles.result min range v = x)
         (seqZ 0 (256 ^ bytesNeeded)).

(** A well-formed string: every code unit is a 16-bit value and the
    surrogates come in pairs, a high one followed by a low one. *)
Fixpoint wellFormed (s : jsstring) : bool :=
  match s with
  | [] => true
  | c :: rest =>
      if Buffer.isHighSurrogate c then
        match rest with
        | d :: rest' => Buffer.isLowSurrogate d && wellFormed rest'
        | [] => false
        end
      else negb (Buffer.isLowSurrogate c) && (0 <=? c) && (c <? 0x10000) && wellFormed rest
  end.

(** The values of bytes. *)
Definition isByte (b : Z) : Prop := 0 <= b < 256.

(** [decode(encode(s, k), k) == s] *)
Definition roundTrips (s k : jsstring) : Prop :=
  exists encoded, Encoding.encode s k = Ok encoded /\ Encoding.decode encoded k = Ok s.

(** The four encoding kinds. *)
Definition kinds : list jsstring := [js "plain"; js "base64"; js "hex"; js "rot13"].

(** The byte that Node's hex and base64 decoders read of a code unit. *)
Definition lowByte (c : Z) : Z := c mod 256.

(** A code unit that the hex decoder reads as a digit. *)
Definition isHexUnit (c : Z) : bool :=
  match Buffer.unhex (lowByte c) with
  | Some _ => true
  | None => false
  end.

(** A run of pairs of units that the hex decoder reads as digits. *)
Fixpoint hexPairs (p : jsstring) : bool :=
  match p with
  | [] => true
  | a :: b :: rest => isHexUnit a && isHexUnit b && hexPairs rest
  | [_] => false
  end.

(** Where the hex decoder stops: at the end, at a single last unit, and
    at a pair one unit of which it does not read as a digit. *)
Definition stopsHex (t : jsstring) : bool :=
  match t with
  | a :: b :: _ => negb (isHexUnit a && isHexUnit b)
  | _ => true
  end.

(** What may follow a number in a serialization: nothing, or a character
    that is not a digit. *)
Definition endsNumber (r : jsstring) : Prop :=
  match r with
  | [] => True
  | c :: _ => c < 48 \/ 57 < c
  end.

(** The character an escape letter stands for. *)
Definition unescape (x : Z) : option Z :=
  if x =? 98 then Some 8
  else if x =? 116 then Some 9
  else if x =? 110 then Some 10
  else if x =? 102 then Some 12
  else if x =? 114 then Some 13
  else if x =? 34 then Some 34
  else if x =? 92 then Some 92
  else None.

(** Reads the characters of a string literal up to its closing quote, and
    returns them with what follows the quote. *)
Fixpoint unquoteBody (l : jsstring) : option (jsstring * jsstring) :=
  match l with
  | [] => None
  | c :: r0 =>
      if c =? 34 then Some ([], r0)
      else if c =? 92 then
        match r0 with
        | [] => None
        | x :: r1 =>
            if x =? 117 then
              match r1 with
              | h3 :: h2 :: h1 :: h0 :: r5 =>
                  match Buffer.unhex h3, Buffer.unhex h2, Buffer.unhex h1, Buffer.unhex h0,
                        unquoteBody r5 with
                  | Some a, Some b, Some c', Some d, Some (s, rest) =>
                      Some ((4096 * a + 256 * b + 16 * c' + d) :: s, rest)
                  | _, _, _, _, _ => None
                  end
              | _ => None
              end
            else
              match unescape x, unquoteBody r1 with
              | Some u, Some (s, rest) => Some (u :: s, rest)
              | _, _ => None
              end
        end
      else
        match unquoteBody r0 with
        | Some (s, rest) => Some (c :: s, rest)
        | None => None
        end
  end.

(** What reading one more character in front amounts to. *)
Definition readAfter (c : Z) (l : jsstring) : option (jsstring * jsstring) :=
  match unquoteBody l with
  | Some (s, rest) => Some (c :: s, rest)
  | None => None
  end.

(** The first character of the serialization of a value, by its kind. *)
Definition opening (v : json) (c : Z) : Prop :=
  match v with
  | JNull => c = 110
  | JBool b => c = if b then 116 else 102
  | JNum _ => c = 45 \/ 48 <= c <= 57
  | JStr _ => c = 34
  | JArr _ => c = 91
  | JObj _ => c = 123
  end.

(** The rest of an array after its first element, and of an object after
    its first member, as [JSON.stringify] writes them. *)
Fixpoint elementsFrom (l : list json) : jsstring :=
  match l with
  | [] => [93]
  | y :: l' => 44 :: JSON.stringify y ++ elementsFrom l'
  end.

Fixpoint membersFrom (l : list (jsstring * json)) : jsstring :=
  match l with
  | [] => [125]
  | (k, y) :: l' => 44 :: JSON.quote k ++ 58 :: JSON.stringify y ++ membersFrom l'
  end.

(** The statement that the induction carries: a serialization followed by
    anything that ends a number determines the value and what follows. *)
Definition determines (v : json) : Prop :=
  forall v' r r', endsNumber r -> endsNumber r' ->
    JSON.stringify v ++ r = JSON.stringify v' ++ r' -> v = v' /\ r = r'.

(** Every count lies between 0 and the maximum. *)
Definition countsBounded (config : RateLimiter.RateLimitConfig)
    (es : gmap (list Z) RateLimiter.RateLimitEntry) : Prop :=
  forall key e, es !! key = Some e ->
    0 <= RateLimiter.count e <= RateLimiter.maxAttempts config.

(** Strings of 7-bit characters. *)
Definition isAscii (s : jsstring) : Prop := Forall (fun c => 0 <= c < 128) s.

(** The lower-case hexadecimal digits, and the characters of base64 text. *)
Definition isLowerHex (c : Z) : Prop := 48 <= c <= 57 \/ 97 <= c <= 102.

Definition isBase64Text (c : Z) : Prop :=
  65 <= c <= 90 \/ 97 <= c <= 122 \/ 48 <= c <= 57 \/ c = 43 \/ c = 47 \/ c = 61.

(** A tape of [n] zero bytes. *)
Definition zeros (n : nat) (u : list Z) : World := mkWorld (repeat Byte.x00 n) u.


(** The signature that belongs to a challenge's fields and an answer. *)
Definition genuineSignature (hmacSha256 : list Z -> list Z -> list Byte.byte)
    (config : UnCaptchaConfig) (challenge : Challenge.t) (expectedAnswer : jsstring)
  : jsstring :=
  Crypto.signChallenge hmacSha256
    (Verifier.signatureData (Challenge.id challenge) (Challenge.type challenge)
       (Challenge.payload challenge) (Challenge.expiresAt challenge) expectedAnswer)
    (secret config).

(** The outcome of a successful [solve]. *)
Definition solved (now : nat -> Z) (answer : jsstring) : Solver.SolutionResult :=
  Solver.mkSolution answer (now 2%nat - now 0%nat) true None.

(** The five challenge types. *)
Definition challengeTypeNames : list jsstring :=
  [js "function_execution"; js "chained_operations"; js "encoded_instruction";
   js "pattern_extraction"; js "code_transform"].

(** What [generate] takes from its overrides, when they give it. *)
Definition overriddenType (overrides : option (option jsstring * option ChallengeDifficulty))
  : option jsstring :=
  match overrides with
  | Some (Some type, _) => Some type
  | _ => None
  end.

Definition overriddenDifficulty
    (overrides : option (option jsstring * option ChallengeDifficulty))
  : option ChallengeDifficulty :=
  match overrides with
  | Some (_, Some difficulty) => Some difficulty
  | _ => None
  end.

(** The ten names of [ChainedOperation['operation']]. *)
Definition operationNames : list jsstring :=
  [js "add"; js "subtract"; js "multiply"; js "divide"; js "modulo"; js "power";
   js "floor"; js "ceil"; js "abs"; js "negate"].

(** * Properties *)

(** ** The rate limiter *)

Section RateLimiterFacts.
Import RateLimiter.
Variable config : RateLimitConfig.








End RateLimiterFacts.



(** ** Computations *)

Lemma bind_Return {A B} (m : M A) (k : A -> M B) (w w' : World) (b : B) :
  bind m k w = Return b w' ->
  exists a w1, m w = Return a w1 /\ k a w1 = Return b w'.
Proof.
  unfold bind. destruct (m w) as [a w1| |]; [eauto | done | done].
Qed.

Lemma ret_Return {A} (a b : A) (w w' : World) :
  ret a w = Return b w' -> a = b /\ w = w'.
Proof. unfold ret. by intros [= -> ->]. Qed.

Ltac invert_bind H :=
  let a := fresh "a" in
  let w := fresh "w" in
  let H1 := fresh "H" in
  apply bind_Return in H; destruct H as (a & w & H1 & H).

(** ** Constant-time comparison *)

Lemma timingSafeEqual_same (a : list Z) : Crypto.timingSafeEqual a a = Ok true.
Proof.
  unfold Crypto.timingSafeEqual.
  rewrite bool_decide_eq_true_2 by done. by rewrite bool_decide_eq_true_2.
Qed.

Lemma safeCompare_same (a : jsstring) : Crypto.safeCompare a a = true.
Proof.
  unfold Crypto.safeCompare.
  rewrite bool_decide_eq_true_2 by done. simpl. by rewrite timingSafeEqual_same.
Qed.

(** ** The verifier *)

Section VerifierFacts.
Variable hmacSha256 : list Z -> list Z -> list Byte.byte.
Variable config : UnCaptchaConfig.

Lemma limiterConfig_eq : Verifier.limiterConfig config = rateLimit config.
Proof. unfold Verifier.limiterConfig. simpl. by destruct (rateLimit config). Qed.

(** With a positive maximum, a key that [isRateLimited] reports as not
    limited is admitted. *)
Lemma not_limited_admitted now cid st :
  0 < RateLimiter.maxAttempts (rateLimit config) ->
  (RateLimiter.isRateLimited (Verifier.limiterConfig config) now
     (Verifier.clientKeyOf cid) (Verifier.rateLimiter st)).1 = false ->
  admitted config now cid st.
Proof.
  intros Hpos. unfold admitted, RateLimiter.isRateLimited, RateLimiter.recordAttempt,
    RateLimiter.openWindow.
  rewrite limiterConfig_eq.
  destruct (Verifier.rateLimiter st !! Verifier.clientKeyOf cid) as [e|]; simpl.
  - destruct (Z.gtb_spec now (RateLimiter.resetAt e)); simpl.
    + intros _. by destruct (Z.geb_spec 0 (RateLimiter.maxAttempts (rateLimit config))); [lia|].
    + intros ->. done.
  - intros _. by destruct (Z.geb_spec 0 (RateLimiter.maxAttempts (rateLimit config))); [lia|].
Qed.

Lemma admitted_dec now cid st : admitted config now cid st \/ ~ admitted config now cid st.
Proof. unfold admitted. destruct (RateLimiter.allowed _); auto. Qed.

Lemma verify_rate_limited now ch sol cid st :
  ~ admitted config (now 0%nat) cid st ->
  exists message,
    Verifier.verify hmacSha256 config now ch sol cid st =
      (Verifier.failure message RATE_LIMITED, counted config (now 0%nat) cid st).
Proof.
  unfold admitted, counted, Verifier.verify.
  destruct (RateLimiter.recordAttempt _ _ _ _) as [r es1]; simpl.
  destruct (RateLimiter.allowed r); [done|]. simpl. eauto.
Qed.


(** What [verify] does once the attempt is admitted. *)
Lemma verify_admitted now ch sol cid st :
  admitted config (now 0%nat) cid st ->
  Verifier.verify hmacSha256 config now ch sol cid st =
    let st1 := counted config (now 0%nat) cid st in
    if negb (bool_decide (Challenge.id ch = ChallengeSolution.challengeId sol)) then
      (Verifier.failure (js "Challenge ID mismatch") CHALLENGE_NOT_FOUND, st1)
    else if now 1%nat >? Challenge.expiresAt ch then
      (Verifier.failure (js "Challenge has expired") EXPIRED, st1)
    else
      match Verifier.challengeStore st !! Challenge.id ch with
      | None =>
          (Verifier.failure (js "Challenge not found or already used") CHALLENGE_NOT_FOUND, st1)
      | Some stored =>
          if now 2%nat >? ChallengeStore.expiresAt stored then
            (Verifier.failure (js "Challenge has expired") EXPIRED,
             Verifier.withStore (delete (Challenge.id ch) (Verifier.challengeStore st)) st1)
          else if negb (Crypto.safeCompare (Challenge.signature ch)
                          (Crypto.signChallenge hmacSha256
                             (Verifier.signatureData (Challenge.id ch) (Challenge.type ch)
                                (Challenge.payload ch) (Challenge.expiresAt ch)
                                (ChallengeStore.expectedAnswer stored))
                             (secret config))) then
            (Verifier.failure (js "Invalid challenge signature") INVALID_SIGNATURE, st1)
          else if negb (Crypto.safeCompare (ChallengeSolution.solution sol)
                          (ChallengeStore.expectedAnswer stored)) then
            (Verifier.failure (js "Incorrect solution") INVALID_SOLUTION, st1)
          else
            (mkResult true None None,
             Verifier.mkState
               (delete (Verifier.clientKeyOf cid) (Verifier.rateLimiter st1))
               (delete (Challenge.id ch) (Verifier.challengeStore st)))
      end.
Proof.
  unfold admitted, counted, Verifier.verify.
  destruct (RateLimiter.recordAttempt _ _ _ _) as [r es1]; simpl.
  intros ->. simpl. reflexivity.
Qed.
End VerifierFacts.

(** C6.  When the challenge id matches the solution's challengeId, the
    client is not rate limited and the clock, read for the expiry check, is
    strictly past challenge.expiresAt, [verify] returns valid = false with
    errorCode EXPIRED, whatever the submitted solution and whatever the
    store holds. *)
Theorem verify_expired
    (hmacSha256 : list Z -> list Z -> list Byte.byte) (config : UnCaptchaConfig)
    (now : nat -> Z) (challenge : Challenge.t) (solution : ChallengeSolution.t)
    (clientIdentifier : option jsstring) (st : Verifier.state) :
  Challenge.id challenge = ChallengeSolution.challengeId solution ->
  admitted config (now 0%nat) clientIdentifier st ->
  now 1%nat > Challenge.expiresAt challenge ->
  (Verifier.verify hmacSha256 config now challenge solution clientIdentifier st).1
    = mkResult false (Some (js "Challenge has expired")) (Some EXPIRED).
Proof.
  intros Hid Hadm Hexp. rewrite verify_admitted by done. cbv zeta.
  rewrite bool_decide_eq_true_2 by done. simpl.
  by destruct (Z.gtb_spec (now 1%nat) (Challenge.expiresAt challenge)); [|lia].
Qed.

Lemma verify_expired_witness :
  let config := withDefaults (mkUserConfig (js "secret") None None None None) in
  let challenge := Challenge.make (js "c0ffee") (js "code_transform") easy JNull 5000 (js "00") in
  let st := Verifier.storeChallenge (js "c0ffee") (js "42") 5000 Verifier.create in
  (Verifier.verify (fun _ _ => []) config (fun _ => 5001) challenge
     (ChallengeSolution.make (js "c0ffee") (js "42")) (Some (js "agent")) st).1
    = mkResult false (Some (js "Challenge has expired")) (Some EXPIRED).
Proof.
  intros config challenge st.
  apply (verify_expired (fun _ _ => []) config (fun _ => 5001) challenge
           (ChallengeSolution.make (js "c0ffee") (js "42")) (Some (js "agent")) st).
  - reflexivity.
  - vm_compute. reflexivity.
  - simpl. lia.
Defined.

(** C2.  When [verify] returns valid = true, the store entry of
    challenge.id is deleted and the client's rate-limit window is reset; a
    second [verify] of the same challenge and solution, before expiry and
    with the client not rate limited, returns valid = false with errorCode
    CHALLENGE_NOT_FOUND. *)
Theorem verify_one_time_use
    (hmacSha256 : list Z -> list Z -> list Byte.byte) (config : UnCaptchaConfig)
    (now : nat -> Z) (challenge : Challenge.t) (solution : ChallengeSolution.t)
    (clientIdentifier : option jsstring) (st st' : Verifier.state)
    (r : VerificationResult) :
  Verifier.verify hmacSha256 config now challenge solution clientIdentifier st = (r, st') ->
  valid r = true ->
  Verifier.challengeStore st' !! Challenge.id challenge = None
  /\ Verifier.rateLimiter st' !! Verifier.clientKeyOf clientIdentifier = None
  /\ forall again : nat -> Z,
       again 1%nat <= Challenge.expiresAt challenge ->
       admitted config (again 0%nat) clientIdentifier st' ->
       (Verifier.verify hmacSha256 config again challenge solution clientIdentifier st').1
         = mkResult false (Some (js "Challenge not found or already used"))
             (Some CHALLENGE_NOT_FOUND).
Proof.
  intros Hv Hvalid.
  destruct (admitted_dec config (now 0%nat) clientIdentifier st) as [Hadm|Hadm];
    [| destruct (verify_rate_limited hmacSha256 config now challenge solution
                   clientIdentifier st Hadm) as [m Hm];
       rewrite Hm in Hv; by injection Hv as <- <-].
  rewrite verify_admitted in Hv by done. cbv zeta in Hv.
  destruct (bool_decide (Challenge.id challenge = ChallengeSolution.challengeId solution))
    eqn:Hid; simpl in Hv; [| by injection Hv as <- <-].
  destruct (now 1%nat >? Challenge.expiresAt challenge); [by injection Hv as <- <- |].
  destruct (Verifier.challengeStore st !! Challenge.id challenge) as [stored|];
    [| by injection Hv as <- <-].
  destruct (now 2%nat >? ChallengeStore.expiresAt stored); [by injection Hv as <- <- |].
  destruct (negb (Crypto.safeCompare (Challenge.signature challenge) _));
    [by injection Hv as <- <- |].
  destruct (negb (Crypto.safeCompare (ChallengeSolution.solution solution) _));
    [by injection Hv as <- <- |].
  injection Hv as <- <-. simpl.
  assert (Hgone : delete (Challenge.id challenge) (Verifier.challengeStore st)
                    !! Challenge.id challenge = None) by apply lookup_delete_eq.
  split_and!.
  - exact Hgone.
  - apply lookup_delete_eq.
  - intros again Hbefore Hadm2. rewrite verify_admitted by done. cbv zeta.
    rewrite Hid. simpl.
    destruct (Z.gtb_spec (again 1%nat) (Challenge.expiresAt challenge)); [lia|].
    by rewrite Hgone.
Qed.

Lemma verify_one_time_use_witness :
  let config := withDefaults (mkUserConfig (js "secret") None None None None) in
  let signature :=
    Crypto.signChallenge toyMac
      (Verifier.signatureData (js "c0ffee") (js "code_transform") JNull 5000 (js "42"))
      (js "secret") in
  let challenge := Challenge.make (js "c0ffee") (js "code_transform") easy JNull 5000 signature in
  let solution := ChallengeSolution.make (js "c0ffee") (js "42") in
  let st := Verifier.storeChallenge (js "c0ffee") (js "42") 5000 Verifier.create in
  let first := Verifier.verify toyMac config (fun _ => 1000) challenge solution None st in
  valid first.1 = true
  /\ (Verifier.verify toyMac config (fun _ => 1001) challenge solution None first.2).1
       = mkResult false (Some (js "Challenge not found or already used"))
           (Some CHALLENGE_NOT_FOUND).
Proof.
  intros config signature challenge solution st first.
  assert (Hvalid : valid first.1 = true) by (vm_compute; reflexivity).
  split; [exact Hvalid|].
  destruct (verify_one_time_use toyMac config (fun _ => 1000) challenge solution None
              st first.2 first.1) as (_ & _ & Hagain).
  - apply surjective_pairing.
  - exact Hvalid.
  - apply Hagain.
    + simpl. lia.
    + vm_compute. reflexivity.
Defined.

(** ** Stateless verification and the limiter *)

Section StatelessFacts.
Variable hmacSha256 : list Z -> list Z -> list Byte.byte.
Variable config : UnCaptchaConfig.




End StatelessFacts.



(** ** Generation followed by verification *)

Section GenerateFacts.
Variable hmacSha256 : list Z -> list Z -> list Byte.byte.
Variable allFunctions : list RegisteredFunction.
Variable config : UnCaptchaConfig.

(** The challenge that [generate] returns carries the signature of its
    own fields together with the expected answer, and expires
    [expirationMs] after the clock reading. *)
Lemma generate_signed now overrides w challenge expectedAnswer w' :
  Generator.generate hmacSha256 allFunctions config now overrides w
    = Return (challenge, expectedAnswer) w' ->
  Challenge.signature challenge
    = Crypto.signChallenge hmacSha256
        (Verifier.signatureData (Challenge.id challenge) (Challenge.type challenge)
           (Challenge.payload challenge) (Challenge.expiresAt challenge) expectedAnswer)
        (secret config)
  /\ Challenge.expiresAt challenge = now + expirationMs config.
Proof.
  unfold Generator.generate. intros H.
  invert_bind H. invert_bind H. destruct a0 as [payload answer].
  invert_bind H. apply ret_Return in H as [[= <- <-] _]. simpl. done.
Qed.
End GenerateFacts.

(** C1.  Whatever the difficulty and the challenge type, if [generate]
    produces (challenge, expectedAnswer) and [storeChallenge(challenge.id,
    expectedAnswer, challenge.expiresAt)] is called, a [verify] of
    {challengeId: challenge.id, solution: expectedAnswer} made while the
    clock is not past challenge.expiresAt, by a client that is not rate
    limited, returns {valid: true}.  The generator signs the serialization
    of {id, type, payload, expiresAt, expectedAnswer} that the verifier
    recomputes. *)
Theorem generate_then_verify
    (hmacSha256 : list Z -> list Z -> list Byte.byte)
    (allFunctions : list RegisteredFunction) (config : UnCaptchaConfig)
    (generatedAt : Z) (overrides : option (option jsstring * option ChallengeDifficulty))
    (w w' : World) (challenge : Challenge.t) (expectedAnswer : jsstring)
    (now : nat -> Z) (clientIdentifier : option jsstring) (st : Verifier.state) :
  Generator.generate hmacSha256 allFunctions config generatedAt overrides w
    = Return (challenge, expectedAnswer) w' ->
  let stored :=
    Verifier.storeChallenge (Challenge.id challenge) expectedAnswer
      (Challenge.expiresAt challenge) st in
  admitted config (now 0%nat) clientIdentifier stored ->
  now 1%nat <= Challenge.expiresAt challenge ->
  now 2%nat <= Challenge.expiresAt challenge ->
  (Verifier.verify hmacSha256 config now challenge
     (ChallengeSolution.make (Challenge.id challenge) expectedAnswer)
     clientIdentifier stored).1 = mkResult true None None
  /\ Challenge.signature challenge
     = Crypto.signChallenge hmacSha256
         (Verifier.signatureData (Challenge.id challenge) (Challenge.type challenge)
            (Challenge.payload challenge) (Challenge.expiresAt challenge) expectedAnswer)
         (secret config).
Proof.
  intros Hgen stored Hadm H1 H2.
  destruct (generate_signed _ _ _ _ _ _ _ _ _ Hgen) as [Hsig _].
  split; [|exact Hsig].
  rewrite verify_admitted by done. cbv zeta. simpl.
  rewrite bool_decide_eq_true_2 by done. simpl.
  destruct (Z.gtb_spec (now 1%nat) (Challenge.expiresAt challenge)); [lia|].
  rewrite lookup_insert_eq. simpl.
  destruct (Z.gtb_spec (now 2%nat) (Challenge.expiresAt challenge)); [lia|].
  rewrite <- Hsig. rewrite !safeCompare_same. reflexivity.
Qed.

Lemma generate_then_verify_witness :
  let config := withDefaults (mkUserConfig (js "secret") None None None None) in
  exists challenge expectedAnswer w',
    Generator.generate toyMac sampleCatalog config 1000
      (Some (Some (js "chained_operations"), Some hard)) sampleWorld
      = Return (challenge, expectedAnswer) w'
    /\ (Verifier.verify toyMac config (fun _ => 1500) challenge
          (ChallengeSolution.make (Challenge.id challenge) expectedAnswer)
          (Some (js "agent"))
          (Verifier.storeChallenge (Challenge.id challenge) expectedAnswer
             (Challenge.expiresAt challenge) Verifier.create)).1
       = mkResult true None None.
Proof.
  intros config.
  destruct (Generator.generate toyMac sampleCatalog config 1000
              (Some (Some (js "chained_operations"), Some hard)) sampleWorld)
    as [[challenge expectedAnswer] w'| |] eqn:Hgen;
    [| vm_compute in Hgen; discriminate Hgen ..].
  exists challenge, expectedAnswer, w'. split; [reflexivity|].
  destruct (generate_signed _ _ _ _ _ _ _ _ _ Hgen) as [_ Hexp].
  apply (generate_then_verify toyMac sampleCatalog config 1000 _ sampleWorld w'
           challenge expectedAnswer (fun _ => 1500) (Some (js "agent")) Verifier.create Hgen).
  - vm_compute. reflexivity.
  - rewrite Hexp. simpl. lia.
  - rewrite Hexp. simpl. lia.
Defined.

(** On the sample tapes [generate] returns for each of the five challenge
    types at each of the three difficulties. *)
Lemma generate_returns_for_every_type_and_difficulty :
  let config := withDefaults (mkUserConfig (js "secret") None None None None) in
  forallb (fun type =>
    forallb (fun difficulty =>
      match Generator.generate toyMac sampleCatalog config 1000
              (Some (Some type, Some difficulty)) sampleWorld with
      | Return (challenge, _) _ =>
          bool_decide (Challenge.type challenge = type)
          && bool_decide (Challenge.difficulty challenge = difficulty)
      | _ => false
      end) [easy; medium; hard])
    [js "function_execution"; js "chained_operations"; js "encoded_instruction";
     js "pattern_extraction"; js "code_transform"] = true.
Proof. vm_compute. reflexivity. Qed.

(** ** Double-precision arithmetic *)

Lemma ulp_pos (n : Z) : 0 < Double.ulp n.
Proof. unfold Double.ulp. apply Z.pow_pos_nonneg; lia. Qed.

Lemma ulp_small (n : Z) : Z.abs n < 2 ^ 53 -> Double.ulp n = 1.
Proof.
  intros Hn. unfold Double.ulp.
  destruct (Z.eq_dec (Z.abs n) 0) as [Hz | Hz].
  - rewrite Hz. reflexivity.
  - assert (Z.log2 (Z.abs n) < 53) by (apply Z.log2_lt_pow2; lia).
    replace (Z.max 0 (Z.log2 (Z.abs n) - 52)) with 0 by lia. reflexivity.
Qed.

Lemma nearest_exact (q s : Z) : 0 < s -> Double.nearest q 0 s = q.
Proof. intros Hs. unfold Double.nearest. destruct (Z.ltb_spec (2 * 0) s); [reflexivity | lia]. Qed.

Lemma nearest_cases (q r s : Z) :
  (Double.nearest q r s = q /\ 2 * r <= s) \/ (Double.nearest q r s = q + 1 /\ s <= 2 * r).
Proof.
  unfold Double.nearest.
  destruct (Z.ltb_spec (2 * r) s); [left; lia |].
  destruct (Z.ltb_spec s (2 * r)); [right; lia |].
  destruct (Z.even q); [left | right]; lia.
Qed.

Lemma round_exact (n : Z) : Z.abs n <= 2 ^ 53 -> Double.round n = n.
Proof.
  intros Hn. unfold Double.round.
  destruct (Z.eq_dec (Z.abs n) (2 ^ 53)) as [Htop | Htop].
  - assert (Hulp : Double.ulp n = 2) by (unfold Double.ulp; rewrite Htop; reflexivity).
    rewrite Hulp.
    assert (Hmod : n mod 2 = 0) by (destruct (Z.abs_eq_or_opp n) as [H | H]; rewrite H in Htop; [rewrite Htop | replace n with (- 2 ^ 53) by lia]; reflexivity).
    rewrite Hmod, nearest_exact by lia. Z.div_mod_to_equations; lia.
  - rewrite ulp_small by lia. rewrite Z.mod_1_r, nearest_exact, Z.div_1_r by lia. lia.
Qed.

Lemma ulp_below (m : Z) : 0 <= m -> Double.ulp m = 1 \/ Double.ulp m * 2 ^ 52 <= m.
Proof.
  intros Hm. unfold Double.ulp. rewrite Z.abs_eq by lia.
  destruct (Z.le_gt_cases (Z.log2 m) 52) as [Hs | Hb].
  - left. replace (Z.max 0 (Z.log2 m - 52)) with 0 by lia. reflexivity.
  - right. replace (Z.max 0 (Z.log2 m - 52)) with (Z.log2 m - 52) by lia.
    rewrite <- Z.pow_add_r by lia. replace (Z.log2 m - 52 + 52) with (Z.log2 m) by lia.
    apply Z.log2_spec. destruct (Z.eq_dec m 0); [subst; simpl in Hb |]; lia.
Qed.

Lemma round_bound (m : Z) :
  0 <= m -> 0 <= Double.round m /\ 2 ^ 53 * Double.round m <= (2 ^ 53 + 1) * m.
Proof.
  intros Hm. unfold Double.round.
  pose proof (ulp_pos m) as Hs. pose proof (ulp_below m Hm) as Hbelow.
  set (s := Double.ulp m) in *.
  pose proof (Z.div_mod m s ltac:(lia)) as Hdiv.
  pose proof (Z.mod_pos_bound m s Hs) as Hr.
  assert (0 <= m / s) by (apply Z.div_pos; lia).
  destruct (nearest_cases (m / s) (m mod s) s) as [[-> Hle] | [-> Hle]].
  - split; [nia |]. nia.
  - split; [nia |].
    destruct Hbelow as [Hone | Hbig].
    + rewrite Hone in *. lia.
    + change (2 ^ 53) with 9007199254740992 in *. change (2 ^ 52) with 4503599627370496 in *. nia.
Qed.

Lemma round_index (u n : Z) :
  0 <= u < 2 ^ 53 -> 0 < n -> 0 <= Double.round (u * n) / 2 ^ 53 < n.
Proof.
  intros Hu Hn.
  destruct (round_bound (u * n) ltac:(nia)) as [Hlo Hhi].
  split; [apply Z.div_pos; lia |].
  apply Z.div_lt_upper_bound; [lia |].
  change (2 ^ 53) with 9007199254740992 in *. nia.
Qed.

Lemma floorOfQuotient_exact (a b : Z) :
  0 < b -> b <= a -> a <= 2 ^ 48 -> Double.floorOfQuotient a b = a / b.
Proof.
  intros Hb Hba Ha. unfold Double.floorOfQuotient.
  assert (Hq0 : 1 <= a / b) by (apply Z.div_le_lower_bound; lia).
  assert (Hq1 : a / b <= 2 ^ 48).
  { apply Z.le_trans with (a / 1); [apply Z.div_le_compat_l; lia | rewrite Z.div_1_r; lia]. }
  destruct (Z.log2_spec (a / b) ltac:(lia)) as [Hk0 Hk1].
  assert (Hk : 0 <= Z.log2 (a / b) <= 48).
  { split; [apply Z.log2_nonneg |]. change 48 with (Z.log2 (2 ^ 48)). apply Z.log2_le_mono. lia. }
  set (k := Z.log2 (a / b)) in *.
  destruct (Z.ltb_spec (k - 52) 0) as [_ | Hbad]; [| lia].
  replace (- (k - 52)) with (52 - k) by lia.
  assert (HKT : 2 ^ k * 2 ^ (52 - k) = 2 ^ 52) by (rewrite <- Z.pow_add_r by lia; f_equal; lia).
  assert (HT : 0 < 2 ^ (52 - k)) by (apply Z.pow_pos_nonneg; lia).
  assert (HK : 0 < 2 ^ k) by (apply Z.pow_pos_nonneg; lia).
  replace (Z.succ k) with (k + 1) in Hk1 by lia. rewrite Z.pow_add_r in Hk1 by lia. change (2 ^ 1) with 2 in Hk1.
  set (T := 2 ^ (52 - k)) in *. set (K := 2 ^ k) in *.
  assert (Hfloor : a * T / b / T = a / b).
  { rewrite Z.div_div by lia. rewrite (Z.mul_comm b T), (Z.mul_comm a T). apply Z.div_mul_cancel_l; lia. }
  pose proof (Z.div_mod (a * T) b ltac:(lia)) as Hdiv.
  pose proof (Z.mod_pos_bound (a * T) b Hb) as Hr.
  pose proof (Z.div_mod a b ltac:(lia)) as Hdiv0.
  pose proof (Z.mod_pos_bound a b Hb) as Hr0.
  destruct (nearest_cases (a * T / b) (a * T mod b) b) as [[-> _] | [-> Hup]]; [exact Hfloor |].
  set (q := a * T / b) in *. set (r := a * T mod b) in *. set (q0 := a / b) in *. set (r0 := a mod b) in *.
  pose proof (Z.div_mod q T ltac:(lia)) as Hdq.
  pose proof (Z.mod_pos_bound q T HT) as Hrq.
  rewrite Hfloor in Hdq.
  destruct (Z.eq_dec (q mod T) (T - 1)) as [Hlast | Hlast].
  - exfalso.
    assert (Hbig : 2 * T <= b).
    { assert (2 * a * T <= 2 * (q0 + 1) * b * T - 2 * T) by nia.
      assert ((2 * (q0 + 1) * T - 1) * b <= 2 * a * T) by nia.
      nia. }
    assert (2 ^ 53 <= a).
    { change (2 ^ 53) with (2 * 2 ^ 52). rewrite <- HKT. nia. }
    change (2 ^ 53) with 9007199254740992 in *. change (2 ^ 48) with 281474976710656 in *. lia.
  - symmetry. apply Z.div_unique with (q mod T + 1); lia.
Qed.

(** ** Random integers *)

Lemma byteValue_bounds (b : Byte.byte) : 0 <= Crypto.byteValue b < 256.
Proof.
  unfold Crypto.byteValue. pose proof (Byte.to_N_bounded b). lia.
Qed.

Lemma byteValue_inj (a b : Byte.byte) : Crypto.byteValue a = Crypto.byteValue b -> a = b.
Proof.
  unfold Crypto.byteValue. intros H. apply N2Z.inj in H.
  pose proof (Byte.of_to_N a) as Ha. pose proof (Byte.of_to_N b) as Hb.
  rewrite H in Ha. congruence.
Qed.

Lemma reduceBytes_fold (bytes : list Z) : forall acc i, 0 <= i ->
  fold_left (fun acc byte => (fst acc + byte * 256 ^ snd acc, snd acc + 1)) bytes (acc, i)
  = (acc + 256 ^ i * littleEndian bytes, i + Z.of_nat (length bytes)).
Proof.
  induction bytes as [|b bytes IH]; intros acc i Hi; simpl.
  - f_equal; lia.
  - rewrite IH by lia. f_equal; [|lia].
    rewrite Z.pow_add_r by lia. lia.
Qed.

Lemma reduceBytes_littleEndian (bytes : list Z) :
  Crypto.reduceBytes bytes = littleEndian bytes.
Proof.
  unfold Crypto.reduceBytes. rewrite reduceBytes_fold by lia. simpl. lia.
Qed.

Lemma littleEndian_bounds (chunk : list Byte.byte) :
  0 <= littleEndian (map Crypto.byteValue chunk) < 256 ^ Z.of_nat (length chunk).
Proof.
  induction chunk as [|b chunk IH]; [simpl; lia|].
  cbn [map littleEndian length]. rewrite Nat2Z.inj_succ, Z.pow_succ_r by lia.
  pose proof (byteValue_bounds b). lia.
Qed.

Lemma littleEndian_inj (c1 : list Byte.byte) : forall c2,
  length c1 = length c2 ->
  littleEndian (map Crypto.byteValue c1) = littleEndian (map Crypto.byteValue c2) ->
  c1 = c2.
Proof.
  induction c1 as [|a c1 IH]; intros [|b c2] Hlen Heq; try done.
  cbn [map littleEndian] in Heq.
  pose proof (byteValue_bounds a). pose proof (byteValue_bounds b).
  assert (Crypto.byteValue a = Crypto.byteValue b
          /\ littleEndian (map Crypto.byteValue c1) = littleEndian (map Crypto.byteValue c2))
    as [Hab Hrest] by lia.
  f_equal; [by apply byteValue_inj | apply IH; [by injection Hlen | done]].
Qed.

(** Enough bytes are drawn for the range, and at least one. *)
Lemma bytesNeededFor_spec (range : Z) :
  1 <= range ->
  1 <= Crypto.bytesNeededFor range /\ range <= 256 ^ Crypto.bytesNeededFor range.
Proof.
  intros Hr. unfold Crypto.bytesNeededFor.
  pose proof (Z.log2_up_nonneg range) as Hnn.
  assert (range <= 2 ^ Z.log2_up range) as Hle
    by (apply Z.log2_log2_up_spec; lia).
  set (l := Z.log2_up range) in *.
  assert (Hk : forall k, 1 <= k -> l <= 8 * k -> range <= 256 ^ k).
  { intros k Hk1 Hk8. change 256 with (2 ^ 8). rewrite <- Z.pow_mul_r by lia.
    etrans; [exact Hle|]. apply Z.pow_le_mono_r; lia. }
  destruct (Z.eqb_spec ((l + 7) / 8) 0) as [H0|H0].
  - split; [lia|]. apply Hk; [lia|]. Z.div_mod_to_equations. lia.
  - split; [Z.div_mod_to_equations; lia|].
    apply Hk; Z.div_mod_to_equations; lia.
Qed.

(** The accepted candidates are the values below the largest multiple of
    the range that fits; there are more of them than rejected ones. *)
Lemma maxValidFor_spec (range : Z) :
  1 <= range ->
  let b := Crypto.bytesNeededFor range in
  let q := 256 ^ b / range in
  1 <= q
  /\ Crypto.maxValidFor b range = q * range - 1
  /\ q * range <= 256 ^ b
  /\ 256 ^ b < 2 * (q * range).
Proof.
  intros Hr b q. destruct (bytesNeededFor_spec range Hr) as [Hb Hle].
  fold b in Hb, Hle. unfold Crypto.maxValidFor. fold q.
  assert (0 < 256 ^ b) by (apply Z.pow_pos_nonneg; lia).
  generalize dependent (256 ^ b). intros n q Hle Hn.
  assert (1 <= q) as Hq by (subst q; pose proof (Z.div_str_pos n range); lia).
  assert (n = range * q + n mod range) as Hdiv by (subst q; apply Z.div_mod; lia).
  pose proof (Z.mod_pos_bound n range) as Hmod.
  split_and!; [done | done | lia | nia].
Qed.

Lemma filter_none {A} (P : A -> Prop) `{forall x, Decision (P x)} (l : list A) :
  (forall x, x ∈ l -> ~ P x) -> filter P l = [].
Proof.
  induction l as [|a l IH]; intros Hno; [done|].
  rewrite filter_cons. destruct (decide (P a)) as [Ha|_].
  - exfalso. apply (Hno a); [left | done].
  - apply IH. intros x Hx. apply Hno. by right.
Qed.

Lemma filter_agree {A} (P Q : A -> Prop) `{forall x, Decision (P x)}
    `{forall x, Decision (Q x)} (l : list A) :
  (forall x, x ∈ l -> P x <-> Q x) -> filter P l = filter Q l.
Proof.
  induction l as [|a l IH]; intros Hag; [done|].
  rewrite !filter_cons.
  assert (filter P l = filter Q l) as -> by (apply IH; intros x Hx; apply Hag; by right).
  destruct (decide (P a)) as [Ha|Ha], (decide (Q a)) as [Hb|Hb]; try done;
    exfalso; apply (Hag a) in Ha || apply (Hag a) in Hb; try done; left.
Qed.

(** Among [k * range] consecutive values from 0, exactly [k] have a given
    residue. *)
Lemma residue_count (range r : Z) (k : nat) :
  0 <= r < range ->
  length (filter (fun v => v mod range = r) (seqZ 0 (Z.of_nat k * range))) = k.
Proof.
  intros Hr. induction k as [|k IH]; [done|].
  replace (Z.of_nat (S k) * range) with (Z.of_nat k * range + range) by lia.
  rewrite seqZ_app by nia. rewrite filter_app, length_app, IH. simpl.
  set (base := Z.of_nat k * range).
  assert (seqZ (0 + base) range
          = seqZ base r ++ [base + r] ++ seqZ (base + r + 1) (range - r - 1)) as ->.
  { trans (seqZ base (r + (1 + (range - r - 1)))); [f_equal; lia|].
    rewrite !seqZ_app by lia. reflexivity. }
  rewrite !filter_app, !length_app.
  rewrite (filter_none _ (seqZ base r)); cycle 1.
  { intros v Hv. apply elem_of_seqZ in Hv. intros Hmod.
    assert (v = base + (v - base)) as Hsplit by lia.
    rewrite Hsplit in Hmod. unfold base in Hmod.
    rewrite Z.add_comm, Z.mod_add in Hmod by lia.
    rewrite Z.mod_small in Hmod by lia. lia. }
  rewrite (filter_none _ (seqZ (base + r + 1) _)); cycle 1.
  { intros v Hv. apply elem_of_seqZ in Hv. intros Hmod.
    assert (v = base + (v - base)) as Hsplit by lia.
    rewrite Hsplit in Hmod. unfold base in Hmod.
    rewrite Z.add_comm, Z.mod_add in Hmod by lia.
    rewrite Z.mod_small in Hmod by lia. lia. }
  rewrite filter_cons, decide_True; [simpl; lia|].
  unfold base. rewrite Z.add_comm, Z.mod_add by lia. apply Z.mod_small. lia.
Qed.

(** Every value of the range is the image of the same number of accepted
    candidates. *)
Lemma acceptedFor_count (min max x : Z) :
  min <= x <= max ->
  let range := max - min + 1 in
  Z.of_nat (length (acceptedFor min max x)) = 256 ^ Crypto.bytesNeededFor range / range.
Proof.
  intros Hx range. unfold acceptedFor. fold range.
  assert (1 <= range) as Hr by (unfold range; lia).
  destruct (maxValidFor_spec range Hr) as (Hq & Hmv & Hfit & _).
  set (b := Crypto.bytesNeededFor range) in *.
  set (q := 256 ^ b / range) in *. rewrite Hmv.
  replace (256 ^ b) with (q * range + (256 ^ b - q * range)) at 1 by lia.
  rewrite seqZ_app by nia. rewrite filter_app.
  rewrite (filter_none _ (seqZ (0 + q * range) _)); cycle 1.
  { intros v Hv. apply elem_of_seqZ in Hv. lia. }
  rewrite app_nil_r.
  rewrite (filter_agree _ (fun v => v mod range = x - min)); cycle 1.
  { intros v Hv. apply elem_of_seqZ in Hv.
    rewrite Z.rem_mod_nonneg by lia. lia. }
  rewrite <- (Z2Nat.id q) at 1 by lia.
  rewrite residue_count by (unfold range; lia). lia.
Qed.

Lemma randomBytes_chunk (size : Z) (chunk tail : list Byte.byte) (u : list Z) :
  length chunk = Z.to_nat size ->
  Crypto.randomBytes size (mkWorld (chunk ++ tail) u)
  = Return (map Crypto.byteValue chunk) (mkWorld tail u).
Proof.
  intros Hlen. unfold Crypto.randomBytes. simpl.
  rewrite length_app, <- Hlen.
  destruct (Nat.leb_spec (length chunk) (length chunk + length tail)); [|lia].
  by rewrite take_app_length, drop_app_length.
Qed.

(** The loop skips the chunks whose value is above [maxValid] and
    returns the value of the first chunk that is not. *)
Lemma sample_first_accepted (bytesNeeded maxValid : Z) (accepted rest : list Byte.byte)
    (u : list Z) (rejected : list (list Byte.byte)) : forall fuel,
  (length rejected < fuel)%nat ->
  Forall (fun chunk => length chunk = Z.to_nat bytesNeeded
                       /\ maxValid < littleEndian (map Crypto.byteValue chunk)) rejected ->
  length accepted = Z.to_nat bytesNeeded ->
  littleEndian (map Crypto.byteValue accepted) <= maxValid ->
  Crypto.sample fuel bytesNeeded maxValid (mkWorld (concat rejected ++ accepted ++ rest) u)
  = Return (littleEndian (map Crypto.byteValue accepted)) (mkWorld rest u).
Proof.
  induction rejected as [|chunk rejected IH]; intros fuel Hfuel Hrej Hlen Hacc;
    (destruct fuel as [|fuel]; [simpl in Hfuel; lia|]); cbn [Crypto.sample concat].
  - unfold bind. rewrite app_nil_l, randomBytes_chunk by done.
    rewrite reduceBytes_littleEndian.
    by destruct (Z.gtb_spec (littleEndian (map Crypto.byteValue accepted)) maxValid); [lia|].
  - inversion Hrej as [|? ? [Hcl Hcv] Hrej']; subst.
    unfold bind. rewrite <- app_assoc, randomBytes_chunk by done.
    rewrite reduceBytes_littleEndian.
    destruct (Z.gtb_spec (littleEndian (map Crypto.byteValue chunk)) maxValid); [|lia].
    apply IH; [simpl in Hfuel; lia | done..].
Qed.

(** Whatever the loop returns is an accepted candidate. *)
Lemma sample_Return (bytesNeeded maxValid : Z) : forall fuel w v w',
  Crypto.sample fuel bytesNeeded maxValid w = Return v w' ->
  0 <= v <= maxValid.
Proof.
  induction fuel as [|fuel IH]; intros w v w' H; [done|].
  cbn [Crypto.sample] in H. unfold bind in H.
  unfold Crypto.randomBytes in H.
  destruct (Z.to_nat bytesNeeded <=? length (entropy w))%nat; [|done].
  rewrite reduceBytes_littleEndian in H.
  pose proof (littleEndian_bounds (take (Z.to_nat bytesNeeded) (entropy w))) as Hb.
  destruct (Z.gtb_spec (littleEndian (map Crypto.byteValue
                          (take (Z.to_nat bytesNeeded) (entropy w)))) maxValid).
  - by apply IH in H.
  - apply ret_Return in H as [<- _]. lia.
Qed.

Lemma randomInt_bounds (min max : Z) (w w' : World) (x : Z) :
  min <= max ->
  Crypto.randomInt min max w = Return x w' ->
  min <= x <= max.
Proof.
  intros Hle. unfold Crypto.randomInt.
  destruct (Z.eqb_spec (max - min + 1) 0); [lia|].
  intros H. invert_bind H. apply ret_Return in H as [<- _].
  apply sample_Return in H0.
  rewrite Z.rem_mod_nonneg by lia.
  pose proof (Z.mod_pos_bound a (max - min + 1)). lia.
Qed.

Lemma length_concat_chunks (n : nat) (chunks : list (list Byte.byte)) :
  (1 <= n)%nat ->
  Forall (fun chunk => length chunk = n) chunks ->
  (length chunks <= length (concat chunks))%nat.
Proof.
  intros Hn. induction 1 as [|chunk chunks Hc _ IH]; [done|].
  simpl. rewrite length_app. lia.
Qed.

(** Within six bytes the doubles of [reduce] hold every partial sum. *)
Lemma reduceBytes_rounded_fold (bytes : list Z) : forall acc i,
  0 <= i -> 0 <= acc < 256 ^ i -> Forall isByte bytes ->
  256 ^ (i + Z.of_nat (length bytes)) <= 2 ^ 53 ->
  fold_left (fun acc byte => (Double.round (fst acc + byte * 256 ^ snd acc), snd acc + 1))
            bytes (acc, i)
  = fold_left (fun acc byte => (fst acc + byte * 256 ^ snd acc, snd acc + 1))
              bytes (acc, i).
Proof.
  induction bytes as [|b bytes IH]; intros acc i Hi Hacc Hbytes Hfit; [done|].
  apply Forall_cons in Hbytes as [Hb Hbytes]. unfold isByte in Hb.
  cbn [fold_left fst snd length] in *.
  assert (Hnext : 0 <= acc + b * 256 ^ i < 256 ^ (i + 1)).
  { rewrite Z.pow_add_r by lia. change (256 ^ 1) with 256. nia. }
  assert (Hmono : 256 ^ (i + 1) <= 256 ^ (i + Z.of_nat (S (length bytes)))).
  { apply Z.pow_le_mono_r; lia. }
  rewrite round_exact by lia.
  apply IH; [lia | done | done |].
  by replace (i + 1 + Z.of_nat (length bytes)) with (i + Z.of_nat (S (length bytes))) by lia.
Qed.

Lemma reduceBytes_rounded (chunk : list Byte.byte) :
  Z.of_nat (length chunk) <= 6 ->
  RandomIntDoubles.reduceBytes (map Crypto.byteValue chunk)
  = Crypto.reduceBytes (map Crypto.byteValue chunk).
Proof.
  intros Hlen. unfold RandomIntDoubles.reduceBytes, Crypto.reduceBytes. f_equal.
  apply reduceBytes_rounded_fold; [lia | simpl; lia | |].
  - induction chunk as [|b chunk IH]; constructor; [apply byteValue_bounds | apply IH].
    simpl in Hlen. lia.
  - rewrite length_map, Z.add_0_l. etrans; [apply Z.pow_le_mono_r; [lia | exact Hlen]|].
    by vm_compute.
Qed.

Lemma bytesNeededFor_six (range : Z) :
  1 <= range <= 2 ^ 48 -> Crypto.bytesNeededFor range <= 6.
Proof.
  intros Hr. unfold Crypto.bytesNeededFor.
  assert (Z.log2_up range <= 48) by (apply Z.log2_up_le_pow2; lia).
  pose proof (Z.log2_up_nonneg range).
  destruct (Z.eqb_spec ((Z.log2_up range + 7) / 8) 0); Z.div_mod_to_equations; lia.
Qed.

(** Within six bytes and safe bounds the doubles of [randomInt] are the
    exact numbers. *)
Lemma randomInt_doubles_exact (min max : Z) :
  min <= max -> max - min + 1 <= 2 ^ 48 -> - 2 ^ 53 <= min -> max <= 2 ^ 53 ->
  let range := max - min + 1 in
  let bytesNeeded := Crypto.bytesNeededFor range in
  bytesNeeded <= 6
  /\ RandomIntDoubles.rangeOf min max = range
  /\ RandomIntDoubles.maxValidFor bytesNeeded range = Crypto.maxValidFor bytesNeeded range
  /\ (forall v, 0 <= v -> RandomIntDoubles.result min range v = min + v mod range).
Proof.
  intros Hle Hrange Hmin Hmax range bytesNeeded.
  assert (1 <= range <= 2 ^ 48) as Hr by (unfold range; lia).
  pose proof (bytesNeededFor_six range Hr) as Hsix. fold bytesNeeded in Hsix.
  destruct (bytesNeededFor_spec range ltac:(lia)) as [Hb Hfit]. fold bytesNeeded in Hb, Hfit.
  assert (Hpow : 256 ^ bytesNeeded <= 2 ^ 48).
  { change (2 ^ 48) with (256 ^ 6). apply Z.pow_le_mono_r; lia. }
  change (2 ^ 48) with 281474976710656 in *. change (2 ^ 53) with 9007199254740992 in *.
  split_and!.
  - done.
  - unfold RandomIntDoubles.rangeOf.
    rewrite (round_exact (max - min)) by (change (2 ^ 53) with 9007199254740992; lia).
    apply round_exact. change (2 ^ 53) with 9007199254740992. unfold range in *. lia.
  - unfold RandomIntDoubles.maxValidFor, Crypto.maxValidFor.
    rewrite floorOfQuotient_exact
      by (try change (2 ^ 48) with 281474976710656; lia).
    assert (0 <= 256 ^ bytesNeeded / range * range <= 256 ^ bytesNeeded).
    { pose proof (Z.mul_div_le (256 ^ bytesNeeded) range ltac:(lia)).
      assert (0 <= 256 ^ bytesNeeded / range) by (apply Z.div_pos; lia). nia. }
    rewrite (round_exact (_ * _)) by (change (2 ^ 53) with 9007199254740992; lia).
    apply round_exact. change (2 ^ 53) with 9007199254740992. lia.
  - intros v Hv. unfold RandomIntDoubles.result.
    rewrite Z.rem_mod_nonneg by lia.
    apply round_exact. change (2 ^ 53) with 9007199254740992.
    pose proof (Z.mod_pos_bound v range ltac:(lia)). unfold range in *. lia.
Qed.

(** C8, amended.  For safe integers min <= max whose range max - min + 1
    is at most 2^48, [randomInt(min, max)] returns an integer of
    [min, max], by rejection sampling: with bytesNeeded <= 6 bytes per
    draw, a candidate strictly above maxValid = floor(256^bytesNeeded /
    range) * range - 1 is rejected and a new one is drawn, and the first
    candidate that is not above it gives the result min + candidate %
    range.  The result is uniform: the chunks of bytesNeeded bytes denote
    the values below 256^bytesNeeded one to one, more than half of them are
    accepted, and every value of [min, max] is the image of the same
    number, floor(256^bytesNeeded / range), of accepted candidates.  All
    of these numbers are what the doubles of the code hold: within these
    bounds no operation of [randomInt] rounds. *)
Theorem randomInt_uniform (min max : Z) :
  min <= max -> max - min + 1 <= 2 ^ 48 -> - 2 ^ 53 <= min -> max <= 2 ^ 53 ->
  let range := max - min + 1 in
  let bytesNeeded := Crypto.bytesNeededFor range in
  let maxValid := Crypto.maxValidFor bytesNeeded range in
  (forall w x w', Crypto.randomInt min max w = Return x w' -> min <= x <= max)
  /\ (forall rejected accepted rest u,
        Forall (fun chunk => length chunk = Z.to_nat bytesNeeded
                  /\ maxValid < Crypto.reduceBytes (map Crypto.byteValue chunk)) rejected ->
        length accepted = Z.to_nat bytesNeeded ->
        Crypto.reduceBytes (map Crypto.byteValue accepted) <= maxValid ->
        Crypto.randomInt min max (mkWorld (concat rejected ++ accepted ++ rest) u)
        = Return (min + Crypto.reduceBytes (map Crypto.byteValue accepted) mod range)
            (mkWorld rest u))
  /\ (1 <= bytesNeeded <= 6
      /\ maxValid = 256 ^ bytesNeeded / range * range - 1
      /\ range - 1 <= maxValid < 256 ^ bytesNeeded
      /\ 256 ^ bytesNeeded < 2 * (maxValid + 1))
  /\ (forall chunk, length chunk = Z.to_nat bytesNeeded ->
        0 <= Crypto.reduceBytes (map Crypto.byteValue chunk) < 256 ^ bytesNeeded)
  /\ (forall chunk1 chunk2, length chunk1 = length chunk2 ->
        Crypto.reduceBytes (map Crypto.byteValue chunk1)
        = Crypto.reduceBytes (map Crypto.byteValue chunk2) ->
        chunk1 = chunk2)
  /\ (forall x, min <= x <= max ->
        Z.of_nat (length (acceptedFor min max x)) = 256 ^ bytesNeeded / range)
  /\ (RandomIntDoubles.rangeOf min max = range
      /\ RandomIntDoubles.maxValidFor bytesNeeded range = maxValid
      /\ (forall chunk, length chunk = Z.to_nat bytesNeeded ->
            RandomIntDoubles.reduceBytes (map Crypto.byteValue chunk)
            = Crypto.reduceBytes (map Crypto.byteValue chunk)
            /\ RandomIntDoubles.result min range
                 (Crypto.reduceBytes (map Crypto.byteValue chunk))
               = min + Crypto.reduceBytes (map Crypto.byteValue chunk) mod range)
      /\ (forall x, acceptedAsComputed min max x = acceptedFor min max x)).
Proof.
  intros Hle Hrange Hmin Hmax range bytesNeeded maxValid.
  assert (1 <= range) as Hr by (unfold range; lia).
  destruct (bytesNeededFor_spec range Hr) as [Hb Hfit]. fold bytesNeeded in Hb, Hfit.
  destruct (maxValidFor_spec range Hr) as (Hq & Hmv & Hmul & Hhalf).
  fold bytesNeeded in Hq, Hmv, Hmul, Hhalf. fold maxValid in Hmv.
  destruct (randomInt_doubles_exact min max Hle Hrange Hmin Hmax)
    as (Hsix & Hrg & Hmvd & Hres).
  fold range in Hsix, Hrg, Hmvd, Hres. fold bytesNeeded in Hsix, Hmvd.
  fold maxValid in Hmvd.
  split_and!.
  - intros w x w'. by apply randomInt_bounds.
  - intros rejected accepted rest u Hrej Hlen Hacc.
    rewrite reduceBytes_littleEndian in *.
    assert (Forall (fun chunk => length chunk = Z.to_nat bytesNeeded
                      /\ maxValid < littleEndian (map Crypto.byteValue chunk)) rejected) as Hrej'.
    { eapply Forall_impl; [exact Hrej|]. intros c [? ?].
      by rewrite reduceBytes_littleEndian in *. }
    unfold Crypto.randomInt. fold range.
    destruct (Z.eqb_spec range 0); [lia|]. fold bytesNeeded. fold maxValid.
    unfold bind.
    rewrite (sample_first_accepted bytesNeeded maxValid accepted rest u rejected); try done.
    + unfold ret. f_equal. f_equal. apply Z.rem_mod_nonneg; [|lia].
      pose proof (littleEndian_bounds accepted). lia.
    + cbn [entropy]. rewrite !length_app.
      pose proof (length_concat_chunks (Z.to_nat bytesNeeded) rejected) as Hc.
      assert (length rejected <= length (concat rejected))%nat; [|lia].
      apply Hc; [lia|]. eapply Forall_impl; [exact Hrej|]. by intros c [? ?].
  - done.
  - done.
  - reflexivity.
  - rewrite Hmv. nia.
  - rewrite Hmv. nia.
  - rewrite Hmv. nia.
  - intros chunk Hlen. rewrite reduceBytes_littleEndian.
    pose proof (littleEndian_bounds chunk) as Hbd. rewrite Hlen in Hbd.
    by rewrite Z2Nat.id in Hbd by lia.
  - intros c1 c2 Hlen. rewrite !reduceBytes_littleEndian. by apply littleEndian_inj.
  - intros x Hx. by apply acceptedFor_count.
  - exact Hrg.
  - exact Hmvd.
  - intros chunk Hlen. split; [apply reduceBytes_rounded; lia|].
    apply Hres. rewrite reduceBytes_littleEndian.
    pose proof (littleEndian_bounds chunk). lia.
  - intros x. unfold acceptedAsComputed, acceptedFor.
    rewrite Hrg. fold range. fold bytesNeeded. fold maxValid. rewrite Hmvd.
    apply filter_agree. intros v Hv. apply elem_of_seqZ in Hv.
    rewrite Hres by lia. by rewrite Z.rem_mod_nonneg by lia.
Qed.

Lemma randomInt_uniform_witness :
  Crypto.randomInt 0 299
    (mkWorld [Byte.xff; Byte.xff; Byte.x03; Byte.x04; Byte.x2a] [])
  = Return 127 (mkWorld [Byte.x2a] [])
  /\ Z.of_nat (length (acceptedFor 0 299 127)) = 218
  /\ acceptedAsComputed 0 299 127 = acceptedFor 0 299 127.
Proof.
  destruct (randomInt_uniform 0 299) as (_ & Hdraw & _ & _ & _ & Hcount & _ & _ & _ & Hsame);
    [lia | by vm_compute | by vm_compute | by vm_compute |].
  split_and!.
  - apply (Hdraw [[Byte.xff; Byte.xff]] [Byte.x03; Byte.x04] [Byte.x2a] []).
    + repeat constructor.
    + reflexivity.
    + vm_compute. discriminate.
  - apply (Hcount 127). lia.
  - apply (Hsame 127).
Defined.

(** The claim of C8 fails where the doubles of the code round.  For the
    range 2^48 + 1 the code draws seven bytes: the candidate of the bytes
    01 00 00 00 00 00 80, 2^55 + 1, is computed as 2^55, like that of
    00 00 00 00 00 00 80, and [randomInt(0, 2^48)] returns 281474976710529
    where exact arithmetic gives 281474976710530.  For the bounds 2^53 and
    2^53 + 2 one byte is drawn, and of the 255 accepted candidates 170 give
    2^53, 85 give 2^53 + 2 and none gives 2^53 + 1. *)
Lemma randomInt_rounds_beyond_six_bytes :
  let chunk := [Byte.x01; Byte.x00; Byte.x00; Byte.x00; Byte.x00; Byte.x00; Byte.x80] in
  let other := [Byte.x00; Byte.x00; Byte.x00; Byte.x00; Byte.x00; Byte.x00; Byte.x80] in
  let range := RandomIntDoubles.rangeOf 0 (2 ^ 48) in
  (range = 2 ^ 48 + 1
   /\ Crypto.bytesNeededFor range = 7
   /\ Crypto.reduceBytes (map Crypto.byteValue chunk) = 2 ^ 55 + 1
   /\ RandomIntDoubles.reduceBytes (map Crypto.byteValue chunk) = 2 ^ 55
   /\ RandomIntDoubles.reduceBytes (map Crypto.byteValue other) = 2 ^ 55
   /\ 2 ^ 55 <= RandomIntDoubles.maxValidFor 7 range
   /\ RandomIntDoubles.result 0 range (2 ^ 55) = 281474976710529
   /\ 0 + (2 ^ 55 + 1) mod range = 281474976710530)
  /\ (Crypto.bytesNeededFor (RandomIntDoubles.rangeOf (2 ^ 53) (2 ^ 53 + 2)) = 1
      /\ length (acceptedAsComputed (2 ^ 53) (2 ^ 53 + 2) (2 ^ 53)) = 170%nat
      /\ length (acceptedAsComputed (2 ^ 53) (2 ^ 53 + 2) (2 ^ 53 + 1)) = 0%nat
      /\ length (acceptedAsComputed (2 ^ 53) (2 ^ 53 + 2) (2 ^ 53 + 2)) = 85%nat).
Proof. by vm_compute. Qed.

(** ** UTF-8 *)

(** Turns a boolean test that was decided into the fact it states. *)
Ltac bool_to_prop H :=
  repeat first
    [ rewrite andb_true_iff in H | rewrite andb_false_iff in H
    | rewrite orb_true_iff in H | rewrite orb_false_iff in H
    | rewrite negb_true_iff in H | rewrite negb_false_iff in H
    | rewrite Z.leb_le in H | rewrite Z.leb_gt in H
    | rewrite Z.ltb_lt in H | rewrite Z.ltb_ge in H
    | rewrite Z.eqb_eq in H | rewrite Z.eqb_neq in H ].

(** Arithmetic with divisions by constants. *)
Ltac arith := Z.div_mod_to_equations; lia.

(** Decides the outermost test of the goal by linear arithmetic. *)
Ltac decide_test :=
  match goal with
  | |- (if ?b then _ else _) = _ =>
      let H := fresh "Htest" in
      destruct b eqn:H; bool_to_prop H; [try (exfalso; lia) | try (exfalso; lia)]
  end.

Lemma toUtf8_one (c : Z) (r : list Z) :
  0 <= c < 0x80 -> Buffer.toUtf8 (c :: r) = c :: Buffer.toUtf8 r.
Proof.
  intros Hc. cbn [Buffer.toUtf8]. by decide_test.
Qed.

Lemma toUtf8_two_bytes (b0 b1 : Z) (r : list Z) :
  0xC2 <= b0 <= 0xDF -> 0x80 <= b1 <= 0xBF ->
  Buffer.toUtf8 (b0 :: b1 :: r) = ((b0 - 0xC0) * 64 + (b1 - 0x80)) :: Buffer.toUtf8 r.
Proof.
  intros H0 H1. cbn [Buffer.toUtf8]. unfold Buffer.inRange. by repeat decide_test.
Qed.

Lemma toUtf8_three_bytes (b0 b1 b2 : Z) (r : list Z) :
  0xE0 <= b0 <= 0xEF -> 0x80 <= b1 <= 0xBF ->
  (b0 = 0xE0 -> 0xA0 <= b1) -> (b0 = 0xED -> b1 <= 0x9F) ->
  0x80 <= b2 <= 0xBF ->
  Buffer.toUtf8 (b0 :: b1 :: b2 :: r)
  = ((b0 - 0xE0) * 4096 + (b1 - 0x80) * 64 + (b2 - 0x80)) :: Buffer.toUtf8 r.
Proof.
  intros H0 H1 H1a H1b H2. cbn [Buffer.toUtf8]. unfold Buffer.inRange.
  destruct (Z.eqb_spec b0 0xE0), (Z.eqb_spec b0 0xED); try lia;
    by repeat decide_test.
Qed.

Lemma toUtf8_four_bytes (b0 b1 b2 b3 : Z) (r : list Z) :
  0xF0 <= b0 <= 0xF4 -> 0x80 <= b1 <= 0xBF ->
  (b0 = 0xF0 -> 0x90 <= b1) -> (b0 = 0xF4 -> b1 <= 0x8F) ->
  0x80 <= b2 <= 0xBF -> 0x80 <= b3 <= 0xBF ->
  Buffer.toUtf8 (b0 :: b1 :: b2 :: b3 :: r)
  = Buffer.unitsOf ((b0 - 0xF0) * 262144 + (b1 - 0x80) * 4096 + (b2 - 0x80) * 64 + (b3 - 0x80))
      ++ Buffer.toUtf8 r.
Proof.
  intros H0 H1 H1a H1b H2 H3. cbn [Buffer.toUtf8]. unfold Buffer.inRange.
  destruct (Z.eqb_spec b0 0xF0), (Z.eqb_spec b0 0xF4); try lia;
    by repeat decide_test.
Qed.

Lemma toUtf8_two (c : Z) (r : list Z) :
  0x80 <= c < 0x800 ->
  Buffer.toUtf8 ((0xC0 + c / 64) :: (0x80 + c mod 64) :: r) = c :: Buffer.toUtf8 r.
Proof.
  intros Hc. rewrite toUtf8_two_bytes by arith. f_equal. arith.
Qed.

Lemma toUtf8_three (c : Z) (r : list Z) :
  0x800 <= c < 0x10000 -> ~ 0xD800 <= c <= 0xDFFF ->
  Buffer.toUtf8 ((0xE0 + c / 4096) :: (0x80 + (c / 64) mod 64) :: (0x80 + c mod 64) :: r)
  = c :: Buffer.toUtf8 r.
Proof.
  intros Hc Hs. rewrite toUtf8_three_bytes by arith. f_equal. arith.
Qed.

Lemma toUtf8_four (hi lo : Z) (r : list Z) :
  0xD800 <= hi <= 0xDBFF -> 0xDC00 <= lo <= 0xDFFF ->
  let cp := 0x10000 + (hi - 0xD800) * 0x400 + (lo - 0xDC00) in
  Buffer.toUtf8 ((0xF0 + cp / 262144) :: (0x80 + (cp / 4096) mod 64)
                   :: (0x80 + (cp / 64) mod 64) :: (0x80 + cp mod 64) :: r)
  = hi :: lo :: Buffer.toUtf8 r.
Proof.
  intros Hhi Hlo cp.
  assert (0x10000 <= cp < 0x110000) as Hcp by (unfold cp; lia).
  rewrite toUtf8_four_bytes by arith.
  replace ((0xF0 + cp / 262144 - 0xF0) * 262144 + (0x80 + (cp / 4096) mod 64 - 0x80) * 4096
           + (0x80 + (cp / 64) mod 64 - 0x80) * 64 + (0x80 + cp mod 64 - 0x80))
    with cp by arith.
  unfold Buffer.unitsOf. destruct (Z.ltb_spec cp 0x10000); [lia|].
  simpl. unfold cp. f_equal; [|f_equal]; arith.
Qed.

(** The bytes of a well-formed string are bytes, and decode to it. *)
Lemma utf8_roundtrip_upto (n : nat) : forall s,
  (length s <= n)%nat -> wellFormed s = true ->
  Buffer.toUtf8 (Buffer.fromUtf8 s) = s /\ Forall isByte (Buffer.fromUtf8 s).
Proof.
  induction n as [|n IH]; intros [|c rest] Hlen Hwf; try done; try (simpl in Hlen; lia).
  cbn [wellFormed] in Hwf. cbn [Buffer.fromUtf8].
  unfold Buffer.isHighSurrogate, Buffer.isLowSurrogate in *.
  destruct ((0xD800 <=? c) && (c <=? 0xDBFF)) eqn:Hhi; bool_to_prop Hhi.
  - destruct rest as [|d rest']; [done|].
    apply andb_true_iff in Hwf as [Hlo Hwf]. rewrite Hlo. bool_to_prop Hlo.
    destruct (Z.ltb_spec c 0x80); [lia|]. destruct (Z.ltb_spec c 0x800); [lia|].
    destruct (IH rest') as [IH1 IH2]; [simpl in Hlen; lia | done |].
    split.
    + rewrite toUtf8_four by lia. by rewrite IH1.
    + repeat (apply Forall_cons; split; [unfold isByte; arith|]). exact IH2.
  - repeat (apply andb_true_iff in Hwf as [Hwf ?]).
    match goal with H : negb _ = true |- _ => rename H into Hlo end.
    bool_to_prop Hwf. bool_to_prop Hlo.
    destruct (IH rest) as [IH1 IH2]; [simpl in Hlen; lia | done |].
    assert (0 <= c < 0x10000) as Hc by lia.
    destruct (Z.ltb_spec c 0x80); [|destruct (Z.ltb_spec c 0x800)].
    + split; [rewrite toUtf8_one by lia; by rewrite IH1|].
      apply Forall_cons; split; [unfold isByte; lia | exact IH2].
    + split; [rewrite toUtf8_two by lia; by rewrite IH1|].
      repeat (apply Forall_cons; split; [unfold isByte; arith|]). exact IH2.
    + destruct ((0xDC00 <=? c) && (c <=? 0xDFFF)) eqn:Hlow; bool_to_prop Hlow; [lia|].
      split; [rewrite toUtf8_three by lia; by rewrite IH1|].
      repeat (apply Forall_cons; split; [unfold isByte; arith|]). exact IH2.
Qed.

Lemma utf8_roundtrip (s : jsstring) :
  wellFormed s = true -> Buffer.toUtf8 (Buffer.fromUtf8 s) = s.
Proof. intros Hwf. by apply (utf8_roundtrip_upto (length s)). Qed.

Lemma fromUtf8_bytes (s : jsstring) :
  wellFormed s = true -> Forall isByte (Buffer.fromUtf8 s).
Proof. intros Hwf. by apply (utf8_roundtrip_upto (length s)). Qed.

(** On well-formed strings the UTF-8 encoding is injective. *)
Lemma fromUtf8_inj (a b : jsstring) :
  wellFormed a = true -> wellFormed b = true ->
  Buffer.fromUtf8 a = Buffer.fromUtf8 b -> a = b.
Proof.
  intros Ha Hb Heq. rewrite <- (utf8_roundtrip a Ha), <- (utf8_roundtrip b Hb).
  by rewrite Heq.
Qed.

(** ** Hexadecimal and base64 *)

Lemma unhex_hexDigit (n : Z) : 0 <= n < 16 -> Buffer.unhex (Buffer.hexDigit n) = Some n.
Proof.
  intros Hn. unfold Buffer.unhex, Buffer.hexDigit, Buffer.inRange.
  destruct (Z.ltb_spec n 10).
  - repeat decide_test. f_equal. lia.
  - repeat decide_test. f_equal. lia.
Qed.

(** The digits the encoders write are their own low byte. *)
Lemma hexDigit_low_byte (n : Z) :
  0 <= n < 16 -> Buffer.hexDigit n mod 256 = Buffer.hexDigit n.
Proof.
  intros Hn. apply Z.mod_small. unfold Buffer.hexDigit. destruct (Z.ltb_spec n 10); lia.
Qed.

Lemma base64Char_low_byte (n : Z) :
  0 <= n < 64 -> Buffer.base64Char n mod 256 = Buffer.base64Char n.
Proof.
  intros Hn. apply Z.mod_small. unfold Buffer.base64Char.
  repeat match goal with |- context [?a <? ?b] => destruct (Z.ltb_spec a b) end;
    destruct (Z.eqb_spec n 62); lia.
Qed.

Lemma hex_roundtrip (bs : list Z) :
  Forall isByte bs -> Buffer.fromHex (Buffer.toHex bs) = bs.
Proof.
  induction 1 as [|b bs Hb _ IH]; [done|].
  unfold isByte in Hb. unfold Buffer.toHex in *. cbn [flat_map app Buffer.fromHex].
  rewrite !hexDigit_low_byte, !unhex_hexDigit by arith. rewrite IH. f_equal. arith.
Qed.

Lemma unbase64_base64Char (n : Z) :
  0 <= n < 64 ->
  Buffer.unbase64 (Buffer.base64Char n) = Some n /\ Buffer.base64Char n <> 61.
Proof.
  intros Hn. unfold Buffer.unbase64, Buffer.base64Char, Buffer.inRange.
  destruct (Z.ltb_spec n 26); [|destruct (Z.ltb_spec n 52); [|destruct (Z.ltb_spec n 62);
    [|destruct (Z.eqb_spec n 62)]]].
  - split; [|lia]. repeat decide_test. f_equal. lia.
  - split; [|lia]. repeat decide_test. f_equal. lia.
  - split; [|lia]. repeat decide_test. f_equal. lia.
  - subst n. done.
  - assert (n = 63) as -> by lia. done.
Qed.

Lemma sextets_base64Char (n : Z) (rest : jsstring) :
  0 <= n < 64 ->
  Buffer.sextets (Buffer.base64Char n :: rest) = n :: Buffer.sextets rest.
Proof.
  intros Hn. destruct (unbase64_base64Char n Hn) as [Hv Hne].
  cbn [Buffer.sextets]. rewrite base64Char_low_byte, Hv by done.
  by destruct (Z.eqb_spec (Buffer.base64Char n) 61).
Qed.

Lemma base64_roundtrip_upto (n : nat) : forall bs,
  (length bs <= n)%nat -> Forall isByte bs ->
  Buffer.fromBase64 (Buffer.toBase64 bs) = bs.
Proof.
  unfold Buffer.fromBase64.
  induction n as [|n IH]; intros bs Hlen Hbs.
  { destruct bs; [done | simpl in Hlen; lia]. }
  destruct bs as [|b0 [|b1 [|b2 rest]]]; [done | | |];
    repeat match goal with
           | H : Forall isByte (_ :: _) |- _ =>
               let Hb := fresh "Hb" in
               apply Forall_cons in H as [Hb H]; unfold isByte in Hb
           end;
    cbn [Buffer.toBase64]; rewrite !sextets_base64Char by arith.
  - cbn [Buffer.sextets]. change (61 mod 256 =? 61) with true.
    cbn [Buffer.packSextets]. f_equal. arith.
  - cbn [Buffer.sextets]. change (61 mod 256 =? 61) with true.
    cbn [Buffer.packSextets]. f_equal; [|f_equal]; arith.
  - cbn [Buffer.packSextets]. rewrite IH by (done || simpl in Hlen; lia).
    f_equal; [|f_equal; [|f_equal]]; arith.
Qed.

Lemma base64_roundtrip (bs : list Z) :
  Forall isByte bs -> Buffer.fromBase64 (Buffer.toBase64 bs) = bs.
Proof. intros Hbs. by apply (base64_roundtrip_upto (length bs)). Qed.

(** ** ROT13 *)

Lemma rot13_unit_involutive (c : Z) :
  let rot c := if Encoding.isLetter c then Encoding.rot13Letter c else c in
  rot (rot c) = c.
Proof.
  cbv zeta. unfold Encoding.isLetter, Encoding.rot13Letter, Buffer.inRange.
  destruct ((97 <=? c) && (c <=? 122) || (65 <=? c) && (c <=? 90)) eqn:Hl;
    bool_to_prop Hl; [|by rewrite (proj2 (orb_false_iff _ _))
                          by (split; apply andb_false_iff; lia)].
  destruct (Z.leb_spec c 90).
  - assert (65 <= c <= 90) as Hc by lia.
    rewrite (Z.rem_mod_nonneg (c - 65 + 13)) by lia.
    set (d := (c - 65 + 13) mod 26 + 65).
    assert (65 <= d <= 90) as Hd by (unfold d; arith).
    replace ((97 <=? d) && (d <=? 122) || (65 <=? d) && (d <=? 90)) with true
      by (symmetry; apply orb_true_iff; right; apply andb_true_iff; lia).
    destruct (Z.leb_spec d 90); [|lia].
    rewrite Z.rem_mod_nonneg by lia. unfold d. arith.
  - assert (97 <= c <= 122) as Hc by lia.
    rewrite (Z.rem_mod_nonneg (c - 97 + 13)) by lia.
    set (d := (c - 97 + 13) mod 26 + 97).
    assert (97 <= d <= 122) as Hd by (unfold d; arith).
    replace ((97 <=? d) && (d <=? 122) || (65 <=? d) && (d <=? 90)) with true
      by (symmetry; apply orb_true_iff; left; apply andb_true_iff; lia).
    destruct (Z.leb_spec d 90); [lia|].
    rewrite Z.rem_mod_nonneg by lia. unfold d. arith.
Qed.

Lemma rot13_involutive (s : jsstring) : Encoding.encodeRot13 (Encoding.encodeRot13 s) = s.
Proof.
  unfold Encoding.encodeRot13. rewrite map_map.
  induction s as [|c s IH]; [done|]. cbn [map]. rewrite IH. f_equal.
  apply rot13_unit_involutive.
Qed.

(** ** Encoding and decoding *)

(** The claim of C4 fails for a string that is one unpaired surrogate: its
    UTF-8 bytes are those of U+FFFD, which is what decoding returns. *)
Lemma roundtrip_fails_on_unpaired_surrogate : ~ roundTrips [0xD800] (js "hex").
Proof.
  intros (encoded & Henc & Hdec). vm_compute in Henc. injection Henc as <-.
  vm_compute in Hdec. discriminate Hdec.
Qed.

(** C4, amended.  For every kind k of {plain, base64, hex, rot13} and
    every string s that is well formed (no unpaired surrogate),
    decode(encode(s, k), k) == s; for plain and rot13 this holds for every
    string.  For rot13, encode and decode are the same function. *)
Theorem encode_decode_roundtrip (s k : jsstring) :
  k ∈ kinds ->
  wellFormed s = true \/ k = js "plain" \/ k = js "rot13" ->
  roundTrips s k
  /\ (forall v, Encoding.encode v (js "rot13") = Encoding.decode v (js "rot13")).
Proof.
  intros Hk Hs. split; [|reflexivity].
  unfold kinds in Hk. rewrite !elem_of_cons, elem_of_nil in Hk.
  destruct Hk as [-> | [-> | [-> | [-> | []]]]].
  - by exists s.
  - destruct Hs as [Hwf | [Hk | Hk]]; [|discriminate Hk..].
    exists (Encoding.encodeBase64 s). split; [reflexivity|].
    change (Ok (Encoding.decodeBase64 (Encoding.encodeBase64 s)) = Ok s).
    unfold Encoding.decodeBase64, Encoding.encodeBase64.
    by rewrite base64_roundtrip, utf8_roundtrip by (done || by apply fromUtf8_bytes).
  - destruct Hs as [Hwf | [Hk | Hk]]; [|discriminate Hk..].
    exists (Encoding.encodeHex s). split; [reflexivity|].
    change (Ok (Encoding.decodeHex (Encoding.encodeHex s)) = Ok s).
    unfold Encoding.decodeHex, Encoding.encodeHex.
    by rewrite hex_roundtrip, utf8_roundtrip by (done || by apply fromUtf8_bytes).
  - exists (Encoding.encodeRot13 s). split; [reflexivity|].
    change (Ok (Encoding.decodeRot13 (Encoding.encodeRot13 s)) = Ok s).
    unfold Encoding.decodeRot13. by rewrite rot13_involutive.
Qed.

Lemma encode_decode_roundtrip_witness :
  roundTrips [0x48; 0xE9; 0x20AC; 0xD83D; 0xDE00] (js "base64").
Proof.
  apply (encode_decode_roundtrip [0x48; 0xE9; 0x20AC; 0xD83D; 0xDE00] (js "base64")).
  - unfold kinds. rewrite !elem_of_cons. right. left. reflexivity.
  - left. reflexivity.
Defined.

(** The claim of C5 fails on its own example: characters that are not
    hexadecimal digits are decoded, under hex, to the empty string. *)
Lemma decode_hex_malformed_returns :
  Encoding.decode (js "zz") (js "hex") = Ok []
  /\ ~ exists message, Encoding.decode (js "zz") (js "hex") = Thrown message.
Proof.
  split; [reflexivity|]. intros [message H]. discriminate H.
Qed.

(** Strings two units at a time. *)
Lemma pairs_ind (P : jsstring -> Prop) :
  P [] -> (forall a, P [a]) -> (forall a b rest, P rest -> P (a :: b :: rest)) ->
  forall s, P s.
Proof.
  intros Hnil Hone Hpair s.
  assert (P s /\ forall a, P (a :: s)) as [H _]; [|exact H].
  induction s as [|b s [IH1 IH2]]; [by split|].
  split; [apply IH2|]. intros a. by apply Hpair.
Qed.

Lemma isHexUnit_Some (c : Z) :
  isHexUnit c = true -> exists x, Buffer.unhex (c mod 256) = Some x.
Proof. unfold isHexUnit, lowByte. destruct (Buffer.unhex _) as [x|]; [by exists x | done]. Qed.

Lemma isHexUnit_hexDigit (n : Z) : 0 <= n < 16 -> isHexUnit (Buffer.hexDigit n) = true.
Proof.
  intros Hn. unfold isHexUnit, lowByte. by rewrite hexDigit_low_byte, unhex_hexDigit.
Qed.

Lemma hexPairs_toHex (bs : list Z) : Forall isByte bs -> hexPairs (Buffer.toHex bs) = true.
Proof.
  induction 1 as [|b bs Hb _ IH]; [done|].
  unfold isByte in Hb. unfold Buffer.toHex in *. cbn [flat_map app hexPairs].
  rewrite !isHexUnit_hexDigit by arith. by rewrite IH.
Qed.

(** Hex decoding reads the pairs of digits and nothing of what follows
    them. *)
Lemma fromHex_stops (p t : jsstring) :
  hexPairs p = true -> stopsHex t = true ->
  Buffer.fromHex (p ++ t) = Buffer.fromHex p
  /\ length p = (2 * length (Buffer.fromHex p))%nat.
Proof.
  intros Hp Ht. revert Hp. induction p as [| a | a b rest IH] using pairs_ind; intros Hp.
  - split; [|done]. cbn [app Buffer.fromHex].
    destruct t as [|a [|b r]]; [done | done |].
    cbn [stopsHex] in Ht. cbn [Buffer.fromHex]. unfold isHexUnit, lowByte in Ht.
    destruct (Buffer.unhex (a mod 256)); [|done].
    by destruct (Buffer.unhex (b mod 256)).
  - done.
  - cbn [hexPairs] in Hp. bool_to_prop Hp. destruct Hp as [[Ha Hb] Hrest].
    apply isHexUnit_Some in Ha as [x Hx]. apply isHexUnit_Some in Hb as [y Hy].
    destruct (IH Hrest) as [IHa IHl].
    cbn [app Buffer.fromHex length]. rewrite Hx, Hy, IHa. split; [done|].
    cbn [length]. lia.
Qed.

(** Every string is a run of pairs of digits followed by a place where
    the decoder stops. *)
Lemma hex_decomposition (s : jsstring) :
  exists p t, s = p ++ t /\ hexPairs p = true /\ stopsHex t = true.
Proof.
  induction s as [| a | a b rest (p & t & -> & Hp & Ht)] using pairs_ind.
  - by exists [], [].
  - by exists [], [a].
  - destruct (isHexUnit a && isHexUnit b) eqn:Hab.
    + exists (a :: b :: p), t. split_and!; [done | | done].
      cbn [hexPairs]. by rewrite Hab, Hp.
    + exists [], (a :: b :: p ++ t). split_and!; [done | done |].
      cbn [stopsHex]. by rewrite Hab.
Qed.

Lemma fromHex_lowByte (s : jsstring) :
  Buffer.fromHex (map lowByte s) = Buffer.fromHex s.
Proof.
  induction s as [| a | a b rest IH] using pairs_ind; [done | done |].
  cbn [map Buffer.fromHex]. unfold lowByte at 1 2. rewrite !Z.mod_mod by lia.
  by rewrite IH.
Qed.

Lemma sextets_lowByte (s : jsstring) :
  Buffer.sextets (map lowByte s) = Buffer.sextets s.
Proof.
  induction s as [|c s IH]; [done|].
  cbn [map Buffer.sextets]. unfold lowByte at 1 2. rewrite !Z.mod_mod by lia.
  by rewrite IH.
Qed.

Lemma sextets_skip (a b : jsstring) (c : Z) :
  Buffer.unbase64 (lowByte c) = None -> lowByte c <> 61 ->
  Buffer.sextets (a ++ c :: b) = Buffer.sextets (a ++ b).
Proof.
  unfold lowByte. intros Hc Hne. induction a as [|x a IH].
  - cbn [app Buffer.sextets]. rewrite Hc. by destruct (Z.eqb_spec (c mod 256) 61).
  - cbn [app Buffer.sextets]. by rewrite IH.
Qed.

Lemma sextets_stop (a b : jsstring) (c : Z) :
  lowByte c = 61 -> Buffer.sextets (a ++ c :: b) = Buffer.sextets a.
Proof.
  unfold lowByte. intros Hc. induction a as [|x a IH].
  - cbn [app Buffer.sextets]. by rewrite Hc.
  - cbn [app Buffer.sextets]. by rewrite IH.
Qed.

(** C5, amended.  [decode] never fails for a kind of {plain, base64, hex,
    rot13}: it returns a string for every input, malformed or not.  Under
    hex the decoder reads the low byte of each code unit, two units at a
    time, and stops, without an error, at the first pair that is not two
    hexadecimal digits and at a single last unit: the pairs before that
    place are decoded, a byte each, and the rest is dropped, so that an
    encoding followed by such a rest decodes to what was encoded.  Under
    base64 the decoder reads the low byte of each code unit, skips what is
    outside the alphabet and stops at the first [=].  For any other kind
    [decode] fails with the error "Unknown encoding type: <kind>". *)
Theorem decode_total_on_known_kinds (value k : jsstring) :
  (k ∈ kinds -> exists decoded, Encoding.decode value k = Ok decoded)
  /\ (k ∉ kinds ->
      Encoding.decode value k = Thrown (js "Unknown encoding type: " ++ k))
  /\ (Encoding.decode value (js "hex") = Encoding.decode (map lowByte value) (js "hex")
      /\ exists p t, value = p ++ t /\ hexPairs p = true /\ stopsHex t = true)
  /\ (forall p t, hexPairs p = true -> stopsHex t = true ->
        Encoding.decode (p ++ t) (js "hex") = Encoding.decode p (js "hex")
        /\ length p = (2 * length (Buffer.fromHex (p ++ t)))%nat)
  /\ (forall s t, wellFormed s = true -> stopsHex t = true ->
        Encoding.decode (Encoding.encodeHex s ++ t) (js "hex") = Ok s)
  /\ Encoding.decode value (js "base64")
     = Encoding.decode (map lowByte value) (js "base64")
  /\ (forall a c b, Buffer.unbase64 (lowByte c) = None -> lowByte c <> 61 ->
        Encoding.decode (a ++ c :: b) (js "base64")
        = Encoding.decode (a ++ b) (js "base64"))
  /\ (forall a c b, lowByte c = 61 ->
        Encoding.decode (a ++ c :: b) (js "base64") = Encoding.decode a (js "base64")).
Proof.
  assert (Hhex : forall v, Encoding.decode v (js "hex")
                           = Ok (Buffer.toUtf8 (Buffer.fromHex v))) by reflexivity.
  assert (Hb64 : forall v, Encoding.decode v (js "base64")
                           = Ok (Buffer.toUtf8 (Buffer.packSextets (Buffer.sextets v))))
    by reflexivity.
  split_and!.
  - unfold kinds. rewrite !elem_of_cons, elem_of_nil.
    intros [-> | [-> | [-> | [-> | []]]]]; eexists; reflexivity.
  - unfold kinds. rewrite !elem_of_cons, elem_of_nil. intros Hk.
    unfold Encoding.decode, named.
    repeat (rewrite bool_decide_eq_false_2 by (intros ->; apply Hk; auto)).
    reflexivity.
  - by rewrite !Hhex, fromHex_lowByte.
  - apply hex_decomposition.
  - intros p t Hp Ht. destruct (fromHex_stops p t Hp Ht) as [Hsame Hlen].
    rewrite !Hhex, Hsame. by split.
  - intros s t Hwf Ht. rewrite Hhex. unfold Encoding.encodeHex.
    destruct (fromHex_stops (Buffer.toHex (Buffer.fromUtf8 s)) t) as [-> _];
      [by apply hexPairs_toHex, fromUtf8_bytes | done |].
    by rewrite hex_roundtrip, utf8_roundtrip by (done || by apply fromUtf8_bytes).
  - by rewrite !Hb64, sextets_lowByte.
  - intros a c b Hc Hne. by rewrite !Hb64, sextets_skip.
  - intros a c b Hc. by rewrite !Hb64, sextets_stop.
Qed.

Lemma decode_total_on_known_kinds_witness :
  (exists decoded, Encoding.decode (js "not base64!") (js "base64") = Ok decoded)
  /\ Encoding.decode (js "abc") (js "morse") = Thrown (js "Unknown encoding type: morse")
  /\ Encoding.decode (js "6f6z6b") (js "hex") = Ok (js "o")
  /\ Encoding.decode [0x36; 0x66; 0x136; 0x36] (js "hex") = Ok (js "of")
  /\ Encoding.decode ([0x141] ++ 0x21 :: js "Ak=") (js "base64") = Ok [0; 9]
  /\ Encoding.decode (js "b2s" ++ 0x13D :: js "b2s") (js "base64") = Ok (js "ok").
Proof.
  split_and!.
  - apply (decode_total_on_known_kinds (js "not base64!") (js "base64")).
    unfold kinds. rewrite !elem_of_cons. right. left. reflexivity.
  - apply (decode_total_on_known_kinds (js "abc") (js "morse")).
    unfold kinds. rewrite !elem_of_cons, elem_of_nil.
    intros [H | [H | [H | [H | []]]]]; discriminate H.
  - destruct (decode_total_on_known_kinds [] (js "hex")) as (_ & _ & _ & _ & Hstops & _).
    apply (Hstops (js "o") (js "6z6b")); reflexivity.
  - destruct (decode_total_on_known_kinds [0x36; 0x66; 0x136; 0x36] (js "hex"))
      as (_ & _ & [Hlow _] & _).
    rewrite Hlow. reflexivity.
  - destruct (decode_total_on_known_kinds [] (js "base64"))
      as (_ & _ & _ & _ & _ & _ & Hskip & _).
    rewrite (Hskip [0x141] 0x21 (js "Ak=")); [reflexivity | reflexivity | discriminate].
  - destruct (decode_total_on_known_kinds [] (js "base64"))
      as (_ & _ & _ & _ & _ & _ & _ & Hstop).
    rewrite (Hstop (js "b2s") 0x13D (js "b2s")); reflexivity.
Defined.

(** ** Constant-time comparison, continued *)

(** [timingSafeEqual] throws when the byte lengths differ although the
    string lengths agree; [safeCompare] turns that into [false]. *)
Lemma safeCompare_catches :
  Crypto.timingSafeEqual (Buffer.fromUtf8 [0xE9]) (Buffer.fromUtf8 [0x41])
    = Thrown (js "Input buffers must have the same byte length")
  /\ Crypto.safeCompare [0xE9] [0x41] = false.
Proof. split; reflexivity. Qed.

(** On well-formed strings [safeCompare] is equality. *)
Lemma safeCompare_well_formed (a b : jsstring) :
  wellFormed a = true -> wellFormed b = true ->
  Crypto.safeCompare a b = true <-> a = b.
Proof.
  intros Ha Hb. split; [|intros ->; apply safeCompare_same].
  unfold Crypto.safeCompare, Crypto.timingSafeEqual.
  destruct (bool_decide (length a = length b)); [|done]. simpl.
  destruct (bool_decide (length (Buffer.fromUtf8 a) = length (Buffer.fromUtf8 b))); [|done].
  intros Heq. apply bool_decide_eq_true_1 in Heq. by apply fromUtf8_inj.
Qed.

(** C9.  [safeCompare] never throws, but it does not tell apart two
    strings that differ in an unpaired surrogate: for the distinct strings
    "\uD800" and "\uFFFD" it returns true, both having the UTF-8 bytes
    EF BF BD. *)
Theorem safeCompare_conflates_unpaired_surrogate :
  Crypto.safeCompare [0xD800] [0xFFFD] = true
  /\ [0xD800] <> [0xFFFD]
  /\ Buffer.fromUtf8 [0xD800] = Buffer.fromUtf8 [0xFFFD].
Proof. split_and!; [reflexivity | discriminate | reflexivity]. Qed.

(** ** JSON serialization *)

Lemma json_induction (P : json -> Prop) :
  P JNull -> (forall b, P (JBool b)) -> (forall n, P (JNum n)) -> (forall s, P (JStr s)) ->
  (forall items, Forall P items -> P (JArr items)) ->
  (forall props, Forall (fun kv => P kv.2) props -> P (JObj props)) ->
  forall v, P v.
Proof.
  intros Hnull Hbool Hnum Hstr Harr Hobj. fix IH 1.
  intros [ | b | n | s | items | props].
  - exact Hnull.
  - apply Hbool.
  - apply Hnum.
  - apply Hstr.
  - apply Harr. induction items as [|x items IHitems]; constructor; [apply IH | exact IHitems].
  - apply Hobj. induction props as [|[k x] props IHprops]; constructor;
      [apply IH | exact IHprops].
Qed.

Lemma digitsOf_inj (d : Decimal.uint) : forall d' r r',
  endsNumber r -> endsNumber r' ->
  digitsOf d ++ r = digitsOf d' ++ r' -> d = d' /\ r = r'.
Proof.
  induction d as [|d IH|d IH|d IH|d IH|d IH|d IH|d IH|d IH|d IH|d IH];
    intros [|d'|d'|d'|d'|d'|d'|d'|d'|d'|d'] r r' Hr Hr' Heq; cbn [digitsOf app] in Heq;
    try discriminate Heq;
    try (injection Heq as Heq; destruct (IH d' r r' Hr Hr' Heq) as [-> ->]; done);
    try done;
    try (subst r; simpl in Hr; lia);
    try (subst r'; simpl in Hr'; lia).
Qed.

Lemma digitsOf_head (d : Decimal.uint) :
  d <> Nil -> exists c rest, digitsOf d = c :: rest /\ 48 <= c <= 57.
Proof.
  destruct d; [done | ..]; intros _; eexists _, _; (split; [reflexivity | lia]).
Qed.

Lemma to_int_digits (n : Z) :
  match Z.to_int n with Decimal.Pos d | Decimal.Neg d => d <> Nil end.
Proof.
  destruct n as [|p|p]; simpl; [done | apply DecimalPos.Unsigned.to_uint_nonnil ..].
Qed.

Lemma numberToString_head (n : Z) :
  exists c rest, numberToString n = c :: rest /\ (c = 45 \/ 48 <= c <= 57).
Proof.
  unfold numberToString. pose proof (to_int_digits n) as Hd.
  destruct (Z.to_int n) as [d|d].
  - destruct (digitsOf_head d Hd) as (c & rest & -> & Hc). eauto.
  - eauto.
Qed.

Lemma numberToString_inj (n n' : Z) (r r' : jsstring) :
  endsNumber r -> endsNumber r' ->
  numberToString n ++ r = numberToString n' ++ r' -> n = n' /\ r = r'.
Proof.
  intros Hr Hr'. unfold numberToString.
  pose proof (to_int_digits n) as Hd. pose proof (to_int_digits n') as Hd'.
  destruct (Z.to_int n) as [d|d] eqn:Hn, (Z.to_int n') as [d'|d'] eqn:Hn'; intros Heq.
  - destruct (digitsOf_inj d d' r r' Hr Hr' Heq) as [-> ->].
    split; [|done]. apply DecimalZ.to_int_inj. congruence.
  - destruct (digitsOf_head d Hd) as (c & rest & Hc & Hrange).
    rewrite Hc in Heq. injection Heq as Heq _. lia.
  - destruct (digitsOf_head d' Hd') as (c & rest & Hc & Hrange).
    rewrite Hc in Heq. injection Heq as Heq _. lia.
  - injection Heq as Heq.
    destruct (digitsOf_inj d d' r r' Hr Hr' Heq) as [-> ->].
    split; [|done]. apply DecimalZ.to_int_inj. congruence.
Qed.

Lemma unquote_raw (c : Z) (l : jsstring) :
  c <> 34 -> c <> 92 -> unquoteBody (c :: l) = readAfter c l.
Proof.
  intros H34 H92. cbn [unquoteBody].
  by destruct (Z.eqb_spec c 34), (Z.eqb_spec c 92).
Qed.

Lemma unquote_unicodeEscape (c : Z) (l : jsstring) :
  0 <= c < 65536 -> unquoteBody (JSON.unicodeEscape c ++ l) = readAfter c l.
Proof.
  intros Hc. unfold JSON.unicodeEscape. cbn [app unquoteBody Z.eqb Pos.eqb].
  rewrite !unhex_hexDigit by arith. unfold readAfter.
  destruct (unquoteBody l) as [[s rest]|]; [|done].
  do 2 f_equal. f_equal. arith.
Qed.

Lemma unquote_escapeUnit (c : Z) (l : jsstring) :
  Buffer.isHighSurrogate c = false ->
  unquoteBody (JSON.escapeUnit c ++ l) = readAfter c l.
Proof.
  intros Hhi. unfold Buffer.isHighSurrogate in Hhi. bool_to_prop Hhi.
  unfold JSON.escapeUnit, Buffer.inRange.
  repeat match goal with
         | |- context [if ?x =? ?y then _ else _] =>
             destruct (Z.eqb_spec x y); [subst c; reflexivity|]
         end.
  destruct ((0 <=? c) && (c <=? 31)) eqn:Hctl; bool_to_prop Hctl;
    [apply unquote_unicodeEscape; lia|].
  destruct ((0xD800 <=? c) && (c <=? 0xDFFF)) eqn:Hsur; bool_to_prop Hsur;
    [apply unquote_unicodeEscape; lia|].
  by apply unquote_raw.
Qed.

(** Reading back what [quoteBody] wrote gives the string and what
    followed the closing quote. *)
Lemma unquote_quoteBody_upto (n : nat) : forall s r,
  (length s <= n)%nat -> unquoteBody (JSON.quoteBody s ++ 34 :: r) = Some (s, r).
Proof.
  induction n as [|n IH]; intros [|c rest] r Hlen; try done; try (simpl in Hlen; lia).
  cbn [JSON.quoteBody].
  destruct (Buffer.isHighSurrogate c) eqn:Hhi.
  - assert (0xD800 <= c <= 0xDBFF) as Hc
      by (unfold Buffer.isHighSurrogate in Hhi; by bool_to_prop Hhi).
    destruct rest as [|d rest'].
    + rewrite unquote_unicodeEscape by lia. reflexivity.
    + destruct (Buffer.isLowSurrogate d) eqn:Hlo.
      * assert (0xDC00 <= d <= 0xDFFF) as Hd
          by (unfold Buffer.isLowSurrogate in Hlo; by bool_to_prop Hlo).
        cbn [app]. rewrite unquote_raw by lia. unfold readAfter.
        rewrite unquote_raw by lia. unfold readAfter.
        rewrite IH by (simpl in *; lia). reflexivity.
      * rewrite <- app_assoc, unquote_unicodeEscape by lia. unfold readAfter.
        rewrite IH by (simpl in *; lia). reflexivity.
  - rewrite <- app_assoc, unquote_escapeUnit by done. unfold readAfter.
    rewrite IH by (simpl in *; lia). reflexivity.
Qed.

Lemma quoteBody_inj (s s' r r' : jsstring) :
  JSON.quoteBody s ++ 34 :: r = JSON.quoteBody s' ++ 34 :: r' -> s = s' /\ r = r'.
Proof.
  intros Heq.
  pose proof (unquote_quoteBody_upto (length s) s r (le_n _)) as H1.
  pose proof (unquote_quoteBody_upto (length s') s' r' (le_n _)) as H2.
  rewrite Heq in H1. rewrite H1 in H2. by injection H2.
Qed.

Lemma quote_inj (s s' r r' : jsstring) :
  JSON.quote s ++ r = JSON.quote s' ++ r' -> s = s' /\ r = r'.
Proof.
  unfold JSON.quote. cbn [app]. rewrite <- !app_assoc. cbn [app].
  intros [= Heq]. by apply quoteBody_inj.
Qed.

(** Brings an equation between serializations to the form
    [part ++ rest = part' ++ rest']. *)
Ltac flatten Heq :=
  repeat first [rewrite <- app_assoc in Heq | progress cbn [app] in Heq].

Lemma stringify_array (x : json) (more : list json) :
  JSON.stringify (JArr (x :: more)) = 91 :: JSON.stringify x ++ elementsFrom more.
Proof. reflexivity. Qed.

Lemma stringify_object (k : jsstring) (x : json) (more : list (jsstring * json)) :
  JSON.stringify (JObj ((k, x) :: more))
  = 123 :: JSON.quote k ++ 58 :: JSON.stringify x ++ membersFrom more.
Proof. reflexivity. Qed.

(** A serialization starts with the character that opens its kind of
    value. *)
Lemma stringify_opening (v : json) :
  exists c rest, JSON.stringify v = c :: rest /\ opening v c.
Proof.
  destruct v as [ | [|] | n | s | items | props];
    try (eexists _, _; split; [reflexivity | reflexivity]).
  destruct (numberToString_head n) as (c & rest & Hn & Hc).
  exists c, rest. split; [exact Hn | exact Hc].
Qed.

Lemma stringify_head (v : json) :
  exists c rest, JSON.stringify v = c :: rest
    /\ (c = 110 \/ c = 116 \/ c = 102 \/ c = 45 \/ 48 <= c <= 57 \/ c = 34 \/ c = 91 \/ c = 123).
Proof.
  destruct (stringify_opening v) as (c & rest & Hv & Hc). exists c, rest.
  split; [exact Hv|]. destruct v as [ | [|] | n | s | items | props]; simpl in Hc; lia.
Qed.

Lemma elementsFrom_head (l : list json) :
  exists c rest, elementsFrom l = c :: rest /\ (c = 93 \/ c = 44).
Proof. destruct l; eexists _, _; (split; [reflexivity | lia]). Qed.

Lemma membersFrom_head (l : list (jsstring * json)) :
  exists c rest, membersFrom l = c :: rest /\ (c = 125 \/ c = 44).
Proof. destruct l as [|[k y] l]; eexists _, _; (split; [reflexivity | lia]). Qed.

Lemma elementsFrom_inj (l : list json) : Forall determines l ->
  forall l' r r', elementsFrom l ++ r = elementsFrom l' ++ r' -> l = l' /\ r = r'.
Proof.
  induction 1 as [|y l Hy _ IH]; intros [|y' l'] r r' Heq; cbn [elementsFrom app] in Heq.
  - by injection Heq.
  - discriminate Heq.
  - discriminate Heq.
  - injection Heq as Heq. rewrite <- !app_assoc in Heq.
    destruct (elementsFrom_head l) as (c & t & Hc & Hcv).
    destruct (elementsFrom_head l') as (c' & t' & Hc' & Hcv').
    destruct (Hy y' (elementsFrom l ++ r) (elementsFrom l' ++ r')) as [Hsame Hrest];
      [rewrite Hc; simpl; lia | rewrite Hc'; simpl; lia | exact Heq |].
    subst y'. by destruct (IH l' r r' Hrest) as [-> ->].
Qed.

Lemma membersFrom_inj (l : list (jsstring * json)) : Forall (fun kv => determines kv.2) l ->
  forall l' r r', membersFrom l ++ r = membersFrom l' ++ r' -> l = l' /\ r = r'.
Proof.
  induction 1 as [|[k y] l Hy _ IH]; intros [|[k' y'] l'] r r' Heq;
    cbn [membersFrom app] in Heq.
  - by injection Heq.
  - discriminate Heq.
  - discriminate Heq.
  - injection Heq as Heq. flatten Heq.
    apply quoteBody_inj in Heq as [-> Heq]. injection Heq as Heq.
    destruct (membersFrom_head l) as (c & t & Hc & Hcv).
    destruct (membersFrom_head l') as (c' & t' & Hc' & Hcv').
    destruct (Hy y' (membersFrom l ++ r) (membersFrom l' ++ r')) as [Hsame Hrest];
      [rewrite Hc; simpl; lia | rewrite Hc'; simpl; lia | exact Heq |].
    subst y'. by destruct (IH l' r r' Hrest) as [-> ->].
Qed.

(** Two values of different kinds start differently. *)
Ltac clash Heq :=
  exfalso;
  match type of Heq with
  | JSON.stringify ?a ++ _ = JSON.stringify ?b ++ _ =>
      let Ha := fresh in let Hb := fresh in
      let Hca := fresh in let Hcb := fresh in
      destruct (stringify_opening a) as (? & ? & Ha & Hca);
      destruct (stringify_opening b) as (? & ? & Hb & Hcb);
      rewrite Ha, Hb in Heq; injection Heq as Heq _; simpl in Hca, Hcb;
      repeat match goal with
             | H : context [if ?c then _ else _] |- _ => destruct c
             end;
      lia
  end.

Lemma stringify_determines (v : json) : determines v.
Proof.
  induction v as [ | b | n | s | items IH | props IH] using json_induction;
    intros v' r r' Hr Hr' Heq.
  - destruct v' as [ | b' | n' | s' | items' | props']; try clash Heq.
    cbn in Heq. by injection Heq as ->.
  - destruct v' as [ | b' | n' | s' | items' | props']; try clash Heq.
    destruct b, b'; cbn in Heq; try discriminate Heq; (injection Heq as ->; done).
  - destruct v' as [ | b' | n' | s' | items' | props']; try clash Heq.
    cbn [JSON.stringify] in Heq.
    by destruct (numberToString_inj n n' r r' Hr Hr' Heq) as [-> ->].
  - destruct v' as [ | b' | n' | s' | items' | props']; try clash Heq.
    cbn [JSON.stringify] in Heq. by apply quote_inj in Heq as [-> ->].
  - destruct v' as [ | b' | n' | s' | items' | props']; try clash Heq.
    destruct items as [|x more], items' as [|x' more'].
    + cbn in Heq. by injection Heq as ->.
    + exfalso. rewrite stringify_array in Heq. cbn in Heq. injection Heq as Heq.
      destruct (stringify_head x') as (c & t & Hc & Hcv). rewrite Hc in Heq.
      injection Heq as Heq _. lia.
    + exfalso. rewrite stringify_array in Heq. cbn in Heq. injection Heq as Heq.
      destruct (stringify_head x) as (c & t & Hc & Hcv). rewrite Hc in Heq.
      injection Heq as Heq _. lia.
    + rewrite !stringify_array in Heq. cbn [app] in Heq. injection Heq as Heq.
      rewrite <- !app_assoc in Heq.
      apply Forall_cons in IH as [Hx IH].
      destruct (elementsFrom_head more) as (c & t & Hc & Hcv).
      destruct (elementsFrom_head more') as (c' & t' & Hc' & Hcv').
      destruct (Hx x' (elementsFrom more ++ r) (elementsFrom more' ++ r')) as [Hsame Hrest];
        [rewrite Hc; simpl; lia | rewrite Hc'; simpl; lia | exact Heq |].
      subst x'. by destruct (elementsFrom_inj more IH more' r r' Hrest) as [-> ->].
  - destruct v' as [ | b' | n' | s' | items' | props']; try clash Heq.
    destruct props as [|[k x] more], props' as [|[k' x'] more'].
    + cbn in Heq. by injection Heq as ->.
    + exfalso. rewrite stringify_object in Heq. cbn in Heq. discriminate Heq.
    + exfalso. rewrite stringify_object in Heq. cbn in Heq. discriminate Heq.
    + rewrite !stringify_object in Heq. cbn [app] in Heq. injection Heq as Heq.
      flatten Heq. apply quoteBody_inj in Heq as [-> Heq]. injection Heq as Heq.
      apply Forall_cons in IH as [Hx IH]. simpl in Hx.
      destruct (membersFrom_head more) as (c & t & Hc & Hcv).
      destruct (membersFrom_head more') as (c' & t' & Hc' & Hcv').
      destruct (Hx x' (membersFrom more ++ r) (membersFrom more' ++ r')) as [Hsame Hrest];
        [rewrite Hc; simpl; lia | rewrite Hc'; simpl; lia | exact Heq |].
      subst x'. by destruct (membersFrom_inj more IH more' r r' Hrest) as [-> ->].
Qed.

(** [JSON.stringify] is injective. *)
Lemma stringify_inj (v v' : json) : JSON.stringify v = JSON.stringify v' -> v = v'.
Proof.
  intros Heq. apply (stringify_determines v v' [] []); [done | done|].
  by rewrite !app_nil_r.
Qed.

(** ** Tampering *)

Lemma wellFormed_toHex (bs : list Z) :
  Forall isByte bs -> wellFormed (Buffer.toHex bs) = true.
Proof.
  induction 1 as [|b bs Hb _ IH]; [done|].
  unfold isByte in Hb. unfold Buffer.toHex in *. cbn [flat_map app wellFormed].
  assert (forall n, 0 <= n < 16 -> 48 <= Buffer.hexDigit n <= 102) as Hdigit.
  { intros n Hn. unfold Buffer.hexDigit. destruct (Z.ltb_spec n 10); lia. }
  pose proof (Hdigit (b / 16) ltac:(arith)) as H1.
  pose proof (Hdigit (b mod 16) ltac:(arith)) as H2.
  unfold Buffer.isHighSurrogate, Buffer.isLowSurrogate.
  repeat match goal with
         | |- context [?x <=? ?y] =>
             first [rewrite (proj2 (Z.leb_le x y)) by lia
                   | rewrite (proj2 (Z.leb_gt x y)) by lia]
         | |- context [?x <? ?y] => rewrite (proj2 (Z.ltb_lt x y)) by lia
         end.
  exact IH.
Qed.

(** A signature is a string of hexadecimal digits. *)
Lemma signChallenge_wellFormed (hmacSha256 : list Z -> list Z -> list Byte.byte)
    (data secret : jsstring) :
  wellFormed (Crypto.signChallenge hmacSha256 data secret) = true.
Proof.
  unfold Crypto.signChallenge. apply wellFormed_toHex.
  apply Forall_map, Forall_forall. intros b _. apply byteValue_bounds.
Qed.

(** The signed serialization determines the payload. *)
Lemma signatureData_inj (id type : jsstring) (payload payload' : json) (expiresAt : Z)
    (expectedAnswer : jsstring) :
  Verifier.signatureData id type payload expiresAt expectedAnswer
  = Verifier.signatureData id type payload' expiresAt expectedAnswer ->
  payload = payload'.
Proof.
  unfold Verifier.signatureData. intros Heq. apply stringify_inj in Heq.
  by injection Heq.
Qed.

(** C3.  For a generated and stored challenge, when the payload is
    altered before re-submission while the stored expectedAnswer is
    unchanged, [verify] (before expiry, with the matching challengeId and a
    client that is not rate limited) returns valid = false with errorCode
    INVALID_SIGNATURE: the signature recomputed over {id, type, payload,
    expiresAt, expectedAnswer: stored.expectedAnswer} differs from
    challenge.signature, provided HMAC-SHA256 does not collide on the two
    serializations. *)
Theorem verify_detects_tampering
    (hmacSha256 : list Z -> list Z -> list Byte.byte)
    (allFunctions : list RegisteredFunction) (config : UnCaptchaConfig)
    (generatedAt : Z) (overrides : option (option jsstring * option ChallengeDifficulty))
    (w w' : World) (challenge : Challenge.t) (expectedAnswer : jsstring)
    (payload' : json) (solution : ChallengeSolution.t)
    (now : nat -> Z) (clientIdentifier : option jsstring) (st : Verifier.state) :
  Generator.generate hmacSha256 allFunctions config generatedAt overrides w
    = Return (challenge, expectedAnswer) w' ->
  payload' <> Challenge.payload challenge ->
  let tampered :=
    Challenge.make (Challenge.id challenge) (Challenge.type challenge)
      (Challenge.difficulty challenge) payload' (Challenge.expiresAt challenge)
      (Challenge.signature challenge) in
  let original :=
    Verifier.signatureData (Challenge.id challenge) (Challenge.type challenge)
      (Challenge.payload challenge) (Challenge.expiresAt challenge) expectedAnswer in
  let altered :=
    Verifier.signatureData (Challenge.id challenge) (Challenge.type challenge)
      payload' (Challenge.expiresAt challenge) expectedAnswer in
  let stored :=
    Verifier.storeChallenge (Challenge.id challenge) expectedAnswer
      (Challenge.expiresAt challenge) st in
  (Crypto.signChallenge hmacSha256 altered (secret config)
   = Crypto.signChallenge hmacSha256 original (secret config) -> altered = original) ->
  ChallengeSolution.challengeId solution = Challenge.id challenge ->
  admitted config (now 0%nat) clientIdentifier stored ->
  now 1%nat <= Challenge.expiresAt challenge ->
  now 2%nat <= Challenge.expiresAt challenge ->
  (Verifier.verify hmacSha256 config now tampered solution clientIdentifier stored).1
    = mkResult false (Some (js "Invalid challenge signature")) (Some INVALID_SIGNATURE).
Proof.
  intros Hgen Hne tampered original altered stored Hfree Hid Hadm H1 H2.
  destruct (generate_signed _ _ _ _ _ _ _ _ _ Hgen) as [Hsig _].
  rewrite verify_admitted by done. cbv zeta. subst tampered. cbn [Challenge.id
    Challenge.type Challenge.payload Challenge.expiresAt Challenge.signature].
  rewrite bool_decide_eq_true_2 by done. cbn [negb].
  destruct (Z.gtb_spec (now 1%nat) (Challenge.expiresAt challenge)); [lia|].
  subst stored. unfold Verifier.storeChallenge, Verifier.withStore.
  cbn [Verifier.challengeStore]. rewrite lookup_insert_eq.
  cbn [ChallengeStore.expiresAt ChallengeStore.expectedAnswer].
  destruct (Z.gtb_spec (now 2%nat) (Challenge.expiresAt challenge)); [lia|].
  fold altered.
  destruct (Crypto.safeCompare (Challenge.signature challenge)
              (Crypto.signChallenge hmacSha256 altered (secret config))) eqn:Hcmp;
    [|reflexivity].
  exfalso. rewrite Hsig in Hcmp. fold original in Hcmp.
  apply safeCompare_well_formed in Hcmp; [|apply signChallenge_wellFormed..].
  symmetry in Hcmp. apply Hfree in Hcmp. apply Hne.
  symmetry. by apply signatureData_inj in Hcmp.
Qed.

Lemma verify_detects_tampering_witness :
  let config := withDefaults (mkUserConfig (js "secret") None None None None) in
  exists challenge expectedAnswer w',
    Generator.generate toyMac sampleCatalog config 1000
      (Some (Some (js "code_transform"), Some easy)) sampleWorld
      = Return (challenge, expectedAnswer) w'
    /\ (Verifier.verify toyMac config (fun _ => 1500)
          (Challenge.make (Challenge.id challenge) (Challenge.type challenge)
             (Challenge.difficulty challenge)
             (JObj [(js "type", JStr (js "code_transform"));
                    (js "code", JStr (js "return 42;"));
                    (js "transform", JStr (js "execute"));
                    (js "responseEncoding", JStr (js "plain"))])
             (Challenge.expiresAt challenge) (Challenge.signature challenge))
          (ChallengeSolution.make (Challenge.id challenge) expectedAnswer)
          (Some (js "agent"))
          (Verifier.storeChallenge (Challenge.id challenge) expectedAnswer
             (Challenge.expiresAt challenge) Verifier.create)).1
       = mkResult false (Some (js "Invalid challenge signature")) (Some INVALID_SIGNATURE).
Proof.
  intros config.
  destruct (Generator.generate toyMac sampleCatalog config 1000
              (Some (Some (js "code_transform"), Some easy)) sampleWorld)
    as [[challenge expectedAnswer] w'| |] eqn:Hgen;
    [| vm_compute in Hgen; discriminate Hgen ..].
  exists challenge, expectedAnswer, w'. split; [reflexivity|].
  destruct (generate_signed _ _ _ _ _ _ _ _ _ Hgen) as [_ Hexp].
  apply (verify_detects_tampering toyMac sampleCatalog config 1000 _ sampleWorld w'
           challenge expectedAnswer _ _ (fun _ => 1500) (Some (js "agent"))
           Verifier.create Hgen).
  - vm_compute in Hgen. injection Hgen as <- _ _. discriminate.
  - vm_compute in Hgen. injection Hgen as <- <- _. vm_compute. discriminate.
  - reflexivity.
  - vm_compute. reflexivity.
  - rewrite Hexp. simpl. lia.
  - rewrite Hexp. simpl. lia.
Defined.

(** ** The rate limiter: invariant, frame, sweep *)

Section LimiterInvariant.
Import RateLimiter.
Variable config : RateLimitConfig.
Hypothesis max_nonneg : 0 <= maxAttempts config.

Lemma countsBounded_insert key e es :
  countsBounded config es -> 0 <= count e <= maxAttempts config ->
  countsBounded config (<[key := e]> es).
Proof.
  intros Hes He k e'. rewrite lookup_insert. case_decide; [by intros [= <-] | apply Hes].
Qed.

Lemma countsBounded_delete key es :
  countsBounded config es -> countsBounded config (delete key es).
Proof.
  intros Hes k e'. rewrite lookup_delete. case_decide; [done | apply Hes].
Qed.

Lemma openWindow_bounded now key es :
  countsBounded config es ->
  0 <= count (openWindow config now key es).1 <= maxAttempts config
  /\ countsBounded config (openWindow config now key es).2.
Proof.
  intros Hes. unfold openWindow.
  destruct (es !! key) as [e|] eqn:Hk.
  - destruct (now >? resetAt e); simpl.
    + split; [lia | apply countsBounded_insert; [done | simpl; lia]].
    + split; [by apply (Hes key) | done].
  - simpl. split; [lia | apply countsBounded_insert; [done | simpl; lia]].
Qed.

Lemma recordAttempt_bounded now key es :
  countsBounded config es ->
  countsBounded config (recordAttempt config now key es).2
  /\ 0 <= remaining (recordAttempt config now key es).1 <= maxAttempts config.
Proof.
  intros Hes. destruct (openWindow_bounded now key es Hes) as [Hc Hes1].
  unfold recordAttempt. destruct (openWindow config now key es) as [entry es1].
  simpl in Hc, Hes1.
  destruct (Z.geb_spec (count entry) (maxAttempts config)); simpl.
  - split; [done | lia].
  - split; [apply countsBounded_insert; [done | simpl; lia] | lia].
Qed.
End LimiterInvariant.

(** X1.  With maxAttempts >= 0, every operation of the limiter keeps all
    counts between 0 and maxAttempts, starting from the empty map; the
    remaining allowance an operation reports lies in that interval too. *)
Theorem limiter_counts_bounded (config : RateLimiter.RateLimitConfig)
    (es : gmap (list Z) RateLimiter.RateLimitEntry) (now : Z) (key : jsstring) :
  0 <= RateLimiter.maxAttempts config ->
  countsBounded config ∅
  /\ (countsBounded config es ->
      countsBounded config (RateLimiter.recordAttempt config now key es).2
      /\ 0 <= RateLimiter.remaining (RateLimiter.recordAttempt config now key es).1
           <= RateLimiter.maxAttempts config
      /\ countsBounded config (RateLimiter.isRateLimited config now key es).2
      /\ 0 <= RateLimiter.getRemainingAttempts config now key es
           <= RateLimiter.maxAttempts config
      /\ countsBounded config (RateLimiter.reset key es)
      /\ countsBounded config (RateLimiter.cleanup now es)
      /\ countsBounded config (RateLimiter.clear es)).
Proof.
  intros Hmax. split; [intros k e; by rewrite lookup_empty|].
  intros Hes.
  destruct (recordAttempt_bounded config Hmax now key es Hes) as [Hr1 Hr2].
  split; [exact Hr1|]. split; [exact Hr2|]. split; [|split; [|split; [|split]]].
  - unfold RateLimiter.isRateLimited. destruct (es !! key) as [e|]; [|done].
    destruct (now >? RateLimiter.resetAt e); simpl; [by apply countsBounded_delete | done].
  - unfold RateLimiter.getRemainingAttempts. destruct (es !! key) as [e|] eqn:Hk; [|lia].
    destruct (now >? RateLimiter.resetAt e); [lia|]. pose proof (Hes key e Hk). lia.
  - by apply countsBounded_delete.
  - intros k e. unfold RateLimiter.cleanup. rewrite map_lookup_filter_Some.
    intros [Hk _]. by apply (Hes k).
  - intros k e. unfold RateLimiter.clear. by rewrite lookup_empty.
Qed.

Lemma limiter_counts_bounded_witness :
  let config := RateLimiter.mkConfig 2 1000 in
  0 <= RateLimiter.remaining
         (RateLimiter.recordAttempt config 5 (js "c1")
            (RateLimiter.recordAttempt config 0 (js "c1") ∅).2).1
    <= 2.
Proof.
  intros config.
  destruct (limiter_counts_bounded config ∅ 0 (js "c1")) as [Hempty Hstep]; [simpl; lia|].
  destruct (Hstep Hempty) as [Hfirst _].
  destruct (limiter_counts_bounded config
              (RateLimiter.recordAttempt config 0 (js "c1") ∅).2 5 (js "c1"))
    as [_ Hnext]; [simpl; lia|].
  exact (proj1 (proj2 (Hnext Hfirst))).
Defined.

(** X2.  An operation on one key leaves the entries of every other key as
    they were: one client's attempts never count against another. *)
Theorem limiter_frame (config : RateLimiter.RateLimitConfig)
    (es : gmap (list Z) RateLimiter.RateLimitEntry) (now : Z) (key other : jsstring) :
  other <> key ->
  (RateLimiter.recordAttempt config now key es).2 !! other = es !! other
  /\ (RateLimiter.isRateLimited config now key es).2 !! other = es !! other
  /\ RateLimiter.reset key es !! other = es !! other
  /\ (RateLimiter.recordAttempt config now other
        (RateLimiter.recordAttempt config now key es).2).1
     = (RateLimiter.recordAttempt config now other es).1.
Proof.
  intros Hne.
  assert (Hrec : (RateLimiter.recordAttempt config now key es).2 !! other = es !! other).
  { unfold RateLimiter.recordAttempt, RateLimiter.openWindow.
    destruct (es !! key) as [e|]; [destruct (now >? RateLimiter.resetAt e)|]; simpl;
      destruct (_ >=? _); simpl; by rewrite ?lookup_insert_ne. }
  split; [exact Hrec|]. split; [|split].
  - unfold RateLimiter.isRateLimited. destruct (es !! key) as [e|]; [|done].
    destruct (now >? RateLimiter.resetAt e); simpl; by rewrite ?lookup_delete_ne.
  - unfold RateLimiter.reset. by rewrite lookup_delete_ne.
  - unfold RateLimiter.recordAttempt at 1 3. unfold RateLimiter.openWindow. rewrite Hrec.
    destruct (es !! other) as [e|]; [destruct (now >? RateLimiter.resetAt e)|]; simpl;
      by destruct (_ >=? _).
Qed.

Lemma limiter_frame_witness :
  let config := RateLimiter.mkConfig 1 1000 in
  (RateLimiter.recordAttempt config 1 (js "bob")
     (RateLimiter.recordAttempt config 0 (js "alice") ∅).2).1
  = (RateLimiter.recordAttempt config 1 (js "bob") ∅).1.
Proof.
  intros config.
  destruct (limiter_frame config ∅ 0 (js "alice") (js "bob")) as (Hlook & _ & _ & _);
    [discriminate|].
  unfold RateLimiter.recordAttempt at 1 3. unfold RateLimiter.openWindow.
  rewrite Hlook. reflexivity.
Defined.

Lemma cleanup_lookup now es key :
  RateLimiter.cleanup now es !! key =
  match es !! key with
  | Some e => if now >? RateLimiter.resetAt e then None else Some e
  | None => None
  end.
Proof.
  unfold RateLimiter.cleanup. rewrite map_lookup_filter.
  destruct (es !! key) as [e|]; simpl; [|done].
  by destruct (now >? RateLimiter.resetAt e).
Qed.

(** X3.  With maxAttempts > 0, [isRateLimited] answers exactly when
    [recordAttempt] at the same instant would deny, and the entry it drops
    on the way is never missed: a later [recordAttempt] returns the same
    result and leaves the same map as if [isRateLimited] had not run. *)
Theorem isRateLimited_agrees_with_recordAttempt (config : RateLimiter.RateLimitConfig)
    (es : gmap (list Z) RateLimiter.RateLimitEntry) (now later : Z) (key : jsstring) :
  0 < RateLimiter.maxAttempts config ->
  now <= later ->
  (RateLimiter.isRateLimited config now key es).1
    = negb (RateLimiter.allowed (RateLimiter.recordAttempt config now key es).1)
  /\ RateLimiter.recordAttempt config later key
       (RateLimiter.isRateLimited config now key es).2
     = RateLimiter.recordAttempt config later key es.
Proof.
  intros Hmax Hle.
  unfold RateLimiter.isRateLimited, RateLimiter.recordAttempt, RateLimiter.openWindow.
  destruct (es !! key) as [e|] eqn:Hk.
  - destruct (Z.gtb_spec now (RateLimiter.resetAt e)) as [Hgt|Hngt]; simpl.
    + split.
      * destruct (Z.geb_spec 0 (RateLimiter.maxAttempts config)); [lia|done].
      * rewrite lookup_delete_eq.
        destruct (Z.gtb_spec later (RateLimiter.resetAt e)); [|lia]. simpl.
        destruct (Z.geb_spec 0 (RateLimiter.maxAttempts config)); [lia|].
        by rewrite insert_delete_eq.
    + split; [by destruct (_ >=? _)|]. by rewrite ?Hk.
  - simpl. split; [|by rewrite ?Hk].
    destruct (Z.geb_spec 0 (RateLimiter.maxAttempts config)); [lia|done].
Qed.

Lemma isRateLimited_agrees_with_recordAttempt_witness :
  let config := RateLimiter.mkConfig 1 1000 in
  let es := (RateLimiter.recordAttempt config 0 (js "c1") ∅).2 in
  (RateLimiter.isRateLimited config 500 (js "c1") es).1 = true
  /\ RateLimiter.recordAttempt config 2000 (js "c1")
       (RateLimiter.isRateLimited config 1500 (js "c1") es).2
     = RateLimiter.recordAttempt config 2000 (js "c1") es.
Proof.
  intros config es. split.
  - rewrite (proj1 (isRateLimited_agrees_with_recordAttempt config es 500 500 (js "c1")
                      ltac:(simpl; lia) ltac:(lia))).
    reflexivity.
  - apply (isRateLimited_agrees_with_recordAttempt config es 1500 2000 (js "c1"));
      simpl; lia.
Defined.

(** X4.  The periodic sweep cannot be observed: with windowMs >= 0, a
    [cleanup] that ran at or before the current instant changes neither the
    result of [recordAttempt], [getRemainingAttempts] or [isRateLimited],
    nor the entries that a sweep would keep after [recordAttempt]. *)
Theorem cleanup_unobservable (config : RateLimiter.RateLimitConfig)
    (es : gmap (list Z) RateLimiter.RateLimitEntry) (swept now : Z) (key : jsstring) :
  0 <= RateLimiter.windowMs config ->
  swept <= now ->
  (RateLimiter.recordAttempt config now key (RateLimiter.cleanup swept es)).1
    = (RateLimiter.recordAttempt config now key es).1
  /\ (RateLimiter.recordAttempt config now key (RateLimiter.cleanup swept es)).2
     = RateLimiter.cleanup swept (RateLimiter.recordAttempt config now key es).2
  /\ RateLimiter.getRemainingAttempts config now key (RateLimiter.cleanup swept es)
     = RateLimiter.getRemainingAttempts config now key es
  /\ (RateLimiter.isRateLimited config now key (RateLimiter.cleanup swept es)).1
     = (RateLimiter.isRateLimited config now key es).1.
Proof.
  intros Hwin Hle.
  unfold RateLimiter.recordAttempt, RateLimiter.openWindow,
    RateLimiter.getRemainingAttempts, RateLimiter.isRateLimited.
  rewrite cleanup_lookup.
  assert (Hmap : forall e m, swept <= RateLimiter.resetAt e ->
            <[key := e]> (RateLimiter.cleanup swept m)
            = RateLimiter.cleanup swept (<[key := e]> m)).
  { intros e m He. apply map_eq. intros k. rewrite cleanup_lookup.
    destruct (decide (k = key)) as [->|Hne].
    - rewrite !lookup_insert_eq. destruct (Z.gtb_spec swept (RateLimiter.resetAt e)); [lia|done].
    - rewrite !lookup_insert_ne by done. by rewrite cleanup_lookup. }
  destruct (es !! key) as [e|] eqn:Hk.
  - destruct (Z.gtb_spec swept (RateLimiter.resetAt e)) as [Hs|Hs].
    + destruct (Z.gtb_spec now (RateLimiter.resetAt e)) as [_|]; [|lia]. simpl.
      destruct (_ >=? _); simpl; split_and!; try done.
      * apply Hmap. simpl. lia.
      * rewrite insert_insert_eq, <- (Hmap _ (<[key:=_]> es)) by (simpl; lia).
        rewrite <- Hmap by (simpl; lia). by rewrite insert_insert_eq.
    + destruct (Z.gtb_spec now (RateLimiter.resetAt e)) as [Hn|Hn]; simpl.
      * destruct (_ >=? _); simpl; split_and!; try done.
        -- apply Hmap. simpl. lia.
        -- rewrite <- (Hmap _ (<[key:=_]> es)) by (simpl; lia).
           by rewrite <- Hmap by (simpl; lia).
      * destruct (_ >=? _); simpl; split_and!; try done.
        apply Hmap. simpl. lia.
  - simpl. destruct (_ >=? _); simpl; split_and!; try done.
    + apply Hmap. simpl. lia.
    + rewrite <- (Hmap _ (<[key:=_]> es)) by (simpl; lia).
      by rewrite <- Hmap by (simpl; lia).
Qed.

Lemma cleanup_unobservable_witness :
  let config := RateLimiter.mkConfig 2 1000 in
  let es := (RateLimiter.recordAttempt config 0 (js "c1") ∅).2 in
  (RateLimiter.recordAttempt config 1500 (js "c1") (RateLimiter.cleanup 1200 es)).1
  = (RateLimiter.recordAttempt config 1500 (js "c1") es).1.
Proof.
  intros config es.
  apply (cleanup_unobservable config es 1200 1500 (js "c1")); simpl; lia.
Defined.

Lemma totalAttempts_insert (key : jsstring) (e : RateLimiter.RateLimitEntry)
    (es : gmap (list Z) RateLimiter.RateLimitEntry) :
  es !! key = None ->
  LimiterStats.totalAttempts (LimiterStats.getStats (<[key := e]> es))
  = LimiterStats.totalAttempts (LimiterStats.getStats es) + RateLimiter.count e.
Proof.
  intros Hk. unfold LimiterStats.getStats. simpl.
  rewrite map_fold_insert_L; [done | intros; lia | done].
Qed.

Lemma totalAttempts_delete (key : jsstring) (e : RateLimiter.RateLimitEntry)
    (es : gmap (list Z) RateLimiter.RateLimitEntry) :
  es !! key = Some e ->
  LimiterStats.totalAttempts (LimiterStats.getStats es)
  = LimiterStats.totalAttempts (LimiterStats.getStats (delete key es)) + RateLimiter.count e.
Proof.
  intros Hk. rewrite <- (insert_delete_id es key e Hk) at 1.
  apply totalAttempts_insert. apply lookup_delete_eq.
Qed.

(** X5.  While every count lies between 0 and maxAttempts, the total that
    [getStats] reports lies between 0 and activeKeys * maxAttempts; and an
    allowed [recordAttempt] raises that total by exactly one when the key's
    window is live. *)
Theorem getStats_total (config : RateLimiter.RateLimitConfig)
    (es : gmap (list Z) RateLimiter.RateLimitEntry) (now : Z) (key : jsstring)
    (e : RateLimiter.RateLimitEntry) :
  countsBounded config es ->
  (0 <= LimiterStats.totalAttempts (LimiterStats.getStats es)
     <= LimiterStats.activeKeys (LimiterStats.getStats es) * RateLimiter.maxAttempts config)
  /\ (es !! key = Some e -> now <= RateLimiter.resetAt e ->
      RateLimiter.allowed (RateLimiter.recordAttempt config now key es).1 = true ->
      LimiterStats.getStats (RateLimiter.recordAttempt config now key es).2
      = LimiterStats.mkStats
          (LimiterStats.activeKeys (LimiterStats.getStats es))
          (LimiterStats.totalAttempts (LimiterStats.getStats es) + 1)).
Proof.
  intros Hes. split.
  - clear now key e. revert Hes. unfold LimiterStats.getStats. simpl.
    apply (map_fold_weak_ind
             (fun total (m : gmap (list Z) RateLimiter.RateLimitEntry) =>
                countsBounded config m ->
                0 <= total <= Z.of_nat (size m) * RateLimiter.maxAttempts config)).
    + intros _. rewrite map_size_empty. lia.
    + intros k x m total Hk IH Hm.
      assert (Hx : 0 <= RateLimiter.count x <= RateLimiter.maxAttempts config).
      { apply (Hm k). apply lookup_insert_eq. }
      assert (Hm' : countsBounded config m).
      { intros k' e' Hk'. apply (Hm k'). rewrite lookup_insert_ne; [done|].
        intros ->. by rewrite Hk in Hk'. }
      specialize (IH Hm'). rewrite map_size_insert, Hk. simpl. nia.
  - intros Hk Hlive. unfold RateLimiter.recordAttempt, RateLimiter.openWindow. rewrite Hk.
    destruct (Z.gtb_spec now (RateLimiter.resetAt e)); [lia|]. simpl.
    destruct (_ >=? _); simpl; [discriminate|]. intros _.
    unfold LimiterStats.getStats at 1. f_equal.
    + simpl. f_equal. apply map_size_insert_Some. by exists e.
    + change (LimiterStats.totalAttempts
                (LimiterStats.getStats
                   (<[key := RateLimiter.mkEntry (RateLimiter.count e + 1) (RateLimiter.resetAt e)]> es))
              = LimiterStats.totalAttempts (LimiterStats.getStats es) + 1).
      rewrite <- insert_delete_eq, totalAttempts_insert by apply lookup_delete_eq.
      rewrite (totalAttempts_delete key e es Hk). simpl. lia.
Qed.

Lemma getStats_total_witness :
  let config := RateLimiter.mkConfig 3 1000 in
  let es := (RateLimiter.recordAttempt config 0 (js "c1") ∅).2 in
  LimiterStats.getStats (RateLimiter.recordAttempt config 10 (js "c1") es).2
  = LimiterStats.mkStats (LimiterStats.activeKeys (LimiterStats.getStats es))
      (LimiterStats.totalAttempts (LimiterStats.getStats es) + 1).
Proof.
  intros config es.
  assert (Hes : countsBounded config es).
  { apply (recordAttempt_bounded config ltac:(simpl; lia) 0 (js "c1") ∅).
    intros k e. by rewrite lookup_empty. }
  apply (proj2 (getStats_total config es 10 (js "c1") (RateLimiter.mkEntry 1 1000) Hes));
    [reflexivity | simpl; lia | reflexivity].
Defined.

(** ** Chains of encodings *)

Lemma isAscii_wellFormed (s : jsstring) : isAscii s -> wellFormed s = true.
Proof.
  induction 1 as [|c s Hc _ IH]; [done|]. cbn [wellFormed].
  unfold Buffer.isHighSurrogate, Buffer.isLowSurrogate.
  replace (0xD800 <=? c) with false by (symmetry; apply Z.leb_gt; lia).
  replace (0xDC00 <=? c) with false by (symmetry; apply Z.leb_gt; lia).
  cbn [andb negb]. rewrite IH, andb_true_r.
  apply andb_true_iff. split; [apply Z.leb_le | apply Z.ltb_lt]; lia.
Qed.

Lemma hexDigit_lower (n : Z) : 0 <= n < 16 -> isLowerHex (Buffer.hexDigit n).
Proof.
  intros Hn. unfold Buffer.hexDigit, isLowerHex. destruct (Z.ltb_spec n 10); lia.
Qed.

Lemma base64Char_text (n : Z) : 0 <= n < 64 -> isBase64Text (Buffer.base64Char n).
Proof.
  intros Hn. unfold Buffer.base64Char, isBase64Text.
  destruct (Z.ltb_spec n 26); [lia|]. destruct (Z.ltb_spec n 52); [lia|].
  destruct (Z.ltb_spec n 62); [lia|]. destruct (Z.eqb_spec n 62); lia.
Qed.

Lemma toHex_shape (bs : list Z) :
  Forall isByte bs ->
  length (Buffer.toHex bs) = (2 * length bs)%nat /\ Forall isLowerHex (Buffer.toHex bs).
Proof.
  induction 1 as [|b bs Hb _ [IHl IHf]]; [by split|].
  unfold isByte in Hb. unfold Buffer.toHex in *. cbn [flat_map app length].
  split; [lia|].
  repeat (apply Forall_cons; split; [apply hexDigit_lower; arith|]). exact IHf.
Qed.

Lemma toBase64_shape_upto (n : nat) : forall bs,
  (length bs <= n)%nat -> Forall isByte bs ->
  Z.of_nat (length (Buffer.toBase64 bs)) = 4 * ((Z.of_nat (length bs) + 2) / 3)
  /\ Forall isBase64Text (Buffer.toBase64 bs).
Proof.
  induction n as [|n IH]; intros bs Hlen Hbs.
  { destruct bs; [by split | simpl in Hlen; lia]. }
  destruct bs as [|b0 [|b1 [|b2 rest]]]; [by split | | |];
    repeat match goal with
           | H : Forall isByte (_ :: _) |- _ =>
               let Hb := fresh "Hb" in
               apply Forall_cons in H as [Hb H]; unfold isByte in Hb
           end; cbn [Buffer.toBase64].
  - split; [done|].
    repeat (apply Forall_cons; split; [apply base64Char_text; arith|]).
    repeat (apply Forall_cons; split; [unfold isBase64Text; lia|]). constructor.
  - split; [done|].
    repeat (apply Forall_cons; split; [apply base64Char_text; arith|]).
    repeat (apply Forall_cons; split; [unfold isBase64Text; lia|]). constructor.
  - destruct (IH rest) as [IHl IHf]; [simpl in Hlen; lia | done |].
    split.
    + cbn [length]. rewrite !Nat2Z.inj_succ, IHl. arith.
    + repeat (apply Forall_cons; split; [apply base64Char_text; arith|]). exact IHf.
Qed.

Lemma isAscii_of (P : Z -> Prop) (s : jsstring) :
  (forall c, P c -> 0 <= c < 128) -> Forall P s -> isAscii s.
Proof. intros HP Hs. unfold isAscii. by eapply Forall_impl. Qed.

Lemma rot13Letter_range (c : Z) :
  Encoding.isLetter c = true ->
  Encoding.isLetter (Encoding.rot13Letter c) = true.
Proof.
  unfold Encoding.isLetter, Encoding.rot13Letter, Buffer.inRange. intros Hl.
  bool_to_prop Hl. destruct (Z.leb_spec c 90).
  - rewrite Z.rem_mod_nonneg by lia.
    apply orb_true_iff. right. apply andb_true_iff.
    split; apply Z.leb_le; arith.
  - rewrite Z.rem_mod_nonneg by lia.
    apply orb_true_iff. left. apply andb_true_iff.
    split; apply Z.leb_le; arith.
Qed.

Lemma rot13_unit_surrogate (c : Z) :
  let rot c := if Encoding.isLetter c then Encoding.rot13Letter c else c in
  Buffer.isHighSurrogate (rot c) = Buffer.isHighSurrogate c
  /\ Buffer.isLowSurrogate (rot c) = Buffer.isLowSurrogate c
  /\ (0 <=? rot c) && (rot c <? 0x10000) = (0 <=? c) && (c <? 0x10000).
Proof.
  cbv beta zeta. destruct (Encoding.isLetter c) eqn:Hl; [|by repeat split].
  pose proof (rot13Letter_range c Hl) as Hr.
  unfold Encoding.isLetter, Buffer.inRange in Hl, Hr. bool_to_prop Hl. bool_to_prop Hr.
  unfold Buffer.isHighSurrogate, Buffer.isLowSurrogate.
  set (d := Encoding.rot13Letter c) in *. clearbody d.
  split_and!.
  - destruct (Z.leb_spec 0xD800 d), (Z.leb_spec 0xD800 c); (lia || done).
  - destruct (Z.leb_spec 0xDC00 d), (Z.leb_spec 0xDC00 c); (lia || done).
  - destruct (Z.leb_spec 0 d), (Z.leb_spec 0 c), (Z.ltb_spec d 0x10000),
      (Z.ltb_spec c 0x10000); (lia || done).
Qed.

Lemma wellFormed_rot13_upto (n : nat) : forall s,
  (length s <= n)%nat -> wellFormed (Encoding.encodeRot13 s) = wellFormed s.
Proof.
  unfold Encoding.encodeRot13.
  induction n as [|n IH]; intros [|c rest] Hlen; try done; try (simpl in Hlen; lia).
  cbn [map wellFormed].
  destruct (rot13_unit_surrogate c) as (-> & -> & Hrange).
  destruct (Buffer.isHighSurrogate c).
  - destruct rest as [|d rest']; [done|]. cbn [map].
    destruct (rot13_unit_surrogate d) as (_ & -> & _).
    rewrite IH by (simpl in Hlen; lia). done.
  - rewrite IH by (simpl in Hlen; lia).
    rewrite <- !andb_assoc. f_equal. rewrite !andb_assoc. f_equal. exact Hrange.
Qed.

(** A known encoding of a well-formed string decodes to it, and is well
    formed itself. *)
Lemma encode_known (s k : jsstring) :
  k ∈ kinds -> wellFormed s = true ->
  exists encoded, Encoding.encode s k = Ok encoded
    /\ Encoding.decode encoded k = Ok s /\ wellFormed encoded = true.
Proof.
  intros Hk Hwf. unfold kinds in Hk. rewrite !elem_of_cons, elem_of_nil in Hk.
  destruct Hk as [-> | [-> | [-> | [-> | []]]]].
  - by exists s.
  - exists (Encoding.encodeBase64 s). split; [reflexivity|]. split.
    + change (Ok (Encoding.decodeBase64 (Encoding.encodeBase64 s)) = Ok s).
      unfold Encoding.decodeBase64, Encoding.encodeBase64.
      by rewrite base64_roundtrip, utf8_roundtrip by (done || by apply fromUtf8_bytes).
    + apply isAscii_wellFormed, (isAscii_of isBase64Text); [unfold isBase64Text; lia|].
      by apply (toBase64_shape_upto (length (Buffer.fromUtf8 s))), fromUtf8_bytes.
  - exists (Encoding.encodeHex s). split; [reflexivity|]. split.
    + change (Ok (Encoding.decodeHex (Encoding.encodeHex s)) = Ok s).
      unfold Encoding.decodeHex, Encoding.encodeHex.
      by rewrite hex_roundtrip, utf8_roundtrip by (done || by apply fromUtf8_bytes).
    + apply isAscii_wellFormed, (isAscii_of isLowerHex); [unfold isLowerHex; lia|].
      by apply toHex_shape, fromUtf8_bytes.
  - exists (Encoding.encodeRot13 s). split; [reflexivity|]. split.
    + change (Ok (Encoding.decodeRot13 (Encoding.encodeRot13 s)) = Ok s).
      unfold Encoding.decodeRot13. by rewrite rot13_involutive.
    + by rewrite (wellFormed_rot13_upto (length s)).
Qed.

Lemma decodeAll_app (v : jsstring) (xs ys : list jsstring) :
  Encoding.decodeAll v (xs ++ ys) =
  match Encoding.decodeAll v xs with
  | Ok acc => Encoding.decodeAll acc ys
  | Thrown m => Thrown m
  end.
Proof.
  revert v. induction xs as [|x xs IH]; intros v; [done|].
  cbn [app Encoding.decodeAll]. destruct (Encoding.decode v x); [apply IH | done].
Qed.

(** X6.  Layers of known encodings come off in reverse order: for a
    well-formed string and a list of encodings from {plain, base64, hex,
    rot13}, [encodeChain] returns a string that [decodeChain], with the same
    list, turns back into the original. *)
Theorem encodeChain_decodeChain (s : jsstring) (encodings : list jsstring) :
  Forall (fun k => k ∈ kinds) encodings ->
  wellFormed s = true ->
  exists encoded, Encoding.encodeChain s encodings = Ok encoded
    /\ Encoding.decodeChain encoded encodings = Ok s.
Proof.
  intros Hks. revert s. induction Hks as [|k ks Hk _ IH]; intros s Hwf.
  - by exists s.
  - destruct (encode_known s k Hk Hwf) as (layer & Henc & Hdec & Hwf').
    destruct (IH layer Hwf') as (encoded & Hchain & Hback).
    exists encoded. cbn [Encoding.encodeChain]. rewrite Henc. split; [exact Hchain|].
    unfold Encoding.decodeChain in *. cbn [rev]. rewrite decodeAll_app, Hback.
    cbn [Encoding.decodeAll]. by rewrite Hdec.
Qed.

Lemma encodeChain_decodeChain_witness :
  exists encoded,
    Encoding.encodeChain [0x48; 0xE9; 0xD83D; 0xDE00] [js "rot13"; js "base64"; js "hex"]
      = Ok encoded
    /\ Encoding.decodeChain encoded [js "rot13"; js "base64"; js "hex"]
       = Ok [0x48; 0xE9; 0xD83D; 0xDE00].
Proof.
  apply (encodeChain_decodeChain [0x48; 0xE9; 0xD83D; 0xDE00]
           [js "rot13"; js "base64"; js "hex"]); [|reflexivity].
  unfold kinds. repeat constructor; rewrite !elem_of_cons; auto.
Defined.

Lemma encode_unknown (v k : jsstring) :
  k ∉ kinds ->
  Encoding.encode v k = Thrown (Encoding.unknownEncoding k)
  /\ Encoding.decode v k = Thrown (Encoding.unknownEncoding k).
Proof.
  intros Hk. unfold kinds in Hk. rewrite !not_elem_of_cons in Hk.
  destruct Hk as (H1 & H2 & H3 & H4 & _).
  unfold Encoding.encode, Encoding.decode, named.
  rewrite !bool_decide_eq_false_2 by done. done.
Qed.

(** X7.  An encoding name outside {plain, base64, hex, rot13} makes a chain
    throw, whatever the value: [encodeChain] reports the first such name of
    the list when the names before it are known, [decodeChain] the last one
    when the names after it are known. *)
Theorem chain_unknown_encoding (v : jsstring) (known others : list jsstring)
    (bad : jsstring) :
  Forall (fun k => k ∈ kinds) known ->
  bad ∉ kinds ->
  Encoding.encodeChain v (known ++ bad :: others) = Thrown (Encoding.unknownEncoding bad)
  /\ Encoding.decodeChain v (others ++ bad :: known) = Thrown (Encoding.unknownEncoding bad).
Proof.
  intros Hks Hbad. split.
  - revert v. induction Hks as [|k ks Hk _ IH]; intros v.
    + cbn [app Encoding.encodeChain]. by rewrite (proj1 (encode_unknown v bad Hbad)).
    + cbn [app Encoding.encodeChain].
      assert (exists acc, Encoding.encode v k = Ok acc) as [acc ->]; [|apply IH].
      unfold kinds in Hk. rewrite !elem_of_cons, elem_of_nil in Hk.
      destruct Hk as [-> | [-> | [-> | [-> | []]]]]; by eexists.
  - unfold Encoding.decodeChain. rewrite rev_app_distr. cbn [rev]. rewrite <- app_assoc.
    apply Forall_rev in Hks. revert v.
    induction Hks as [|k ks Hk _ IH]; intros v.
    + cbn [app Encoding.decodeAll]. by rewrite (proj2 (encode_unknown v bad Hbad)).
    + cbn [app Encoding.decodeAll].
      assert (exists acc, Encoding.decode v k = Ok acc) as [acc ->]; [|apply IH].
      unfold kinds in Hk. rewrite !elem_of_cons, elem_of_nil in Hk.
      destruct Hk as [-> | [-> | [-> | [-> | []]]]]; by eexists.
Qed.

Lemma chain_unknown_encoding_witness :
  Encoding.encodeChain (js "abc") [js "hex"; js "gzip"; js "zip"]
  = Thrown (js "Unknown encoding type: gzip").
Proof.
  apply (chain_unknown_encoding (js "abc") [js "hex"] [js "zip"] (js "gzip")).
  - unfold kinds. repeat constructor; rewrite !elem_of_cons; auto.
  - unfold kinds. rewrite !not_elem_of_cons. split_and!; try discriminate.
    apply not_elem_of_nil.
Defined.

(** X8.  The text encodings of a well-formed string are plain ASCII of a
    known length: [encodeHex] gives two lower-case hexadecimal digits per
    UTF-8 byte, and [encodeBase64] gives four characters of the base64
    alphabet (or [=]) per started group of three bytes. *)
Theorem encoded_text_shape (s : jsstring) :
  wellFormed s = true ->
  (length (Encoding.encodeHex s) = (2 * length (Buffer.fromUtf8 s))%nat
   /\ Forall isLowerHex (Encoding.encodeHex s))
  /\ (Z.of_nat (length (Encoding.encodeBase64 s))
        = 4 * ((Z.of_nat (length (Buffer.fromUtf8 s)) + 2) / 3)
      /\ Forall isBase64Text (Encoding.encodeBase64 s)).
Proof.
  intros Hwf. pose proof (fromUtf8_bytes s Hwf) as Hbytes. split.
  - by apply toHex_shape.
  - by apply (toBase64_shape_upto (length (Buffer.fromUtf8 s))).
Qed.

Lemma encoded_text_shape_witness :
  length (Encoding.encodeHex [0x48; 0xE9; 0x20AC])
  = (2 * length (Buffer.fromUtf8 [0x48; 0xE9; 0x20AC]%Z))%nat.
Proof.
  apply (encoded_text_shape [0x48; 0xE9; 0x20AC]). reflexivity.
Defined.

(** ** Identifiers, random choices, shuffling, signatures *)

Lemma list_lookup_total_hex (bs : list Z) :
  Forall isByte bs -> Z.of_nat (length (Buffer.toHex bs)) = 2 * Z.of_nat (length bs).
Proof. intros Hbs. destruct (toHex_shape bs Hbs) as [-> _]. lia. Qed.

Lemma map_byteValue_bytes (chunk : list Byte.byte) : Forall isByte (map Crypto.byteValue chunk).
Proof.
  induction chunk as [|b chunk IH]; constructor; [apply byteValue_bounds | exact IH].
Qed.

(** X9.  [generateId(n)], for n >= 0 and a source that still holds n
    bytes, consumes exactly those bytes and returns 2n lower-case
    hexadecimal digits from which the bytes can be read back, so that
    different bytes give different identifiers. *)
Theorem generateId_shape (n : Z) (w : World) :
  0 <= n ->
  (Z.to_nat n <= length (entropy w))%nat ->
  exists id,
    Crypto.generateId n w
      = Return id (mkWorld (drop (Z.to_nat n) (entropy w)) (uniform w))
    /\ Z.of_nat (length id) = 2 * n
    /\ Forall isLowerHex id
    /\ Buffer.fromHex id = map Crypto.byteValue (take (Z.to_nat n) (entropy w)).
Proof.
  intros Hn Hlen. unfold Crypto.generateId, bind, Crypto.randomBytes.
  destruct (Nat.leb_spec (Z.to_nat n) (length (entropy w))); [|lia].
  set (bytes := map Crypto.byteValue (take (Z.to_nat n) (entropy w))).
  assert (Hbytes : Forall isByte bytes) by apply map_byteValue_bytes.
  exists (Buffer.toHex bytes). split; [reflexivity|]. split_and!.
  - rewrite list_lookup_total_hex by done. unfold bytes.
    rewrite length_map, length_take. lia.
  - by apply toHex_shape.
  - by apply hex_roundtrip.
Qed.

Lemma generateId_shape_witness :
  exists id,
    Crypto.generateId 2 (mkWorld [Byte.x0a; Byte.xff; Byte.x01] [])
      = Return id (mkWorld [Byte.x01] [])
    /\ Z.of_nat (length id) = 4.
Proof.
  destruct (generateId_shape 2 (mkWorld [Byte.x0a; Byte.xff; Byte.x01] []))
    as (id & Hid & Hlen & _); [lia | simpl; lia |].
  exists id. split; [exact Hid | exact Hlen].
Defined.

Lemma sample_no_throw (bytesNeeded maxValid : Z) : forall fuel w message,
  Crypto.sample fuel bytesNeeded maxValid w <> Throw message.
Proof.
  induction fuel as [|fuel IH]; intros w message; [done|].
  cbn [Crypto.sample]. unfold bind, Crypto.randomBytes.
  destruct (_ <=? _)%nat; [|done].
  destruct (_ >? _); [apply IH | done].
Qed.

Lemma randomInt_no_throw (min max : Z) (w : World) (message : jsstring) :
  min <= max -> Crypto.randomInt min max w <> Throw message.
Proof.
  intros Hle. unfold Crypto.randomInt.
  destruct (Z.eqb_spec (max - min + 1) 0); [lia|].
  unfold bind. 
  destruct (Crypto.sample _ _ _ w) as [v w'| m |] eqn:Hs; [done | | done].
  by apply sample_no_throw in Hs.
Qed.

(** The first chunk of the tape decides [randomInt] when its value is not
    above [maxValid]. *)
Lemma randomInt_accepts (min max : Z) (accepted rest : list Byte.byte) (u : list Z) :
  min <= max ->
  let range := max - min + 1 in
  length accepted = Z.to_nat (Crypto.bytesNeededFor range) ->
  littleEndian (map Crypto.byteValue accepted)
    <= Crypto.maxValidFor (Crypto.bytesNeededFor range) range ->
  Crypto.randomInt min max (mkWorld (accepted ++ rest) u)
  = Return (min + littleEndian (map Crypto.byteValue accepted) mod range) (mkWorld rest u).
Proof.
  intros Hle range Hlen Hacc. unfold Crypto.randomInt. fold range.
  destruct (Z.eqb_spec range 0); [unfold range in *; lia|].
  unfold bind.
  rewrite (sample_first_accepted _ _ accepted rest u []); try done.
  - unfold ret. f_equal. f_equal.
    apply Z.rem_mod_nonneg; [|unfold range; lia].
    pose proof (littleEndian_bounds accepted). lia.
  - simpl. lia.
Qed.

(** X10.  [randomElement] throws on the empty array and only there; from
    a non-empty array it returns one of its elements, namely the one at
    the index that the first accepted candidate of the byte source
    denotes. *)
Theorem randomElement_member {A} (arr : list A) (w : World) :
  Crypto.randomElement (@nil A) w = Throw (js "Cannot select from empty array")
  /\ (arr <> [] ->
      (forall message, Crypto.randomElement arr w <> Throw message)
      /\ (forall x w', Crypto.randomElement arr w = Return x w' -> x ∈ arr)
      /\ (forall accepted rest u,
            let range := Z.of_nat (length arr) in
            length accepted = Z.to_nat (Crypto.bytesNeededFor range) ->
            Crypto.reduceBytes (map Crypto.byteValue accepted)
              <= Crypto.maxValidFor (Crypto.bytesNeededFor range) range ->
            exists x,
              arr !! Z.to_nat (Crypto.reduceBytes (map Crypto.byteValue accepted) mod range)
                = Some x
              /\ Crypto.randomElement arr (mkWorld (accepted ++ rest) u)
                 = Return x (mkWorld rest u))).
Proof.
  split; [reflexivity|]. intros Hne.
  destruct arr as [|first arr']; [done|]. clear Hne.
  unfold Crypto.randomElement.
  set (arr := first :: arr').
  assert (Hlen : 0 <= Z.of_nat (length arr) - 1) by (unfold arr; simpl; lia).
  split_and!.
  - intros message. unfold bind.
    destruct (Crypto.randomInt 0 (Z.of_nat (length arr) - 1) w) as [i w'| m |] eqn:Hi;
      [done | | done].
    by apply randomInt_no_throw in Hi.
  - intros x w' H. invert_bind H. apply ret_Return in H as [<- _].
    apply randomInt_bounds in H0; [|done].
    destruct (nth_in_or_default (Z.to_nat a) arr first) as [Hin | ->].
    + by apply list_elem_of_In.
    + apply elem_of_cons. by left.
  - intros accepted rest u. cbv zeta. set (range := Z.of_nat (length arr)).
    intros Hacc Hval. rewrite reduceBytes_littleEndian in *.
    set (v := littleEndian (map Crypto.byteValue accepted)) in *.
    assert (Hv : 0 <= v mod range < range) by (apply Z.mod_pos_bound; unfold range; lia).
    destruct (lookup_lt_is_Some_2 arr (Z.to_nat (v mod range))) as [x Hx];
      [unfold range in *; lia|].
    exists x. split; [exact Hx|].
    pose proof (randomInt_accepts 0 (Z.of_nat (length arr) - 1) accepted rest u Hlen) as Hr.
    cbv zeta in Hr.
    replace (Z.of_nat (length arr) - 1 - 0 + 1) with range in Hr by (unfold range; lia).
    specialize (Hr Hacc Hval). fold v in Hr. rewrite Z.add_0_l in Hr.
    unfold bind. fold range in Hr. rewrite Hr. unfold ret. f_equal.
    by apply nth_lookup_Some.
Qed.

Lemma randomElement_member_witness :
  exists x,
    [js "a"; js "b"; js "c"]
      !! Z.to_nat (Crypto.reduceBytes (map Crypto.byteValue [Byte.x04]) mod 3) = Some x
    /\ Crypto.randomElement [js "a"; js "b"; js "c"] (mkWorld ([Byte.x04] ++ []) [])
       = Return x (mkWorld [] []).
Proof.
  destruct (randomElement_member [js "a"; js "b"; js "c"] (mkWorld [] [])) as [_ Hne].
  destruct Hne as (_ & _ & Hdraw); [discriminate|].
  apply (Hdraw [Byte.x04] [] []); [reflexivity | by vm_compute].
Defined.

Lemma swap_Permutation {A} (i j : nat) (result : list A) :
  CryptoMore.swap i j result ≡ₚ result.
Proof.
  unfold CryptoMore.swap.
  destruct (result !! j) as [atJ|] eqn:Hj; [|done].
  destruct (result !! i) as [atI|] eqn:Hi; [|done].
  by apply Permutation_insert_swap.
Qed.

Lemma shuffleFrom_Permutation {A} (i : nat) : forall (result out : list A) (w w' : World),
  CryptoMore.shuffleFrom i result w = Return out w' -> out ≡ₚ result.
Proof.
  induction i as [|i IH]; intros result out w w' H.
  - by apply ret_Return in H as [<- _].
  - cbn [CryptoMore.shuffleFrom] in H. invert_bind H.
    apply IH in H. rewrite H. apply swap_Permutation.
Qed.

Lemma shuffleFrom_no_throw {A} (i : nat) : forall (result : list A) (w : World) message,
  CryptoMore.shuffleFrom i result w <> Throw message.
Proof.
  induction i as [|i IH]; intros result w message; [done|].
  cbn [CryptoMore.shuffleFrom]. unfold bind.
  destruct (Crypto.randomInt 0 (Z.of_nat (S i)) w) as [j w1| m |] eqn:Hj; [apply IH | | done].
  apply randomInt_no_throw in Hj; [done | lia].
Qed.

Lemma bytesNeededFor_mono (a b : Z) :
  a <= b -> Crypto.bytesNeededFor a <= Crypto.bytesNeededFor b.
Proof.
  intros Hab. unfold Crypto.bytesNeededFor.
  pose proof (Z.log2_up_le_mono a b Hab) as Hl.
  pose proof (Z.log2_up_nonneg a). pose proof (Z.log2_up_nonneg b).
  assert ((Z.log2_up a + 7) / 8 <= (Z.log2_up b + 7) / 8) by (apply Z.div_le_mono; lia).
  assert (0 <= (Z.log2_up a + 7) / 8) by (apply Z.div_pos; lia).
  destruct (Z.eqb_spec ((Z.log2_up a + 7) / 8) 0), (Z.eqb_spec ((Z.log2_up b + 7) / 8) 0); lia.
Qed.

Lemma littleEndian_zeros (k : nat) : littleEndian (map Crypto.byteValue (repeat Byte.x00 k)) = 0.
Proof. induction k as [|k IH]; [done|]. cbn [repeat map littleEndian]. rewrite IH. done. Qed.

(** On a tape of zero bytes every draw is accepted at once. *)
Lemma randomInt_zeros (max : Z) (n : nat) (u : list Z) :
  0 <= max ->
  (Z.to_nat (Crypto.bytesNeededFor (max + 1)) <= n)%nat ->
  Crypto.randomInt 0 max (zeros n u)
  = Return 0 (zeros (n - Z.to_nat (Crypto.bytesNeededFor (max + 1))) u).
Proof.
  intros Hmax Hn. set (k := Z.to_nat (Crypto.bytesNeededFor (max + 1))) in *.
  unfold zeros. replace n with (k + (n - k))%nat at 1 by lia. rewrite repeat_app.
  pose proof (randomInt_accepts 0 max (repeat Byte.x00 k) (repeat Byte.x00 (n - k)) u Hmax)
    as Hr.
  cbv zeta in Hr. replace (max - 0 + 1) with (max + 1) in Hr by lia.
  rewrite littleEndian_zeros in Hr. rewrite Hr; [done | by rewrite repeat_length |].
  destruct (maxValidFor_spec (max + 1)) as (Hq & -> & _); [lia|]. nia.
Qed.

Lemma shuffleFrom_zeros {A} (bound : Z) (u : list Z) (i : nat) :
  forall (result : list A) (n : nat),
  Z.of_nat i + 1 <= bound ->
  (i * Z.to_nat (Crypto.bytesNeededFor bound) <= n)%nat ->
  exists out w', CryptoMore.shuffleFrom i result (zeros n u) = Return out w'.
Proof.
  induction i as [|i IH]; intros result n Hb Hn; [by eexists _, _|].
  cbn [CryptoMore.shuffleFrom]. unfold bind.
  pose proof (bytesNeededFor_mono (Z.of_nat (S i) + 1) bound Hb) as Hmono.
  rewrite randomInt_zeros by lia.
  apply IH; lia.
Qed.

(** X11.  [shuffle] returns a rearrangement of its argument: it never
    throws, whatever it returns is a permutation of the array, and it does
    return when the byte source accepts every draw, as a long enough run of
    zero bytes does. *)
Theorem shuffle_permutation {A} (arr : list A) (w : World) :
  (forall message, CryptoMore.shuffle arr w <> Throw message)
  /\ (forall out w', CryptoMore.shuffle arr w = Return out w' -> out ≡ₚ arr)
  /\ (forall n u,
        (length arr * Z.to_nat (Crypto.bytesNeededFor (Z.of_nat (length arr))) <= n)%nat ->
        exists out w', CryptoMore.shuffle arr (zeros n u) = Return out w').
Proof.
  unfold CryptoMore.shuffle. split_and!.
  - intros message. apply shuffleFrom_no_throw.
  - intros out w'. apply shuffleFrom_Permutation.
  - intros n u Hn. destruct arr as [|x arr']; [by eexists _, _|].
    apply (shuffleFrom_zeros (Z.of_nat (length (x :: arr')))); [simpl; lia|].
    etrans; [|exact Hn]. apply Nat.mul_le_mono_r. lia.
Qed.

Lemma shuffle_permutation_witness :
  exists out w', CryptoMore.shuffle [js "a"; js "b"; js "c"] (zeros 3 []) = Return out w'.
Proof.
  destruct (shuffle_permutation [js "a"; js "b"; js "c"] (mkWorld [] [])) as (_ & _ & Hrun).
  apply (Hrun 3%nat []). by vm_compute.
Defined.

Section SignatureFacts.
Variable hmacSha256 : list Z -> list Z -> list Byte.byte.

(** X12.  [verifySignature] accepts the signature that [signChallenge]
    makes, and accepts a string exactly when it hex-decodes to the digest.
    Since hex decoding stops at the first pair that is not two hexadecimal
    digits, and at a single last unit, the genuine signature followed by
    such a rest is accepted too; and since the decoder reads only the low
    byte of a code unit, two strings with the same low bytes get the same
    verdict. *)
Theorem verifySignature_accepts (data secret signature : jsstring) :
  let digest := map Crypto.byteValue
                    (hmacSha256 (Buffer.fromUtf8 secret) (Buffer.fromUtf8 data)) in
  CryptoMore.verifySignature hmacSha256 data
    (Crypto.signChallenge hmacSha256 data secret) secret = true
  /\ (CryptoMore.verifySignature hmacSha256 data signature secret = true <->
      Buffer.fromHex signature = digest)
  /\ (forall t, stopsHex t = true ->
        CryptoMore.verifySignature hmacSha256 data
          (Crypto.signChallenge hmacSha256 data secret ++ t) secret = true)
  /\ (forall other, map lowByte other = map lowByte signature ->
        CryptoMore.verifySignature hmacSha256 data other secret
        = CryptoMore.verifySignature hmacSha256 data signature secret).
Proof.
  intros digest. unfold CryptoMore.verifySignature, Crypto.signChallenge. fold digest.
  assert (Hd : Forall isByte digest) by apply map_byteValue_bytes.
  rewrite hex_roundtrip by done. split_and!.
  - by rewrite timingSafeEqual_same.
  - split; [|intros ->; by rewrite timingSafeEqual_same].
    unfold Crypto.timingSafeEqual. destruct (bool_decide (length _ = length _)); [|done].
    by intros ->%bool_decide_eq_true.
  - intros t Ht.
    destruct (fromHex_stops (Buffer.toHex digest) t) as [-> _];
      [by apply hexPairs_toHex | done |].
    by rewrite hex_roundtrip, timingSafeEqual_same.
  - intros other Hlow.
    by rewrite <- (fromHex_lowByte other), Hlow, fromHex_lowByte.
Qed.
End SignatureFacts.

Lemma verifySignature_accepts_witness :
  let genuine := Crypto.signChallenge toyMac (js "data") (js "key") in
  CryptoMore.verifySignature toyMac (js "data") (genuine ++ js "!forged") (js "key") = true
  /\ CryptoMore.verifySignature toyMac (js "data") (genuine ++ js "0") (js "key") = true
  /\ CryptoMore.verifySignature toyMac (js "data") (map (fun c => c + 0x100) genuine)
       (js "key")
     = CryptoMore.verifySignature toyMac (js "data") genuine (js "key").
Proof.
  intros genuine.
  destruct (verifySignature_accepts toyMac (js "data") (js "key") genuine)
    as (_ & _ & Hrest & Hlow).
  split_and!.
  - apply (Hrest (js "!forged")). reflexivity.
  - apply (Hrest (js "0")). reflexivity.
  - apply (Hlow (map (fun c => c + 0x100) genuine)). reflexivity.
Defined.

(** ** The verifier: what it accepts, what a failure leaves behind *)

Section VerifyMore.
Variable hmacSha256 : list Z -> list Z -> list Byte.byte.
Variable config : UnCaptchaConfig.

(** The outcome of [verify] once admitted, the id matched, the clock is
    not past either expiry and the entry is in the store. *)
Lemma verify_checked now ch sol cid st stored :
  admitted config (now 0%nat) cid st ->
  Challenge.id ch = ChallengeSolution.challengeId sol ->
  now 1%nat <= Challenge.expiresAt ch ->
  Verifier.challengeStore st !! Challenge.id ch = Some stored ->
  now 2%nat <= ChallengeStore.expiresAt stored ->
  Verifier.verify hmacSha256 config now ch sol cid st =
    let st1 := counted config (now 0%nat) cid st in
    if negb (Crypto.safeCompare (Challenge.signature ch)
               (genuineSignature hmacSha256 config ch (ChallengeStore.expectedAnswer stored)))
    then (Verifier.failure (js "Invalid challenge signature") INVALID_SIGNATURE, st1)
    else if negb (Crypto.safeCompare (ChallengeSolution.solution sol)
                    (ChallengeStore.expectedAnswer stored))
    then (Verifier.failure (js "Incorrect solution") INVALID_SOLUTION, st1)
    else (mkResult true None None,
          Verifier.mkState
            (delete (Verifier.clientKeyOf cid) (Verifier.rateLimiter st1))
            (delete (Challenge.id ch) (Verifier.challengeStore st))).
Proof.
  intros Hadm Hid H1 Hst H2. rewrite verify_admitted by done. cbv zeta.
  rewrite bool_decide_eq_true_2 by done. simpl.
  destruct (Z.gtb_spec (now 1%nat) (Challenge.expiresAt ch)); [lia|].
  rewrite Hst.
  destruct (Z.gtb_spec (now 2%nat) (ChallengeStore.expiresAt stored)); [lia|].
  reflexivity.
Qed.

End VerifyMore.

(** X13.  [verify] accepts only what passed every check: when it returns
    valid = true the client was admitted by the limiter, the ids agree, the
    store holds an entry for the challenge, neither the challenge nor the
    entry had expired at the clock readings, and both the signature and the
    solution compare equal to the stored ones; for well-formed strings the
    solution is the stored answer itself. *)
Theorem verify_valid_only_if
    (hmacSha256 : list Z -> list Z -> list Byte.byte) (config : UnCaptchaConfig)
    (now : nat -> Z) (challenge : Challenge.t) (solution : ChallengeSolution.t)
    (clientIdentifier : option jsstring) (st : Verifier.state) :
  valid (Verifier.verify hmacSha256 config now challenge solution clientIdentifier st).1
    = true ->
  exists stored,
    Verifier.challengeStore st !! Challenge.id challenge = Some stored
    /\ admitted config (now 0%nat) clientIdentifier st
    /\ Challenge.id challenge = ChallengeSolution.challengeId solution
    /\ now 1%nat <= Challenge.expiresAt challenge
    /\ now 2%nat <= ChallengeStore.expiresAt stored
    /\ Crypto.safeCompare (Challenge.signature challenge)
         (genuineSignature hmacSha256 config challenge (ChallengeStore.expectedAnswer stored))
       = true
    /\ Crypto.safeCompare (ChallengeSolution.solution solution)
         (ChallengeStore.expectedAnswer stored) = true
    /\ (wellFormed (ChallengeSolution.solution solution) = true ->
        wellFormed (ChallengeStore.expectedAnswer stored) = true ->
        ChallengeSolution.solution solution = ChallengeStore.expectedAnswer stored).
Proof.
  intros Hvalid.
  destruct (admitted_dec config (now 0%nat) clientIdentifier st) as [Hadm|Hadm];
    [| destruct (verify_rate_limited hmacSha256 config now challenge solution
                   clientIdentifier st Hadm) as [m Hm];
       by rewrite Hm in Hvalid].
  rewrite verify_admitted in Hvalid by done. cbv zeta in Hvalid.
  destruct (bool_decide (Challenge.id challenge = ChallengeSolution.challengeId solution))
    eqn:Hid; simpl in Hvalid; [|done]. apply bool_decide_eq_true_1 in Hid.
  destruct (Z.gtb_spec (now 1%nat) (Challenge.expiresAt challenge)); [done|].
  destruct (Verifier.challengeStore st !! Challenge.id challenge) as [stored|]; [|done].
  destruct (Z.gtb_spec (now 2%nat) (ChallengeStore.expiresAt stored)); [done|].
  destruct (Crypto.safeCompare (Challenge.signature challenge) _) eqn:Hsig; [|done].
  destruct (Crypto.safeCompare (ChallengeSolution.solution solution) _) eqn:Hsol; [|done].
  exists stored. split_and!; try done.
  intros Hw1 Hw2. by apply safeCompare_well_formed.
Qed.

Lemma verify_valid_only_if_witness :
  let config := withDefaults (mkUserConfig (js "secret") None None None None) in
  let challenge :=
    Challenge.make (js "c0ffee") (js "code_transform") easy JNull 5000
      (Crypto.signChallenge toyMac
         (Verifier.signatureData (js "c0ffee") (js "code_transform") JNull 5000 (js "42"))
         (js "secret")) in
  let solution := ChallengeSolution.make (js "c0ffee") (js "42") in
  let st := Verifier.storeChallenge (js "c0ffee") (js "42") 5000 Verifier.create in
  exists stored,
    Verifier.challengeStore st !! js "c0ffee" = Some stored
    /\ js "42" = ChallengeStore.expectedAnswer stored.
Proof.
  intros config challenge solution st.
  destruct (verify_valid_only_if toyMac config (fun _ => 1000) challenge solution None st)
    as (stored & Hst & _ & _ & _ & _ & _ & Hcmp & Heq); [vm_compute; reflexivity|].
  exists stored. split; [exact Hst|]. apply Heq; [reflexivity|].
  apply (inj Some) in Hst. by subst stored.
Defined.

(** X14.  A wrong answer does not use up a challenge.  For a stored,
    unexpired challenge with its genuine signature and well-formed strings,
    a solution other than the stored answer is refused with
    INVALID_SOLUTION; the attempt is counted, the store keeps the entry,
    and a later call with the stored answer (unexpired, admitted) is
    accepted. *)
Theorem verify_wrong_solution_keeps_challenge
    (hmacSha256 : list Z -> list Z -> list Byte.byte) (config : UnCaptchaConfig)
    (now again : nat -> Z) (challenge : Challenge.t) (wrong : jsstring)
    (clientIdentifier : option jsstring) (st : Verifier.state) (stored : ChallengeStore.t) :
  let answer := ChallengeStore.expectedAnswer stored in
  let first :=
    Verifier.verify hmacSha256 config now challenge
      (ChallengeSolution.make (Challenge.id challenge) wrong) clientIdentifier st in
  Verifier.challengeStore st !! Challenge.id challenge = Some stored ->
  Challenge.signature challenge = genuineSignature hmacSha256 config challenge answer ->
  wellFormed wrong = true -> wellFormed answer = true -> wrong <> answer ->
  admitted config (now 0%nat) clientIdentifier st ->
  now 1%nat <= Challenge.expiresAt challenge ->
  now 2%nat <= ChallengeStore.expiresAt stored ->
  first = (Verifier.failure (js "Incorrect solution") INVALID_SOLUTION,
           counted config (now 0%nat) clientIdentifier st)
  /\ (admitted config (again 0%nat) clientIdentifier first.2 ->
      again 1%nat <= Challenge.expiresAt challenge ->
      again 2%nat <= ChallengeStore.expiresAt stored ->
      (Verifier.verify hmacSha256 config again challenge
         (ChallengeSolution.make (Challenge.id challenge) answer) clientIdentifier first.2).1
      = mkResult true None None).
Proof.
  intros answer first Hst Hsig Hw1 Hw2 Hne Hadm H1 H2. subst first.
  assert (Hfirst :
    Verifier.verify hmacSha256 config now challenge
      (ChallengeSolution.make (Challenge.id challenge) wrong) clientIdentifier st
    = (Verifier.failure (js "Incorrect solution") INVALID_SOLUTION,
       counted config (now 0%nat) clientIdentifier st)).
  { rewrite (verify_checked hmacSha256 config now challenge _ clientIdentifier st stored)
      by done.
    cbv zeta. fold answer. rewrite Hsig, safeCompare_same. simpl.
    destruct (Crypto.safeCompare wrong answer) eqn:Hcmp; [|done].
    apply safeCompare_well_formed in Hcmp; done. }
  rewrite Hfirst. split; [reflexivity|]. simpl. intros Hadm2 H3 H4.
  rewrite (verify_checked hmacSha256 config again challenge _ clientIdentifier _ stored)
    by done.
  cbv zeta. fold answer. simpl. by rewrite Hsig, !safeCompare_same.
Qed.

Lemma verify_wrong_solution_keeps_challenge_witness :
  let config := withDefaults (mkUserConfig (js "secret") None None None None) in
  let challenge :=
    Challenge.make (js "c0ffee") (js "code_transform") easy JNull 5000
      (Crypto.signChallenge toyMac
         (Verifier.signatureData (js "c0ffee") (js "code_transform") JNull 5000 (js "42"))
         (js "secret")) in
  let st := Verifier.storeChallenge (js "c0ffee") (js "42") 5000 Verifier.create in
  let first :=
    Verifier.verify toyMac config (fun _ => 1000) challenge
      (ChallengeSolution.make (js "c0ffee") (js "41")) None st in
  first.1 = Verifier.failure (js "Incorrect solution") INVALID_SOLUTION
  /\ (Verifier.verify toyMac config (fun _ => 2000) challenge
        (ChallengeSolution.make (js "c0ffee") (js "42")) None first.2).1
     = mkResult true None None.
Proof.
  intros config challenge st first.
  destruct (verify_wrong_solution_keeps_challenge toyMac config (fun _ => 1000)
              (fun _ => 2000) challenge (js "41") None st
              (ChallengeStore.make (js "42") 5000)) as [Hfirst Hagain];
    try reflexivity; try (simpl; lia); try discriminate.
  split.
  - exact (f_equal fst Hfirst).
  - apply Hagain; [vm_compute; reflexivity | simpl; lia | simpl; lia].
Defined.

(** ** The verifier: how many guesses, and whose *)

Lemma recordAttempt_lookup_ne (config : RateLimiter.RateLimitConfig) (now : Z)
    (key other : jsstring) (es : gmap (list Z) RateLimiter.RateLimitEntry) :
  other <> key ->
  (RateLimiter.recordAttempt config now key es).2 !! other = es !! other.
Proof.
  intros Hne. unfold RateLimiter.recordAttempt, RateLimiter.openWindow.
  destruct (es !! key) as [e|]; [destruct (now >? RateLimiter.resetAt e)|]; simpl;
    destruct (_ >=? _); simpl; by rewrite ?lookup_insert_ne.
Qed.

Lemma recordAttempt_result_local (config : RateLimiter.RateLimitConfig) (now : Z)
    (key : jsstring) (es es' : gmap (list Z) RateLimiter.RateLimitEntry) :
  es !! key = es' !! key ->
  (RateLimiter.recordAttempt config now key es).1
  = (RateLimiter.recordAttempt config now key es').1.
Proof.
  intros Heq. unfold RateLimiter.recordAttempt, RateLimiter.openWindow. rewrite Heq.
  destruct (es' !! key) as [e|]; [destruct (now >? RateLimiter.resetAt e)|]; simpl;
    by destruct (_ >=? _).
Qed.

Lemma isRateLimited_denies (config : RateLimiter.RateLimitConfig) (now : Z)
    (key : jsstring) (es : gmap (list Z) RateLimiter.RateLimitEntry) :
  0 < RateLimiter.maxAttempts config ->
  (RateLimiter.isRateLimited config now key es).1
  = negb (RateLimiter.allowed (RateLimiter.recordAttempt config now key es).1).
Proof.
  intros Hmax.
  unfold RateLimiter.isRateLimited, RateLimiter.recordAttempt, RateLimiter.openWindow.
  destruct (es !! key) as [e|].
  - destruct (now >? RateLimiter.resetAt e); simpl.
    + by destruct (Z.geb_spec 0 (RateLimiter.maxAttempts config)); [lia|].
    + by destruct (_ >=? _).
  - simpl. by destruct (Z.geb_spec 0 (RateLimiter.maxAttempts config)); [lia|].
Qed.

Section VerifyRuns.
Variable hmacSha256 : list Z -> list Z -> list Byte.byte.
Variable config : UnCaptchaConfig.


(** What [verify] leaves in the two maps. *)
Lemma verify_state_cases now ch sol cid st :
  let after := (Verifier.verify hmacSha256 config now ch sol cid st).2 in
  let counted :=
    (RateLimiter.recordAttempt (Verifier.limiterConfig config) (now 0%nat)
       (Verifier.clientKeyOf cid) (Verifier.rateLimiter st)).2 in
  (Verifier.rateLimiter after = counted
   \/ Verifier.rateLimiter after = delete (Verifier.clientKeyOf cid) counted)
  /\ (Verifier.challengeStore after = Verifier.challengeStore st
      \/ Verifier.challengeStore after
         = delete (Challenge.id ch) (Verifier.challengeStore st)).
Proof.
  cbv zeta. unfold Verifier.verify.
  destruct (RateLimiter.recordAttempt _ _ _ _) as [a es1]. simpl.
  repeat match goal with
         | |- context [if ?c then _ else _] => destruct c; simpl; auto
         | |- context [match ?c with Some _ => _ | None => _ end] =>
             destruct c; simpl; auto
         end.
Qed.

(** The result of [verify] depends on the two maps only at the client's
    key and at the challenge's id. *)
Lemma verify_result_local now ch sol cid st st' :
  Verifier.rateLimiter st !! Verifier.clientKeyOf cid
    = Verifier.rateLimiter st' !! Verifier.clientKeyOf cid ->
  Verifier.challengeStore st !! Challenge.id ch
    = Verifier.challengeStore st' !! Challenge.id ch ->
  (Verifier.verify hmacSha256 config now ch sol cid st).1
  = (Verifier.verify hmacSha256 config now ch sol cid st').1.
Proof.
  intros Hl Hs. unfold Verifier.verify.
  pose proof (recordAttempt_result_local (Verifier.limiterConfig config) (now 0%nat)
                (Verifier.clientKeyOf cid) _ _ Hl) as Hr.
  destruct (RateLimiter.recordAttempt _ _ _ (Verifier.rateLimiter st)) as [a es1].
  destruct (RateLimiter.recordAttempt _ _ _ (Verifier.rateLimiter st')) as [a' es1'].
  simpl in Hr. subst a'. simpl. rewrite Hs.
  repeat match goal with
         | |- context [if ?c then _ else _] => destruct c; simpl; auto
         | |- context [match ?c with Some _ => _ | None => _ end] =>
             destruct c; simpl; auto
         end.
Qed.
End VerifyRuns.



(** X16.  [verify] touches the store only at the challenge's id and the
    limiter only at the client's key; a verification of another challenge
    by another client gives the same result after it as before it. *)
Theorem verify_frame
    (hmacSha256 : list Z -> list Z -> list Byte.byte) (config : UnCaptchaConfig)
    (now : nat -> Z) (challenge : Challenge.t) (solution : ChallengeSolution.t)
    (clientIdentifier : option jsstring) (st : Verifier.state) :
  let after :=
    (Verifier.verify hmacSha256 config now challenge solution clientIdentifier st).2 in
  (forall id, id <> Challenge.id challenge ->
     Verifier.challengeStore after !! id = Verifier.challengeStore st !! id)
  /\ (forall key, key <> Verifier.clientKeyOf clientIdentifier ->
        Verifier.rateLimiter after !! key = Verifier.rateLimiter st !! key)
  /\ (forall now' challenge' solution' clientIdentifier',
        Challenge.id challenge' <> Challenge.id challenge ->
        Verifier.clientKeyOf clientIdentifier' <> Verifier.clientKeyOf clientIdentifier ->
        (Verifier.verify hmacSha256 config now' challenge' solution' clientIdentifier'
           after).1
        = (Verifier.verify hmacSha256 config now' challenge' solution' clientIdentifier'
             st).1).
Proof.
  intros after.
  destruct (verify_state_cases hmacSha256 config now challenge solution clientIdentifier st)
    as [Hl Hs]. fold after in Hl, Hs.
  assert (Hstore : forall id, id <> Challenge.id challenge ->
            Verifier.challengeStore after !! id = Verifier.challengeStore st !! id).
  { intros id Hne. destruct Hs as [-> | ->]; [done|]. by rewrite lookup_delete_ne. }
  assert (Hlimiter : forall key, key <> Verifier.clientKeyOf clientIdentifier ->
            Verifier.rateLimiter after !! key = Verifier.rateLimiter st !! key).
  { intros key Hne. destruct Hl as [-> | ->].
    - by apply recordAttempt_lookup_ne.
    - rewrite lookup_delete_ne by done. by apply recordAttempt_lookup_ne. }
  split_and!; [exact Hstore | exact Hlimiter |].
  intros now' challenge' solution' clientIdentifier' Hid Hkey.
  apply verify_result_local; [by apply Hlimiter | by apply Hstore].
Qed.

Lemma verify_frame_witness :
  let config := withDefaults (mkUserConfig (js "secret") None None None None) in
  let challenge id :=
    Challenge.make id (js "code_transform") easy JNull 5000
      (Crypto.signChallenge toyMac
         (Verifier.signatureData id (js "code_transform") JNull 5000 (js "42"))
         (js "secret")) in
  let st :=
    Verifier.storeChallenge (js "aa") (js "42") 5000
      (Verifier.storeChallenge (js "bb") (js "42") 5000 Verifier.create) in
  let after :=
    (Verifier.verify toyMac config (fun _ => 1000) (challenge (js "aa"))
       (ChallengeSolution.make (js "aa") (js "42")) (Some (js "alice")) st).2 in
  (Verifier.verify toyMac config (fun _ => 2000) (challenge (js "bb"))
     (ChallengeSolution.make (js "bb") (js "42")) (Some (js "bob")) after).1
  = (Verifier.verify toyMac config (fun _ => 2000) (challenge (js "bb"))
       (ChallengeSolution.make (js "bb") (js "42")) (Some (js "bob")) st).1.
Proof.
  intros config challenge st after.
  apply (verify_frame toyMac config (fun _ => 1000) (challenge (js "aa"))
           (ChallengeSolution.make (js "aa") (js "42")) (Some (js "alice")) st);
    discriminate.
Defined.

(** X17.  What [getRateLimitStatus] reports for a non-empty client
    identifier is what [verify] will do: with maxAttempts > 0 and both
    reads at one clock reading, isLimited holds exactly when remaining is
    0, and exactly when a [verify] by that client at the same instant is
    refused with RATE_LIMITED. *)
Theorem getRateLimitStatus_agrees_with_verify
    (hmacSha256 : list Z -> list Z -> list Byte.byte) (config : UnCaptchaConfig)
    (now : nat -> Z) (client : jsstring) (challenge : Challenge.t)
    (solution : ChallengeSolution.t) (st : Verifier.state) :
  client <> [] ->
  0 < RateLimiter.maxAttempts (rateLimit config) ->
  now 0%nat = now 1%nat ->
  let status := (Verifier.getRateLimitStatus config now client st).1 in
  (status.2 = true <-> status.1 = 0)
  /\ (status.2 = true <->
      errorCode (Verifier.verify hmacSha256 config (fun _ => now 0%nat) challenge solution
                   (Some client) st).1 = Some RATE_LIMITED).
Proof.
  intros Hclient Hmax Hnow status. subst status.
  unfold Verifier.getRateLimitStatus. rewrite <- Hnow.
  assert (Hkey : Verifier.clientKeyOf (Some client) = client) by by destruct client.
  pose proof (isRateLimited_denies (Verifier.limiterConfig config) (now 0%nat) client
                (Verifier.rateLimiter st)) as Hden.
  rewrite limiterConfig_eq in *. specialize (Hden Hmax).
  split.
  - clear Hden. unfold RateLimiter.isRateLimited, RateLimiter.getRemainingAttempts.
    destruct (Verifier.rateLimiter st !! client) as [e|]; simpl; [|split; [done | lia]].
    destruct (Z.gtb_spec (now 0%nat) (RateLimiter.resetAt e)); simpl; [split; [done | lia]|].
    destruct (Z.geb_spec (RateLimiter.count e) (RateLimiter.maxAttempts (rateLimit config)));
      split; try done; lia.
  - unfold Verifier.verify. rewrite Hkey, ?limiterConfig_eq. clear Hkey.
    destruct (RateLimiter.isRateLimited _ _ _ _) as [limited es1] eqn:Hlim.
    simpl in Hden. subst limited.
    destruct (RateLimiter.recordAttempt _ _ _ _) as [a es2]. simpl.
    destruct (RateLimiter.allowed a); simpl; [|done].
    split; [done|].
    repeat match goal with
           | |- context [if ?c then _ else _] => destruct c; simpl; try done
           | |- context [match ?c with Some _ => _ | None => _ end] =>
               destruct c; simpl; try done
           end.
Qed.

Lemma getRateLimitStatus_agrees_with_verify_witness :
  let config :=
    withDefaults (mkUserConfig (js "secret") None None None
                    (Some (RateLimiter.mkConfig 1 1000))) in
  let challenge := Challenge.make (js "c0ffee") (js "code_transform") easy JNull 5000 [] in
  let solution := ChallengeSolution.make (js "c0ffee") (js "42") in
  let st :=
    (Verifier.verify toyMac config (fun _ => 0) challenge solution (Some (js "agent"))
       Verifier.create).2 in
  (Verifier.getRateLimitStatus config (fun _ => 500) (js "agent") st).1 = (0, true)
  /\ errorCode (Verifier.verify toyMac config (fun _ => 500) challenge solution
                  (Some (js "agent")) st).1 = Some RATE_LIMITED.
Proof.
  intros config challenge solution st.
  assert (Hstatus : (Verifier.getRateLimitStatus config (fun _ => 500) (js "agent") st).1
                    = (0, true)) by (vm_compute; reflexivity).
  split; [exact Hstatus|].
  apply (getRateLimitStatus_agrees_with_verify toyMac config (fun _ => 500) (js "agent")
           challenge solution st); [discriminate | simpl; lia | reflexivity |].
  by rewrite Hstatus.
Defined.

Lemma signatureData_fields (id id' type type' : jsstring) (payload payload' : json)
    (expiresAt expiresAt' : Z) (answer answer' : jsstring) :
  Verifier.signatureData id type payload expiresAt answer
  = Verifier.signatureData id' type' payload' expiresAt' answer' ->
  id = id' /\ type = type' /\ payload = payload' /\ expiresAt = expiresAt'
  /\ answer = answer'.
Proof.
  unfold Verifier.signatureData. intros Heq. apply stringify_inj in Heq.
  by injection Heq as -> -> -> -> ->.
Qed.

(** X18.  The signature covers the type and the expiry as well as the
    payload: a stored challenge presented with its genuine signature but
    with another type, payload or expiresAt is refused with
    INVALID_SIGNATURE (before expiry, admitted, matching ids), provided
    HMAC-SHA256 does not collide on the two serializations, which are
    different strings. *)
Theorem verify_rejects_altered_fields
    (hmacSha256 : list Z -> list Z -> list Byte.byte) (config : UnCaptchaConfig)
    (now : nat -> Z) (challenge : Challenge.t) (type' : jsstring) (payload' : json)
    (expiresAt' : Z) (solution : ChallengeSolution.t)
    (clientIdentifier : option jsstring) (st : Verifier.state) (stored : ChallengeStore.t) :
  let answer := ChallengeStore.expectedAnswer stored in
  let altered :=
    Challenge.make (Challenge.id challenge) type' (Challenge.difficulty challenge)
      payload' expiresAt' (Challenge.signature challenge) in
  Verifier.challengeStore st !! Challenge.id challenge = Some stored ->
  Challenge.signature challenge = genuineSignature hmacSha256 config challenge answer ->
  (type', payload', expiresAt')
    <> (Challenge.type challenge, Challenge.payload challenge, Challenge.expiresAt challenge) ->
  (genuineSignature hmacSha256 config altered answer
   = genuineSignature hmacSha256 config challenge answer ->
   Verifier.signatureData (Challenge.id challenge) type' payload' expiresAt' answer
   = Verifier.signatureData (Challenge.id challenge) (Challenge.type challenge)
       (Challenge.payload challenge) (Challenge.expiresAt challenge) answer) ->
  ChallengeSolution.challengeId solution = Challenge.id challenge ->
  admitted config (now 0%nat) clientIdentifier st ->
  now 1%nat <= expiresAt' ->
  now 2%nat <= ChallengeStore.expiresAt stored ->
  Verifier.signatureData (Challenge.id challenge) type' payload' expiresAt' answer
    <> Verifier.signatureData (Challenge.id challenge) (Challenge.type challenge)
         (Challenge.payload challenge) (Challenge.expiresAt challenge) answer
  /\ (Verifier.verify hmacSha256 config now altered solution clientIdentifier st).1
     = mkResult false (Some (js "Invalid challenge signature")) (Some INVALID_SIGNATURE).
Proof.
  intros answer altered Hst Hsig Hne Hfree Hid Hadm H1 H2.
  assert (Hdiff :
    Verifier.signatureData (Challenge.id challenge) type' payload' expiresAt' answer
    <> Verifier.signatureData (Challenge.id challenge) (Challenge.type challenge)
         (Challenge.payload challenge) (Challenge.expiresAt challenge) answer).
  { intros Heq. apply signatureData_fields in Heq as (_ & -> & -> & -> & _). done. }
  split; [exact Hdiff|].
  rewrite (verify_checked hmacSha256 config now altered solution clientIdentifier st stored)
    by done.
  cbv zeta. fold answer.
  destruct (Crypto.safeCompare (Challenge.signature altered)
              (genuineSignature hmacSha256 config altered answer)) eqn:Hcmp; [|reflexivity].
  exfalso. apply safeCompare_well_formed in Hcmp;
    [| simpl; rewrite Hsig; apply signChallenge_wellFormed | apply signChallenge_wellFormed].
  simpl in Hcmp. rewrite Hsig in Hcmp. symmetry in Hcmp. by apply Hfree in Hcmp.
Qed.

Lemma verify_rejects_altered_fields_witness :
  let config := withDefaults (mkUserConfig (js "secret") None None None None) in
  let challenge :=
    Challenge.make (js "c0ffee") (js "code_transform") easy JNull 5000
      (Crypto.signChallenge toyMac
         (Verifier.signatureData (js "c0ffee") (js "code_transform") JNull 5000 (js "42"))
         (js "secret")) in
  let extended :=
    Challenge.make (js "c0ffee") (js "code_transform") easy JNull 9000
      (Challenge.signature challenge) in
  let st := Verifier.storeChallenge (js "c0ffee") (js "42") 5000 Verifier.create in
  (Verifier.verify toyMac config (fun _ => 1000) extended
     (ChallengeSolution.make (js "c0ffee") (js "42")) None st).1
  = mkResult false (Some (js "Invalid challenge signature")) (Some INVALID_SIGNATURE).
Proof.
  intros config challenge extended st.
  apply (verify_rejects_altered_fields toyMac config (fun _ => 1000) challenge
           (js "code_transform") JNull 9000
           (ChallengeSolution.make (js "c0ffee") (js "42")) None st
           (ChallengeStore.make (js "42") 5000)).
  - reflexivity.
  - reflexivity.
  - discriminate.
  - vm_compute. discriminate.
  - reflexivity.
  - vm_compute. reflexivity.
  - simpl. lia.
  - simpl. lia.
Defined.

(** ** Stateless verification: replay *)

(** X19.  Stateless verification has no one-time use.  A challenge that
    carries the genuine signature for an answer is accepted with that
    answer (unexpired, admitted), and accepted again when the same
    submission is replayed; a submission with any other solution is
    refused with INVALID_SOLUTION, provided HMAC-SHA256 does not collide on
    the two serializations. *)
Theorem verifyStateless_accepts_and_replays
    (hmacSha256 : list Z -> list Z -> list Byte.byte) (config : UnCaptchaConfig)
    (now again : nat -> Z) (challenge : Challenge.t) (answer other : jsstring)
    (clientIdentifier : option jsstring) (st : Verifier.state) :
  let submit solution clock state :=
    Verifier.verifyStateless hmacSha256 config clock challenge
      (ChallengeSolution.make (Challenge.id challenge) solution) clientIdentifier state in
  Challenge.signature challenge = genuineSignature hmacSha256 config challenge answer ->
  admitted config (now 0%nat) clientIdentifier st ->
  now 1%nat <= Challenge.expiresAt challenge ->
  (submit answer now st).1 = mkResult true None None
  /\ (admitted config (again 0%nat) clientIdentifier (submit answer now st).2 ->
      again 1%nat <= Challenge.expiresAt challenge ->
      (submit answer again (submit answer now st).2).1 = mkResult true None None)
  /\ (other <> answer ->
      (genuineSignature hmacSha256 config challenge other
       = genuineSignature hmacSha256 config challenge answer ->
       Verifier.signatureData (Challenge.id challenge) (Challenge.type challenge)
         (Challenge.payload challenge) (Challenge.expiresAt challenge) other
       = Verifier.signatureData (Challenge.id challenge) (Challenge.type challenge)
           (Challenge.payload challenge) (Challenge.expiresAt challenge) answer) ->
      (submit other now st).1
      = mkResult false (Some (js "Incorrect solution")) (Some INVALID_SOLUTION)).
Proof.
  intros submit Hsig Hadm H1. subst submit. cbv beta.
  assert (Haccept : forall clock state,
            admitted config (clock 0%nat) clientIdentifier state ->
            clock 1%nat <= Challenge.expiresAt challenge ->
            forall solution,
            (Verifier.verifyStateless hmacSha256 config clock challenge
               (ChallengeSolution.make (Challenge.id challenge) solution)
               clientIdentifier state).1
            = if negb (Crypto.safeCompare (Challenge.signature challenge)
                         (genuineSignature hmacSha256 config challenge solution))
              then mkResult false (Some (js "Incorrect solution")) (Some INVALID_SOLUTION)
              else mkResult true None None).
  { intros clock state Ha Hc solution. unfold admitted in Ha.
    unfold Verifier.verifyStateless, genuineSignature.
    destruct (RateLimiter.recordAttempt _ _ _ _) as [a es1]. simpl in *. rewrite Ha. simpl.
    rewrite bool_decide_eq_true_2 by done. simpl.
    destruct (Z.gtb_spec (clock 1%nat) (Challenge.expiresAt challenge)); [lia|].
    by destruct (Crypto.safeCompare _ _). }
  split_and!.
  - rewrite Haccept by done. by rewrite Hsig, safeCompare_same.
  - intros Hadm2 H2. rewrite Haccept by done. by rewrite Hsig, safeCompare_same.
  - intros Hne Hfree. rewrite Haccept by done.
    destruct (Crypto.safeCompare _ _) eqn:Hcmp; [|reflexivity].
    exfalso. rewrite Hsig in Hcmp.
    apply safeCompare_well_formed in Hcmp; [|apply signChallenge_wellFormed..].
    symmetry in Hcmp. apply Hfree in Hcmp.
    apply signatureData_fields in Hcmp as (_ & _ & _ & _ & Heq). done.
Qed.

Lemma verifyStateless_accepts_and_replays_witness :
  let config := withDefaults (mkUserConfig (js "secret") None None None None) in
  let challenge :=
    Challenge.make (js "c0ffee") (js "code_transform") easy JNull 5000
      (Crypto.signChallenge toyMac
         (Verifier.signatureData (js "c0ffee") (js "code_transform") JNull 5000 (js "42"))
         (js "secret")) in
  let solution := ChallengeSolution.make (js "c0ffee") (js "42") in
  let first :=
    Verifier.verifyStateless toyMac config (fun _ => 1000) challenge solution None
      Verifier.create in
  first.1 = mkResult true None None
  /\ (Verifier.verifyStateless toyMac config (fun _ => 2000) challenge solution None
        first.2).1 = mkResult true None None.
Proof.
  intros config challenge solution first.
  destruct (verifyStateless_accepts_and_replays toyMac config (fun _ => 1000)
              (fun _ => 2000) challenge (js "42") (js "41") None Verifier.create)
    as (Hfirst & Hreplay & _); [reflexivity | vm_compute; reflexivity | simpl; lia |].
  split; [exact Hfirst|].
  apply Hreplay; [vm_compute; reflexivity | simpl; lia].
Defined.

(** ** The verifier's sweep *)

Lemma verifier_cleanup_lookup (swept : Z) (st : Verifier.state) (id : jsstring) :
  Verifier.challengeStore (Verifier.cleanup swept st) !! id =
  match Verifier.challengeStore st !! id with
  | Some stored => if swept >? ChallengeStore.expiresAt stored then None else Some stored
  | None => None
  end.
Proof.
  unfold Verifier.cleanup. simpl. rewrite map_lookup_filter.
  destruct (Verifier.challengeStore st !! id) as [stored|]; simpl; [|done].
  by destruct (swept >? ChallengeStore.expiresAt stored).
Qed.

Lemma verifier_cleanup_delete (swept : Z) (st : Verifier.state) (id : jsstring) :
  Verifier.challengeStore
    (Verifier.cleanup swept
       (Verifier.withStore (delete id (Verifier.challengeStore st)) st))
  = delete id (Verifier.challengeStore (Verifier.cleanup swept st)).
Proof. unfold Verifier.cleanup. simpl. apply map_filter_delete. Qed.

(** X20.  The verifier's periodic sweep never changes whether a solution
    is accepted.  After a [cleanup] that ran no later than the clock
    reading of the stored-expiry check, [verify] gives the same result
    unless the sweep removed the challenge's entry, in which case EXPIRED
    becomes CHALLENGE_NOT_FOUND; and sweeping after the call leads to the
    same state as sweeping before it. *)
Theorem verifier_cleanup_unobservable
    (hmacSha256 : list Z -> list Z -> list Byte.byte) (config : UnCaptchaConfig)
    (swept : Z) (now : nat -> Z) (challenge : Challenge.t) (solution : ChallengeSolution.t)
    (clientIdentifier : option jsstring) (st : Verifier.state) :
  let before :=
    Verifier.verify hmacSha256 config now challenge solution clientIdentifier st in
  let after :=
    Verifier.verify hmacSha256 config now challenge solution clientIdentifier
      (Verifier.cleanup swept st) in
  swept <= now 2%nat ->
  valid after.1 = valid before.1
  /\ (Verifier.challengeStore (Verifier.cleanup swept st) !! Challenge.id challenge
        = Verifier.challengeStore st !! Challenge.id challenge ->
      after.1 = before.1)
  /\ (after.1 <> before.1 ->
      errorCode before.1 = Some EXPIRED /\ errorCode after.1 = Some CHALLENGE_NOT_FOUND)
  /\ after.2 = Verifier.cleanup swept before.2.
Proof.
  intros before after Hle. subst before after.
  pose proof (verifier_cleanup_lookup swept st (Challenge.id challenge)) as Hlook.
  pose proof (verifier_cleanup_delete swept st (Challenge.id challenge)) as Hdel.
  unfold Verifier.verify.
  change (Verifier.rateLimiter (Verifier.cleanup swept st)) with (Verifier.rateLimiter st).
  destruct (RateLimiter.recordAttempt _ _ _ _) as [a es1].
  destruct (negb (RateLimiter.allowed a)); [by split_and!|].
  destruct (negb (bool_decide _)); [by split_and!|].
  destruct (now 1%nat >? Challenge.expiresAt challenge); [by split_and!|].
  change (Verifier.challengeStore (Verifier.withLimiter es1 (Verifier.cleanup swept st)))
    with (Verifier.challengeStore (Verifier.cleanup swept st)).
  change (Verifier.challengeStore (Verifier.withLimiter es1 st))
    with (Verifier.challengeStore st).
  rewrite Hlook.
  assert (Hstate : forall store,
            Verifier.withStore store (Verifier.withLimiter es1 (Verifier.cleanup swept st))
            = Verifier.mkState es1 store) by done.
  destruct (Verifier.challengeStore st !! Challenge.id challenge) as [stored|] eqn:Hst;
    [|by split_and!].
  destruct (Z.gtb_spec swept (ChallengeStore.expiresAt stored)) as [Hs|Hs].
  - destruct (Z.gtb_spec (now 2%nat) (ChallengeStore.expiresAt stored)); [|lia].
    simpl. split_and!; try done.
    unfold Verifier.cleanup, Verifier.withStore, Verifier.withLimiter. simpl. f_equal.
    rewrite map_filter_delete. symmetry. apply delete_id.
    rewrite map_lookup_filter, Hst. simpl.
    by destruct (Z.gtb_spec swept (ChallengeStore.expiresAt stored)); [|lia].
  - destruct (now 2%nat >? ChallengeStore.expiresAt stored).
    { simpl. split_and!; try done.
      unfold Verifier.cleanup, Verifier.withStore, Verifier.withLimiter. simpl. f_equal.
      by rewrite map_filter_delete. }
    destruct (negb (Crypto.safeCompare (Challenge.signature challenge) _));
      [by split_and!|].
    destruct (negb (Crypto.safeCompare (ChallengeSolution.solution solution) _));
      [by split_and!|].
    simpl. split_and!; try done.
    unfold Verifier.cleanup, Verifier.withStore, Verifier.withLimiter,
      RateLimiter.reset. simpl. f_equal.
    by rewrite map_filter_delete.
Qed.

Lemma verifier_cleanup_unobservable_witness :
  let config := withDefaults (mkUserConfig (js "secret") None None None None) in
  let challenge :=
    Challenge.make (js "c0ffee") (js "code_transform") easy JNull 5000
      (Crypto.signChallenge toyMac
         (Verifier.signatureData (js "c0ffee") (js "code_transform") JNull 5000 (js "42"))
         (js "secret")) in
  let solution := ChallengeSolution.make (js "c0ffee") (js "42") in
  let st := Verifier.storeChallenge (js "c0ffee") (js "42") 5000 Verifier.create in
  valid (Verifier.verify toyMac config (fun _ => 3000) challenge solution None
           (Verifier.cleanup 2000 st)).1
  = valid (Verifier.verify toyMac config (fun _ => 3000) challenge solution None st).1.
Proof.
  intros config challenge solution st.
  apply (verifier_cleanup_unobservable toyMac config 2000 (fun _ => 3000) challenge
           solution None st).
  simpl. lia.
Defined.

(** ** The client: running a payload *)

Lemma randomElement_elem_of {A} (arr : list A) (w w' : World) (x : A) :
  Crypto.randomElement arr w = Return x w' -> x ∈ arr.
Proof.
  destruct arr as [|first arr']; [done|]. unfold Crypto.randomElement.
  intros H. invert_bind H. apply ret_Return in H as [<- _].
  destruct (nth_in_or_default (Z.to_nat a) (first :: arr') first) as [Hin | ->].
  - by apply list_elem_of_In.
  - apply elem_of_cons. by left.
Qed.

Lemma number_safe (n : Z) : Z.abs n <= 2 ^ 53 -> Executor.number n = Executor.Done n.
Proof.
  intros Hn. unfold Executor.number. by destruct (Z.leb_spec (Z.abs n) (2 ^ 53)); [|lia].
Qed.

Lemma digitsOf_digits (d : Decimal.uint) : Forall (fun c => 48 <= c <= 57) (digitsOf d).
Proof. induction d; constructor; (lia || done). Qed.

Lemma span_run (class : Z -> bool) (run after : jsstring) :
  Forall (fun c => class c = true) run ->
  match after with [] => True | c :: _ => class c = false end ->
  Executor.span class (run ++ after) = (run, after).
Proof.
  intros Hrun Hafter. induction Hrun as [|c run Hc _ IH].
  - destruct after as [|c after]; [done|]. simpl. by rewrite Hafter.
  - cbn [app Executor.span]. by rewrite Hc, IH.
Qed.

Lemma digits_fold_acc (d : Decimal.uint) : forall acc : positive,
  fold_left (fun acc c => 10 * acc + (c - 48)) (digitsOf d) (Z.pos acc)
  = Z.pos (Pos.of_uint_acc d acc).
Proof.
  induction d; intros acc; cbn [digitsOf fold_left Pos.of_uint_acc]; [done | ..];
    rewrite <- IHd; f_equal; lia.
Qed.

Lemma digits_fold (d : Decimal.uint) :
  fold_left (fun acc c => 10 * acc + (c - 48)) (digitsOf d) 0 = Z.of_N (Pos.of_uint d).
Proof.
  induction d; cbn [digitsOf fold_left Pos.of_uint]; [done | exact IHd | ..];
    cbn [Z.of_N]; rewrite <- digits_fold_acc; f_equal.
Qed.

(** The decimal digits of a number that is not negative, and their
    value. *)
Lemma numberToString_digits (n : Z) :
  0 <= n ->
  numberToString n <> []
  /\ Forall (fun c => Executor.isDigit c = true) (numberToString n)
  /\ fold_left (fun acc c => 10 * acc + (c - 48)) (numberToString n) 0 = n.
Proof.
  intros Hn. unfold numberToString.
  pose proof (to_int_digits n) as Hd. pose proof (DecimalZ.of_to n) as Hof.
  destruct (Z.to_int n) as [d|d] eqn:Hint.
  - split_and!.
    + destruct (digitsOf_head d Hd) as (c & rest & -> & _). done.
    + eapply Forall_impl; [apply digitsOf_digits|]. intros c Hc. cbv beta in Hc.
      unfold Executor.isDigit, Buffer.inRange. apply andb_true_iff.
      split; apply Z.leb_le; lia.
    + rewrite digits_fold. exact Hof.
  - exfalso. destruct n as [|p|p]; simpl in Hint; try discriminate. lia.
Qed.

(** *** Chained operations *)

Lemma rem_abs_le (a b : Z) : b <> 0 -> Z.abs (Z.rem a b) <= Z.abs a.
Proof. intros Hb. rewrite <- Z.rem_abs by done. apply Z.rem_le; lia. Qed.

Lemma andThen_Done {A B} (a : A) (k : A -> Executor.ran B) :
  Executor.andThen (Executor.Done a) k = k a.
Proof. reflexivity. Qed.

Ltac pick_case :=
  unfold named;
  repeat (rewrite bool_decide_eq_false_2 by discriminate);
  rewrite ?bool_decide_eq_true_2 by reflexivity.

(** One round of the generator's loop, seen by the executor: without
    [power], [ceil] and [negate] the executor computes the generator's
    running value, which grows at most tenfold (and by 50). *)
Lemma chained_step (o : Generator.Operation) (value : option Z) (current : Z)
    (w w' : World) :
  o ∈ [Generator.add; Generator.subtract; Generator.multiply; Generator.modulo;
       Generator.floor; Generator.abs] ->
  Generator.operandFor o w = Return value w' ->
  (Z.abs current + 6) * 10 <= 2 ^ 53 ->
  Executor.operationOf (Generator.chainedOperation o value)
    = Some (Generator.operationName o, value)
  /\ Executor.applyStep current (Generator.operationName o) value
     = Executor.Done (Generator.applyOperation o value current)
  /\ Z.abs (Generator.applyOperation o value current) + 6 <= (Z.abs current + 6) * 10.
Proof.
  intros Ho Hv Hsafe. rewrite !elem_of_cons, elem_of_nil in Ho.
  destruct Ho as [-> | [-> | [-> | [-> | [-> | [-> | []]]]]]];
    cbn [Generator.operandFor] in Hv;
    try (invert_bind Hv; apply ret_Return in Hv as [<- _];
         apply randomInt_bounds in H; [|lia]);
    try (apply ret_Return in Hv as [<- _]);
    (split; [reflexivity|]);
    unfold Executor.applyStep; cbn [Generator.operationName Generator.applyOperation default];
    pick_case; cbn [default id].
  - rewrite !number_safe by lia. cbn [Executor.andThen]. rewrite number_safe by lia.
    split; [done | lia].
  - rewrite !number_safe by lia. cbn [Executor.andThen]. rewrite number_safe by lia.
    split; [done | lia].
  - rewrite !number_safe by lia. cbn [Executor.andThen]. 
    assert (Z.abs (current * a) + 6 <= (Z.abs current + 6) * 10) by (rewrite Z.abs_mul; nia).
    rewrite number_safe by lia. split; [done | lia].
  - rewrite bool_decide_eq_false_2 by (intros [= ->]; lia).
    rewrite !number_safe by lia. cbn [Executor.andThen].
    pose proof (rem_abs_le current a ltac:(lia)).
    rewrite number_safe by lia. split; [done | lia].
  - split; [done | lia].
  - rewrite number_safe by lia. split; [done | lia].
Qed.

Lemma chain_executes (count : nat) : forall (current : Z) (w w' : World)
    (operations : list json) (final : Z),
  Generator.chain count
    [Generator.add; Generator.subtract; Generator.multiply; Generator.modulo;
     Generator.floor; Generator.abs] current w = Return (operations, final) w' ->
  (Z.abs current + 6) * 10 ^ Z.of_nat count <= 2 ^ 53 ->
  exists typed,
    Executor.operationsOf operations = Some typed
    /\ Executor.executeChainedOperations current typed = Executor.Done final
    /\ Z.abs final + 6 <= (Z.abs current + 6) * 10 ^ Z.of_nat count
    /\ length operations = count.
Proof.
  induction count as [|count IH]; intros current w w' operations final H Hsafe.
  - apply ret_Return in H as [[= <- <-] _]. exists []. split_and!; try done. simpl. lia.
  - cbn [Generator.chain] in H. invert_bind H. invert_bind H. invert_bind H.
    destruct a1 as [more final']. apply ret_Return in H as [[= <- <-] _].
    rewrite Nat2Z.inj_succ, Z.pow_succ_r in * by lia.
    assert (0 < 10 ^ Z.of_nat count) by (apply Z.pow_pos_nonneg; lia).
    destruct (chained_step a a0 current w0 w1) as (Hop & Hstep & Hgrow);
      [by eapply randomElement_elem_of | done | nia |].
    destruct (IH _ _ _ _ _ H2) as (typed & Htyped & Hrun & Hfinal & Hlen); [nia|].
    exists ((Generator.operationName a, a0) :: typed).
    cbn [Executor.operationsOf Executor.executeChainedOperations].
    rewrite Hop, Htyped, Hstep. cbn [Executor.andThen]. split_and!; try done.
    + nia.
    + simpl. by rewrite Hlen.
Qed.

Lemma getResponseEncoding_known (difficulty : ChallengeDifficulty) (w w' : World)
    (encoding : jsstring) :
  Generator.getResponseEncoding difficulty w = Return encoding w' ->
  encoding ∈ kinds /\ encoding <> [].
Proof.
  unfold kinds. destruct difficulty; cbn [Generator.getResponseEncoding]; intros H.
  - apply ret_Return in H as [<- _]. split; [|done]. rewrite !elem_of_cons. auto.
  - apply randomElement_elem_of in H. rewrite !elem_of_cons, elem_of_nil in H.
    destruct H as [-> | [-> | []]]; (split; [|done]); rewrite !elem_of_cons; auto.
  - apply randomElement_elem_of in H. rewrite !elem_of_cons, elem_of_nil in H.
    destruct H as [-> | [-> | []]]; (split; [|done]); rewrite !elem_of_cons; auto.
Qed.

Lemma lift_Return {A} (r : result A) (a : A) (w w' : World) :
  lift r w = Return a w' -> r = Ok a /\ w = w'.
Proof. destruct r; [|done]. by intros [-> ->]%ret_Return. Qed.

(** What [solve] returns for a payload that runs to a number. *)
Lemma solve_done (now : nat -> Z) (challenge : Challenge.t) (raw : Z)
    (encoding answer : jsstring) :
  now 1%nat <= Challenge.expiresAt challenge ->
  Executor.executePayload (Challenge.payload challenge) = Executor.Done raw ->
  Solver.responseEncodingOf (Challenge.payload challenge) = Some encoding ->
  Encoding.encode (numberToString raw) encoding = Ok answer ->
  Solver.solve now challenge = Some (solved now answer).
Proof.
  intros Hnow Hrun Henc Hanswer. unfold Solver.solve.
  destruct (Z.gtb_spec (now 1%nat) (Challenge.expiresAt challenge)); [lia|].
  by rewrite Hrun, Henc, Hanswer.
Qed.

Lemma responseEncodingOf_last (fields : list (jsstring * json)) (encoding : jsstring) :
  encoding <> [] ->
  Solver.responseEncodingOf (JObj (fields ++ [(js "responseEncoding", JStr encoding)]))
  = Some encoding.
Proof.
  intros Hne. unfold Solver.responseEncodingOf.
  assert (Executor.member (js "responseEncoding")
            (fields ++ [(js "responseEncoding", JStr encoding)]) = Some (JStr encoding))
    as ->.
  { induction fields as [|[k v] fields IH]; [reflexivity|].
    cbn [app Executor.member]. by rewrite IH. }
  by destruct encoding.
Qed.

Lemma chained_operations_runs (difficulty : ChallengeDifficulty) (w w' : World)
    (payload : json) (expectedAnswer : jsstring) :
  Generator.generateChainedOperations difficulty w = Return (payload, expectedAnswer) w' ->
  difficulty <> hard ->
  exists result encoding,
    Executor.executePayload payload = Executor.Done result
    /\ Z.abs result <= 2 ^ 53
    /\ Solver.responseEncodingOf payload = Some encoding
    /\ Encoding.encode (numberToString result) encoding = Ok expectedAnswer.
Proof.
  intros Hgen Hd. unfold Generator.generateChainedOperations in Hgen.
  apply bind_Return in Hgen as (initialValue & w0 & Hinit & Hgen).
  apply bind_Return in Hgen as ([operations final] & w1 & Hchain & Hgen).
  apply bind_Return in Hgen as (encoding & w2 & Henc & Hgen).
  apply bind_Return in Hgen as (answer & w3 & Hanswer & Hgen).
  apply ret_Return in Hgen as [Heq _]. injection Heq as Hp He. subst answer.
  apply lift_Return in Hanswer as [Hanswer _].
  apply randomInt_bounds in Hinit; [|lia].
  destruct (getResponseEncoding_known _ _ _ _ Henc) as [_ Hne].
  assert (Hops : [Generator.add; Generator.subtract; Generator.multiply; Generator.modulo;
                  Generator.floor; Generator.abs]
                 ++ match difficulty with
                    | hard => [Generator.power; Generator.ceil; Generator.negate]
                    | _ => []
                    end
                 = [Generator.add; Generator.subtract; Generator.multiply; Generator.modulo;
                    Generator.floor; Generator.abs]) by by destruct difficulty.
  rewrite Hops in Hchain.
  assert (Hcount : (Generator.byDifficulty difficulty 3 5 7 <= 5)%nat)
    by (destruct difficulty; simpl; (lia || done)).
  assert (Hpow : 10 ^ Z.of_nat (Generator.byDifficulty difficulty 3 5 7) <= 10 ^ 5)
    by (apply Z.pow_le_mono_r; lia).
  assert (0 < 10 ^ Z.of_nat (Generator.byDifficulty difficulty 3 5 7))
    by (apply Z.pow_pos_nonneg; lia).
  assert (Hroom : (Z.abs initialValue + 6)
                  * 10 ^ Z.of_nat (Generator.byDifficulty difficulty 3 5 7) <= 2 ^ 53).
  { assert ((Z.abs initialValue + 6)
            * 10 ^ Z.of_nat (Generator.byDifficulty difficulty 3 5 7) <= 106 * 10 ^ 5) by nia.
    assert (106 * 10 ^ 5 <= 2 ^ 53) by by vm_compute. lia. }
  destruct (chain_executes _ _ _ _ _ _ Hchain Hroom) as (typed & Htyped & Hrun & Hfinal & _).
  assert (Hbound : Z.abs final <= 2 ^ 53) by lia.
  assert (Hexec : Executor.executePayload payload = Executor.Done final).
  { rewrite <- Hp.
    change (match Executor.operationsOf operations with
            | Some typed =>
                Executor.andThen (Executor.number initialValue)
                  (fun start => Executor.executeChainedOperations start typed)
            | None => Executor.Beyond
            end = Executor.Done final).
    rewrite Htyped, number_safe by lia. exact Hrun. }
  exists final, encoding. split_and!; try done.
  rewrite <- Hp.
  apply (responseEncodingOf_last
             [(js "type", JStr (js "chained_operations"));
              (js "initialValue", JNum initialValue);
              (js "operations", JArr operations)]). exact Hne.
Qed.

(** X21.  The client computes the generator's answer for chained
    operations.  For an easy or medium challenge made by
    [generateChainedOperations], every running value stays below 2^53 in
    magnitude, [executePayload] returns the generator's final value, and
    [solve], before expiry, succeeds with the expected answer. *)
Theorem solve_chained_operations (difficulty : ChallengeDifficulty) (w w' : World)
    (payload : json) (expectedAnswer : jsstring) (now : nat -> Z) (challenge : Challenge.t) :
  Generator.generateChainedOperations difficulty w = Return (payload, expectedAnswer) w' ->
  difficulty <> hard ->
  Challenge.payload challenge = payload ->
  now 1%nat <= Challenge.expiresAt challenge ->
  (exists final encoding,
     Executor.executePayload payload = Executor.Done final
     /\ Z.abs final <= 2 ^ 53
     /\ Encoding.encode (numberToString final) encoding = Ok expectedAnswer)
  /\ Solver.solve now challenge = Some (solved now expectedAnswer).
Proof.
  intros Hgen Hd Hpayload Hnow.
  destruct (chained_operations_runs _ _ _ _ _ Hgen Hd)
    as (result & encoding & Hrun & Hbound & Henc & Hanswer).
  split; [exists result, encoding; by split_and!|].
  apply (solve_done now challenge result encoding); by rewrite ?Hpayload.
Qed.

Lemma solve_chained_operations_witness :
  exists payload expectedAnswer w',
    Generator.generateChainedOperations medium sampleWorld
      = Return (payload, expectedAnswer) w'
    /\ Solver.solve (fun _ => 1500)
         (Challenge.make (js "c0ffee") (js "chained_operations") medium payload 5000 [])
       = Some (solved (fun _ => 1500) expectedAnswer).
Proof.
  destruct (Generator.generateChainedOperations medium sampleWorld)
    as [[payload expectedAnswer] w'| |] eqn:Hgen;
    [| vm_compute in Hgen; discriminate Hgen ..].
  exists payload, expectedAnswer, w'. split; [reflexivity|].
  apply (solve_chained_operations medium sampleWorld w' payload expectedAnswer
           (fun _ => 1500)
           (Challenge.make (js "c0ffee") (js "chained_operations") medium payload 5000 [])
           Hgen); [discriminate | reflexivity | simpl; lia].
Defined.

(** *** Encoded instructions *)

Lemma numberToString_ascii (n : Z) : isAscii (numberToString n).
Proof.
  unfold numberToString, isAscii.
  destruct (Z.to_int n) as [d|d]; [|constructor; [lia|]];
    (eapply Forall_impl; [apply digitsOf_digits|]); intros c Hc; cbv beta in Hc; lia.
Qed.

Lemma isAscii_app (a b : jsstring) : isAscii a -> isAscii b -> isAscii (a ++ b).
Proof. unfold isAscii. intros Ha Hb. by apply Forall_app. Qed.

Lemma isAscii_check (s : jsstring) :
  forallb (fun c => (0 <=? c) && (c <? 128)) s = true -> isAscii s.
Proof.
  unfold isAscii. rewrite forallb_forall, Forall_forall. intros H c Hc.
  apply list_elem_of_In, H in Hc. bool_to_prop Hc. lia.
Qed.

Lemma stripPrefix_app (prefix rest : jsstring) :
  Executor.stripPrefix prefix (prefix ++ rest) = Some rest.
Proof.
  induction prefix as [|p prefix IH]; [by destruct rest|].
  cbn [app Executor.stripPrefix]. by rewrite Z.eqb_refl.
Qed.

Lemma digit_not_space (c : Z) : Executor.isDigit c = true -> Executor.isSpace c = false.
Proof.
  unfold Executor.isDigit, Executor.isSpace, Buffer.inRange. intros Hc. bool_to_prop Hc.
  repeat (apply orb_false_iff; split);
    first [apply andb_false_iff; lia | apply Z.eqb_neq; lia].
Qed.

(** One space before a run of digits is all that [\s*] takes. *)
Lemma skip_space_before_digits (digits rest : jsstring) :
  digits <> [] -> Forall (fun c => Executor.isDigit c = true) digits ->
  (Executor.span Executor.isSpace (32 :: digits ++ rest)).2 = digits ++ rest.
Proof.
  intros Hne Hd. destruct digits as [|c digits]; [done|].
  apply Forall_cons in Hd as [Hc _]. apply digit_not_space in Hc.
  change (32 :: (c :: digits) ++ rest) with ([32] ++ (c :: digits) ++ rest).
  rewrite span_run; [done | by repeat constructor | exact Hc].
Qed.

Lemma matchInstruction_here (s : jsstring) (groups : jsstring * Z * jsstring) :
  Executor.matchInstructionHere s = Some groups -> Executor.matchInstruction s = Some groups.
Proof. intros H. destruct s; cbn [Executor.matchInstruction]; by rewrite H. Qed.

(** The instruction that the generator writes is read back as written. *)
Lemma instruction_matches (a b op : Z) :
  0 <= a -> 0 <= b -> op ∈ [43; 45; 42] ->
  Executor.matchInstruction
    (js "Calculate: " ++ numberToString a ++ js " " ++ [op] ++ js " " ++ numberToString b)
  = Some (numberToString a, op, numberToString b).
Proof.
  intros Ha Hb Hop. apply matchInstruction_here.
  destruct (numberToString_digits a Ha) as (Hane & Had & _).
  destruct (numberToString_digits b Hb) as (Hbne & Hbd & _).
  set (A := numberToString a) in *. set (B := numberToString b) in *.
  change (js "Calculate: " ++ A ++ js " " ++ [op] ++ js " " ++ B)
    with (js "Calculate:" ++ 32 :: A ++ 32 :: op :: 32 :: B).
  unfold Executor.matchInstructionHere. rewrite stripPrefix_app.
  rewrite skip_space_before_digits by done.
  rewrite span_run; [| done | reflexivity].
  assert (Hopspace : Executor.isSpace op = false).
  { rewrite !elem_of_cons, elem_of_nil in Hop. by destruct Hop as [-> | [-> | [-> | []]]]. }
  assert (Hopchar : (op =? 43) || (op =? 45) || (op =? 42) || (op =? 47) = true).
  { rewrite !elem_of_cons, elem_of_nil in Hop. by destruct Hop as [-> | [-> | [-> | []]]]. }
  change (32 :: op :: 32 :: B) with ([32] ++ op :: 32 :: B).
  rewrite (span_run Executor.isSpace [32] (op :: 32 :: B));
    [| by repeat constructor | exact Hopspace].
  cbn [snd]. rewrite Hopchar.
  replace (32 :: B) with (32 :: B ++ []) by (by rewrite app_nil_r).
  rewrite skip_space_before_digits by done.
  rewrite span_run; [| done | done]. cbn [fst].
  destruct A; [done|]. by destruct B.
Qed.

Lemma getInstructionEncoding_known (difficulty : ChallengeDifficulty) (w w' : World)
    (encoding : jsstring) :
  Generator.getInstructionEncoding difficulty w = Return encoding w' -> encoding ∈ kinds.
Proof.
  unfold kinds. destruct difficulty; cbn [Generator.getInstructionEncoding]; intros H.
  - apply ret_Return in H as [<- _]. rewrite !elem_of_cons. auto.
  - apply randomElement_elem_of in H. rewrite !elem_of_cons, elem_of_nil in H.
    destruct H as [-> | [-> | []]]; rewrite !elem_of_cons; auto.
  - apply randomElement_elem_of in H. rewrite !elem_of_cons, elem_of_nil in H.
    destruct H as [-> | [-> | []]]; rewrite !elem_of_cons; auto.
Qed.

Lemma encoded_instruction_runs (difficulty : ChallengeDifficulty) (w w' : World)
    (payload : json) (expectedAnswer : jsstring) :
  Generator.generateEncodedInstruction difficulty w = Return (payload, expectedAnswer) w' ->
  exists result encoding,
    Executor.executePayload payload = Executor.Done result
    /\ Solver.responseEncodingOf payload = Some encoding
    /\ Encoding.encode (numberToString result) encoding = Ok expectedAnswer.
Proof.
  intros Hgen. unfold Generator.generateEncodedInstruction in Hgen.
  apply bind_Return in Hgen as (a & w0 & Ha & Hgen).
  apply bind_Return in Hgen as (b & w1 & Hb & Hgen).
  apply bind_Return in Hgen as (op & w2 & Hop & Hgen).
  apply bind_Return in Hgen as (instructionEncoding & w3 & Hienc & Hgen).
  apply bind_Return in Hgen as (responseEncoding & w4 & Hrenc & Hgen).
  apply bind_Return in Hgen as (encodedInstruction & w5 & Hencoded & Hgen).
  apply bind_Return in Hgen as (answer & w6 & Hanswer & Hgen).
  apply ret_Return in Hgen as [Heq _]. injection Heq as Hp He. subst answer.
  apply lift_Return in Hencoded as [Hencoded _].
  apply lift_Return in Hanswer as [Hanswer _].
  apply randomInt_bounds in Ha; [|lia]. apply randomInt_bounds in Hb; [|lia].
  apply randomElement_elem_of in Hop.
  apply getInstructionEncoding_known in Hienc.
  destruct (getResponseEncoding_known _ _ _ _ Hrenc) as [_ Hne].
  set (result := if named "+" op then a + b
                 else if named "-" op then a - b
                 else if named "*" op then a * b
                 else a + b) in *.
  set (instruction := js "Calculate: " ++ numberToString a ++ js " " ++ op ++ js " "
                        ++ numberToString b) in *.
  assert (Hchar : exists c, op = [c] /\ c ∈ [43; 45; 42]
            /\ result = (if c =? 43 then a + b else if c =? 45 then a - b else a * b)).
  { rewrite !elem_of_cons, elem_of_nil in Hop.
    destruct Hop as [-> | [-> | [-> | []]]]; eexists; (split; [reflexivity|]);
      (split; [rewrite !elem_of_cons; auto | reflexivity]). }
  destruct Hchar as (c & -> & Hc & Hresult).
  assert (Hwf : wellFormed instruction = true).
  { apply isAscii_wellFormed. unfold instruction.
    repeat apply isAscii_app; try apply numberToString_ascii;
      try (by apply isAscii_check).
    rewrite !elem_of_cons, elem_of_nil in Hc.
    destruct Hc as [-> | [-> | [-> | []]]]; by apply isAscii_check. }
  destruct (encode_known instruction instructionEncoding Hienc Hwf)
    as (encoded & Henc & Hdec & _).
  rewrite Hencoded in Henc. injection Henc as <-.
  assert (Hexec : Executor.executePayload payload = Executor.Done result).
  { rewrite <- Hp.
    change (Executor.executeEncodedInstruction encodedInstruction instructionEncoding
            = Executor.Done result).
    unfold Executor.executeEncodedInstruction. rewrite Hdec.
    unfold instruction. rewrite instruction_matches by (done || lia).
    unfold Executor.parseDigits.
    rewrite (proj2 (proj2 (numberToString_digits a ltac:(lia)))).
    rewrite (proj2 (proj2 (numberToString_digits b ltac:(lia)))).
    rewrite !number_safe by lia. cbn [Executor.andThen].
    rewrite Hresult. rewrite !elem_of_cons, elem_of_nil in Hc.
    destruct Hc as [-> | [-> | [-> | []]]]; cbn [Z.eqb Pos.eqb]; apply number_safe; nia. }
  exists result, responseEncoding. split_and!; try done.
  rewrite <- Hp.
  apply (responseEncodingOf_last
             [(js "type", JStr (js "encoded_instruction"));
              (js "instruction", JStr encodedInstruction);
              (js "instructionEncoding", JStr instructionEncoding)]). exact Hne.
Qed.

(** X22.  The client computes the generator's answer for encoded
    instructions, at every difficulty: [executePayload] decodes the
    instruction, reads the two numbers and the operator back and returns
    the generator's result, and [solve], before expiry, succeeds with the
    expected answer. *)
Theorem solve_encoded_instruction (difficulty : ChallengeDifficulty) (w w' : World)
    (payload : json) (expectedAnswer : jsstring) (now : nat -> Z) (challenge : Challenge.t) :
  Generator.generateEncodedInstruction difficulty w = Return (payload, expectedAnswer) w' ->
  Challenge.payload challenge = payload ->
  now 1%nat <= Challenge.expiresAt challenge ->
  (exists result encoding,
     Executor.executePayload payload = Executor.Done result
     /\ Encoding.encode (numberToString result) encoding = Ok expectedAnswer)
  /\ Solver.solve now challenge = Some (solved now expectedAnswer).
Proof.
  intros Hgen Hpayload Hnow.
  destruct (encoded_instruction_runs _ _ _ _ _ Hgen)
    as (result & encoding & Hrun & Henc & Hanswer).
  split; [exists result, encoding; by split_and!|].
  apply (solve_done now challenge result encoding); by rewrite ?Hpayload.
Qed.

Lemma solve_encoded_instruction_witness :
  exists payload expectedAnswer w',
    Generator.generateEncodedInstruction hard sampleWorld
      = Return (payload, expectedAnswer) w'
    /\ Solver.solve (fun _ => 1500)
         (Challenge.make (js "c0ffee") (js "encoded_instruction") hard payload 5000 [])
       = Some (solved (fun _ => 1500) expectedAnswer).
Proof.
  destruct (Generator.generateEncodedInstruction hard sampleWorld)
    as [[payload expectedAnswer] w'| |] eqn:Hgen;
    [| vm_compute in Hgen; discriminate Hgen ..].
  exists payload, expectedAnswer, w'. split; [reflexivity|].
  apply (solve_encoded_instruction hard sampleWorld w' payload expectedAnswer
           (fun _ => 1500)
           (Challenge.make (js "c0ffee") (js "encoded_instruction") hard payload 5000 [])
           Hgen); [reflexivity | simpl; lia].
Defined.

(** *** Pattern extraction *)

Lemma drawItems_values (count : nat) : forall (i : Z) (w w' : World) (items : list (Z * Z)),
  Generator.drawItems count i w = Return items w' ->
  Forall (fun item => 10 <= item.2 <= 100) items /\ length items = count.
Proof.
  induction count as [|count IH]; intros i w w' items H.
  - apply ret_Return in H as [<- _]. by split.
  - cbn [Generator.drawItems] in H.
    apply bind_Return in H as (value & w0 & Hvalue & H).
    apply bind_Return in H as (rest & w1 & Hrest & H).
    apply ret_Return in H as [<- _].
    apply randomInt_bounds in Hvalue; [|lia].
    destruct (IH _ _ _ _ Hrest) as [Hall Hlen].
    split; [by constructor | simpl; by rewrite Hlen].
Qed.

Lemma pluck_items (items : list (Z * Z)) :
  Executor.pluck (js "value") (map Generator.itemJson items)
  = Executor.Done (map (fun item : Z * Z => Some (JNum item.2)) items).
Proof.
  induction items as [|item items IH]; [done|].
  cbn [map]. unfold Generator.itemJson at 1. cbn [Executor.pluck].
  change (Executor.member (js "value")
            [(js "id", JNum item.1); (js "value", JNum item.2)])
    with (Some (JNum item.2)).
  by rewrite IH.
Qed.

Lemma asNumbers_items (items : list (Z * Z)) :
  Forall (fun item => 10 <= item.2 <= 100) items ->
  Executor.asNumbers (map (fun item : Z * Z => Some (JNum item.2)) items)
  = Executor.Done (map snd items).
Proof.
  induction 1 as [|item items Hitem _ IH]; [done|].
  cbn [map Executor.asNumbers]. rewrite number_safe by lia. cbn [Executor.andThen].
  by rewrite IH.
Qed.

Lemma sumFrom_small (nums : list Z) : forall acc,
  Forall (fun n => 0 <= n <= 100) nums ->
  0 <= acc -> acc + 100 * Z.of_nat (length nums) <= 2 ^ 53 ->
  Executor.sumFrom acc nums = Executor.Done (fold_left Z.add nums acc).
Proof.
  induction nums as [|n nums IH]; intros acc Hall Hacc Hroom; [done|].
  apply Forall_cons in Hall as [Hn Hall]. cbn [Executor.sumFrom fold_left length] in *.
  rewrite number_safe by lia. cbn [Executor.andThen]. apply IH; [done | lia | lia].
Qed.

Lemma sum_of_values (items : list (Z * Z)) : forall acc,
  fold_left (fun s (i : Z * Z) => s + i.2) items acc = fold_left Z.add (map snd items) acc.
Proof. induction items as [|item items IH]; intros acc; [done|]. apply IH. Qed.

(** The executor's answer to each of the generator's four queries. *)
Lemma pattern_executes (q : Generator.Query) (items : list (Z * Z)) :
  Forall (fun item => 10 <= item.2 <= 100) items ->
  items <> [] -> (length items <= 7)%nat ->
  Executor.executePatternExtraction
    [(js "items", JArr (map Generator.itemJson items))] (Generator.queryText q)
  = Executor.Done (Generator.queryFn q items).
Proof.
  intros Hall Hne Hlen.
  assert (Hwild :
    Executor.extractPathValues [(js "items", JArr (map Generator.itemJson items))]
      (js "items[*].value")
    = Executor.Done (map (fun item : Z * Z => Some (JNum item.2)) items)).
  { change (Executor.pluck (js "value") (map Generator.itemJson items)
            = Executor.Done (map (fun item : Z * Z => Some (JNum item.2)) items)).
    apply pluck_items. }
  assert (Hnums : Forall (fun n => 0 <= n <= 100) (map snd items)).
  { apply Forall_map. eapply Forall_impl; [exact Hall|]. simpl. lia. }
  destruct q; unfold Executor.executePatternExtraction; cbn [Generator.queryText].
  - change (Executor.matchQuery (js "sum(items[*].value)"))
      with (Some (js "sum", js "items[*].value")).
    cbv beta iota. rewrite Hwild. cbn [Executor.andThen].
    change (Executor.toLowerCase (js "sum")) with (js "sum"). pick_case.
    rewrite asNumbers_items by done. cbn [Executor.andThen Generator.queryFn].
    rewrite sumFrom_small; [by rewrite sum_of_values | done | lia |].
    rewrite length_map. assert (100 * 7 <= 2 ^ 53) by by vm_compute. lia.
  - change (Executor.matchQuery (js "max(items[*].value)"))
      with (Some (js "max", js "items[*].value")).
    cbv beta iota. rewrite Hwild. cbn [Executor.andThen].
    change (Executor.toLowerCase (js "max")) with (js "max"). pick_case.
    rewrite asNumbers_items by done. cbn [Executor.andThen Generator.queryFn].
    by destruct items.
  - change (Executor.matchQuery (js "min(items[*].value)"))
      with (Some (js "min", js "items[*].value")).
    cbv beta iota. rewrite Hwild. cbn [Executor.andThen].
    change (Executor.toLowerCase (js "min")) with (js "min"). pick_case.
    rewrite asNumbers_items by done. cbn [Executor.andThen Generator.queryFn].
    by destruct items.
  - change (Executor.matchQuery (js "count(items)")) with (Some (js "count", js "items")).
    cbv beta iota.
    change (Executor.extractPathValues [(js "items", JArr (map Generator.itemJson items))]
              (js "items"))
      with (Executor.Done (map Some (map Generator.itemJson items))).
    cbn [Executor.andThen].
    change (Executor.toLowerCase (js "count")) with (js "count"). pick_case.
    cbn [Generator.queryFn]. by rewrite !length_map.
Qed.

Lemma pattern_extraction_runs (difficulty : ChallengeDifficulty) (w w' : World)
    (payload : json) (expectedAnswer : jsstring) :
  Generator.generatePatternExtraction difficulty w = Return (payload, expectedAnswer) w' ->
  exists result encoding,
    Executor.executePayload payload = Executor.Done result
    /\ Solver.responseEncodingOf payload = Some encoding
    /\ Encoding.encode (numberToString result) encoding = Ok expectedAnswer.
Proof.
  intros Hgen. unfold Generator.generatePatternExtraction in Hgen.
  apply bind_Return in Hgen as (items & w0 & Hitems & Hgen).
  apply bind_Return in Hgen as (selected & w1 & Hsel & Hgen).
  apply bind_Return in Hgen as (responseEncoding & w2 & Hrenc & Hgen).
  apply bind_Return in Hgen as (answer & w3 & Hanswer & Hgen).
  apply ret_Return in Hgen as [Heq _]. injection Heq as Hp He. subst answer.
  apply lift_Return in Hanswer as [Hanswer _].
  destruct (drawItems_values _ _ _ _ _ Hitems) as [Hall Hlen].
  destruct (getResponseEncoding_known _ _ _ _ Hrenc) as [_ Hne].
  assert (Hcount : (3 <= Generator.byDifficulty difficulty 3 5 7 <= 7)%nat)
    by (destruct difficulty; simpl; lia).
  assert (Hexec : Executor.executePayload payload
                  = Executor.Done (Generator.queryFn selected items)).
  { rewrite <- Hp.
    change (Executor.executePatternExtraction
              [(js "items", JArr (map Generator.itemJson items))]
              (Generator.queryText selected)
            = Executor.Done (Generator.queryFn selected items)).
    apply pattern_executes; [done | | lia].
    intros ->. simpl in Hlen. lia. }
  exists (Generator.queryFn selected items), responseEncoding. split_and!; try done.
  rewrite <- Hp.
  apply (responseEncodingOf_last
             [(js "type", JStr (js "pattern_extraction"));
              (js "data", JObj [(js "items", JArr (map Generator.itemJson items))]);
              (js "query", JStr (Generator.queryText selected))]). exact Hne.
Qed.

(** X23.  The client computes the generator's answer for pattern
    extraction, at every difficulty: [executePayload] parses the query,
    collects [items[*].value] (or the items, for a count) and returns the
    aggregate that the generator computed, and [solve], before expiry,
    succeeds with the expected answer. *)
Theorem solve_pattern_extraction (difficulty : ChallengeDifficulty) (w w' : World)
    (payload : json) (expectedAnswer : jsstring) (now : nat -> Z) (challenge : Challenge.t) :
  Generator.generatePatternExtraction difficulty w = Return (payload, expectedAnswer) w' ->
  Challenge.payload challenge = payload ->
  now 1%nat <= Challenge.expiresAt challenge ->
  (exists result encoding,
     Executor.executePayload payload = Executor.Done result
     /\ Encoding.encode (numberToString result) encoding = Ok expectedAnswer)
  /\ Solver.solve now challenge = Some (solved now expectedAnswer).
Proof.
  intros Hgen Hpayload Hnow.
  destruct (pattern_extraction_runs _ _ _ _ _ Hgen)
    as (result & encoding & Hrun & Henc & Hanswer).
  split; [exists result, encoding; by split_and!|].
  apply (solve_done now challenge result encoding); by rewrite ?Hpayload.
Qed.

Lemma solve_pattern_extraction_witness :
  exists payload expectedAnswer w',
    Generator.generatePatternExtraction medium sampleWorld
      = Return (payload, expectedAnswer) w'
    /\ Solver.solve (fun _ => 1500)
         (Challenge.make (js "c0ffee") (js "pattern_extraction") medium payload 5000 [])
       = Some (solved (fun _ => 1500) expectedAnswer).
Proof.
  destruct (Generator.generatePatternExtraction medium sampleWorld)
    as [[payload expectedAnswer] w'| |] eqn:Hgen;
    [| vm_compute in Hgen; discriminate Hgen ..].
  exists payload, expectedAnswer, w'. split; [reflexivity|].
  apply (solve_pattern_extraction medium sampleWorld w' payload expectedAnswer
           (fun _ => 1500)
           (Challenge.make (js "c0ffee") (js "pattern_extraction") medium payload 5000 [])
           Hgen); [reflexivity | simpl; lia].
Defined.

(** ** Generation, solving and verification together *)

Section Together.
Variable hmacSha256 : list Z -> list Z -> list Byte.byte.
Variable allFunctions : list RegisteredFunction.
Variable config : UnCaptchaConfig.

(** The payload of a generated challenge comes from [generatePayload] at
    the challenge's type and difficulty. *)
Lemma generate_payload now overrides w challenge expectedAnswer w' :
  Generator.generate hmacSha256 allFunctions config now overrides w
    = Return (challenge, expectedAnswer) w' ->
  exists w0 w1,
    Generator.generatePayload allFunctions (Challenge.type challenge)
      (Challenge.difficulty challenge) w0
    = Return (Challenge.payload challenge, expectedAnswer) w1.
Proof.
  unfold Generator.generate. intros H.
  apply bind_Return in H as (type & w0 & _ & H).
  apply bind_Return in H as ([payload answer] & w1 & Hpayload & H).
  apply bind_Return in H as (id & w2 & _ & H).
  apply ret_Return in H as [[= <- <-] _]. simpl. eauto.
Qed.

(** An honest client solves what the generator made. *)
Lemma generate_solve now overrides w challenge expectedAnswer w' solveNow :
  Generator.generate hmacSha256 allFunctions config now overrides w
    = Return (challenge, expectedAnswer) w' ->
  (Challenge.type challenge = js "chained_operations"
   /\ Challenge.difficulty challenge <> hard)
  \/ Challenge.type challenge = js "encoded_instruction"
  \/ Challenge.type challenge = js "pattern_extraction" ->
  solveNow 1%nat <= Challenge.expiresAt challenge ->
  Solver.solve solveNow challenge = Some (solved solveNow expectedAnswer).
Proof.
  intros Hgen Htype Hnow.
  destruct (generate_payload _ _ _ _ _ _ Hgen) as (w0 & w1 & Hpayload).
  unfold Generator.generatePayload in Hpayload.
  assert (exists result encoding,
            Executor.executePayload (Challenge.payload challenge) = Executor.Done result
            /\ Solver.responseEncodingOf (Challenge.payload challenge) = Some encoding
            /\ Encoding.encode (numberToString result) encoding = Ok expectedAnswer)
    as (result & encoding & Hrun & Henc & Hanswer).
  { destruct Htype as [[Htype Hd] | [Htype | Htype]]; rewrite Htype in Hpayload;
      revert Hpayload; pick_case; intros Hpayload.
    - destruct (chained_operations_runs _ _ _ _ _ Hpayload Hd)
        as (result & encoding & ? & _ & ? & ?). eauto.
    - apply (encoded_instruction_runs _ _ _ _ _ Hpayload).
    - apply (pattern_extraction_runs _ _ _ _ _ Hpayload). }
  by apply (solve_done solveNow challenge result encoding).
Qed.
End Together.

(** X24.  An honest client passes.  For a challenge that [generate]
    returns with type chained_operations (easy or medium),
    encoded_instruction or pattern_extraction, [solve], run before expiry,
    succeeds, and [verify] of its solution against the stored expected
    answer (before expiry, client admitted) returns valid = true. *)
Theorem honest_solver_is_verified
    (hmacSha256 : list Z -> list Z -> list Byte.byte)
    (allFunctions : list RegisteredFunction) (config : UnCaptchaConfig)
    (generatedAt : Z) (overrides : option (option jsstring * option ChallengeDifficulty))
    (w w' : World) (challenge : Challenge.t) (expectedAnswer : jsstring)
    (solveNow now : nat -> Z) (clientIdentifier : option jsstring) (st : Verifier.state) :
  Generator.generate hmacSha256 allFunctions config generatedAt overrides w
    = Return (challenge, expectedAnswer) w' ->
  (Challenge.type challenge = js "chained_operations"
   /\ Challenge.difficulty challenge <> hard)
  \/ Challenge.type challenge = js "encoded_instruction"
  \/ Challenge.type challenge = js "pattern_extraction" ->
  let stored :=
    Verifier.storeChallenge (Challenge.id challenge) expectedAnswer
      (Challenge.expiresAt challenge) st in
  solveNow 1%nat <= Challenge.expiresAt challenge ->
  admitted config (now 0%nat) clientIdentifier stored ->
  now 1%nat <= Challenge.expiresAt challenge ->
  now 2%nat <= Challenge.expiresAt challenge ->
  exists r,
    Solver.solve solveNow challenge = Some r
    /\ Solver.success r = true
    /\ (Verifier.verify hmacSha256 config now challenge
          (ChallengeSolution.make (Challenge.id challenge) (Solver.solution r))
          clientIdentifier stored).1 = mkResult true None None.
Proof.
  intros Hgen Htype stored Hsolve Hadm H1 H2.
  exists (solved solveNow expectedAnswer). split_and!.
  - by apply (generate_solve hmacSha256 allFunctions config generatedAt overrides w
                challenge expectedAnswer w').
  - reflexivity.
  - destruct (generate_signed _ _ _ _ _ _ _ _ _ Hgen) as [Hsig _].
    rewrite (verify_checked hmacSha256 config now challenge _ clientIdentifier stored
               (ChallengeStore.make expectedAnswer (Challenge.expiresAt challenge)));
      try done.
    + cbv zeta. unfold genuineSignature. simpl. by rewrite <- Hsig, !safeCompare_same.
    + subst stored. simpl. apply lookup_insert_eq.
Qed.

Lemma honest_solver_is_verified_witness :
  let config := withDefaults (mkUserConfig (js "secret") None None None None) in
  exists challenge expectedAnswer w' r,
    Generator.generate toyMac sampleCatalog config 1000
      (Some (Some (js "encoded_instruction"), Some hard)) sampleWorld
      = Return (challenge, expectedAnswer) w'
    /\ Solver.solve (fun _ => 1200) challenge = Some r
    /\ (Verifier.verify toyMac config (fun _ => 1500) challenge
          (ChallengeSolution.make (Challenge.id challenge) (Solver.solution r))
          (Some (js "agent"))
          (Verifier.storeChallenge (Challenge.id challenge) expectedAnswer
             (Challenge.expiresAt challenge) Verifier.create)).1
       = mkResult true None None.
Proof.
  intros config.
  destruct (Generator.generate toyMac sampleCatalog config 1000
              (Some (Some (js "encoded_instruction"), Some hard)) sampleWorld)
    as [[challenge expectedAnswer] w'| |] eqn:Hgen;
    [| vm_compute in Hgen; discriminate Hgen ..].
  destruct (generate_signed _ _ _ _ _ _ _ _ _ Hgen) as [_ Hexp].
  destruct (honest_solver_is_verified toyMac sampleCatalog config 1000 _ sampleWorld w'
              challenge expectedAnswer (fun _ => 1200) (fun _ => 1500) (Some (js "agent"))
              Verifier.create Hgen) as (r & Hsolve & _ & Hverify).
  - right. left. vm_compute in Hgen. by injection Hgen as <- _ _.
  - rewrite Hexp. simpl. lia.
  - vm_compute. reflexivity.
  - rewrite Hexp. simpl. lia.
  - rewrite Hexp. simpl. lia.
  - by exists challenge, expectedAnswer, w', r.
Defined.

(** ** The client: failures *)

(** X25.  [solve] does not throw and does not solve what has expired.
    Past the expiry it reports failure with "Challenge has expired" without
    looking at the payload; before it, a payload of a type that is none of
    the five is reported as "Unknown challenge type: ..."; and every result
    either has success with no error, or failure with an error and the
    empty solution. *)
Theorem solve_failures (now : nat -> Z) (challenge : Challenge.t) :
  (now 1%nat > Challenge.expiresAt challenge ->
   Solver.solve now challenge
   = Some (Solver.mkSolution [] (now 2%nat - now 0%nat) false
             (Some (js "Challenge has expired"))))
  /\ (forall type fields,
        now 1%nat <= Challenge.expiresAt challenge ->
        Challenge.payload challenge = JObj fields ->
        Executor.member (js "type") fields = Some (JStr type) ->
        type ∉ [js "function_execution"; js "chained_operations"; js "encoded_instruction";
                js "pattern_extraction"; js "code_transform"] ->
        Solver.solve now challenge
        = Some (Solver.mkSolution [] (now 2%nat - now 0%nat) false
                  (Some (js "Unknown challenge type: " ++ type))))
  /\ (forall r, Solver.solve now challenge = Some r ->
        (Solver.success r = true /\ Solver.error r = None)
        \/ (Solver.success r = false /\ Solver.solution r = []
            /\ is_Some (Solver.error r))).
Proof.
  unfold Solver.solve. split_and!.
  - intros Hexp. by destruct (Z.gtb_spec (now 1%nat) (Challenge.expiresAt challenge)); [|lia].
  - intros type fields Hnow Hpayload Htype Hnone.
    destruct (Z.gtb_spec (now 1%nat) (Challenge.expiresAt challenge)); [lia|].
    rewrite Hpayload. unfold Executor.executePayload. rewrite Htype.
    rewrite !not_elem_of_cons in Hnone. destruct Hnone as (? & ? & ? & ? & ? & _).
    unfold named. by rewrite !bool_decide_eq_false_2 by done.
  - intros r.
    destruct (now 1%nat >? Challenge.expiresAt challenge); [intros [= <-]; right; eauto|].
    destruct (Executor.executePayload _); [| intros [= <-]; right; eauto | done].
    destruct (Solver.responseEncodingOf _); [|done].
    destruct (Encoding.encode _ _); intros [= <-]; [left | right]; eauto.
Qed.

Lemma solve_failures_witness :
  Solver.solve (fun k => 6000 + Z.of_nat k)
    (Challenge.make (js "c0ffee") (js "code_transform") easy JNull 5000 [])
  = Some (Solver.mkSolution [] 2 false (Some (js "Challenge has expired"))).
Proof.
  apply (solve_failures (fun k => 6000 + Z.of_nat k)
           (Challenge.make (js "c0ffee") (js "code_transform") easy JNull 5000 [])).
  simpl. lia.
Defined.

(** ** The generator: what a challenge looks like, and when there is none *)


Section PayloadShape.
Variable allFunctions : list RegisteredFunction.

End PayloadShape.



(** X27.  When [generate] has nothing to make it throws, before any
    randomness is drawn for the identifier: for an override type that is
    none of the five, "Unknown challenge type: ..."; with no override type
    and an empty list of configured types, "Cannot select from empty
    array"; and for function_execution with no catalog function of the
    difficulty, "No functions available for difficulty: ...". *)
Theorem generate_throws
    (hmacSha256 : list Z -> list Z -> list Byte.byte)
    (allFunctions : list RegisteredFunction) (config : UnCaptchaConfig)
    (now : Z) (overrides : option (option jsstring * option ChallengeDifficulty))
    (w : World) :
  let difficulty := default (defaultDifficulty config) (overriddenDifficulty overrides) in
  (forall type,
     overriddenType overrides = Some type -> type ∉ challengeTypeNames ->
     Generator.generate hmacSha256 allFunctions config now overrides w
     = Throw (js "Unknown challenge type: " ++ type))
  /\ (overriddenType overrides = None -> challengeTypes config = [] ->
      Generator.generate hmacSha256 allFunctions config now overrides w
      = Throw (js "Cannot select from empty array"))
  /\ (overriddenType overrides = Some (js "function_execution") ->
      Forall (fun f => fnDifficulty f <> difficulty) allFunctions ->
      Generator.generate hmacSha256 allFunctions config now overrides w
      = Throw (js "No functions available for difficulty: "
                 ++ Generator.difficultyName difficulty)).
Proof.
  intros difficulty. subst difficulty. unfold Generator.generate. split_and!.
  - intros type Htype Hnone.
    destruct overrides as [[[t|] d]|]; simpl in Htype; try discriminate.
    injection Htype as ->. unfold bind, ret. cbv beta iota.
    unfold Generator.generatePayload, challengeTypeNames in *.
    rewrite !not_elem_of_cons in Hnone. destruct Hnone as (? & ? & ? & ? & ? & _).
    unfold named. by rewrite !bool_decide_eq_false_2 by done.
  - intros Htype Hempty.
    destruct overrides as [[[t|] d]|]; simpl in Htype; try discriminate;
      unfold bind; by rewrite Hempty.
  - intros Htype Hnone.
    destruct overrides as [[[t|] d]|]; simpl in Htype; try discriminate.
    injection Htype as ->. unfold bind at 1, ret. cbv beta iota.
    unfold Generator.generatePayload. pick_case.
    unfold Generator.generateFunctionExecution, Generator.getRandomFunction,
      Generator.getFunctionsByDifficulty.
    assert (List.filter
              (fun f => bool_decide
                 (fnDifficulty f
                  = default (defaultDifficulty config)
                      (overriddenDifficulty (Some (Some (js "function_execution"), d)))))
              allFunctions = []) as Hpool.
    { induction Hnone as [|f fs Hf _ IH]; [done|].
      cbn [List.filter]. by rewrite bool_decide_eq_false_2. }
    destruct d as [d|]; simpl in Hpool |- *; unfold bind; by rewrite Hpool.
Qed.

Lemma generate_throws_witness :
  let config := withDefaults (mkUserConfig (js "secret") None None None None) in
  Generator.generate toyMac sampleCatalog config 1000
    (Some (Some (js "riddle"), None)) sampleWorld
  = Throw (js "Unknown challenge type: riddle").
Proof.
  intros config.
  apply (generate_throws toyMac sampleCatalog config 1000
           (Some (Some (js "riddle"), None)) sampleWorld); [reflexivity|].
  unfold challengeTypeNames. rewrite !not_elem_of_cons.
  split_and!; try discriminate. apply not_elem_of_nil.
Defined.

(** X28.  [getRandomFunction(difficulty)] throws exactly when the catalog
    has no function of that difficulty; otherwise, given a draw u / 2^53 of
    [Math.random], it returns the catalog function of that difficulty at
    the index floor(double(u * n) / 2^53), n being the size of the pool:
    the product is rounded to a double before it is cut, so that the index
    can be one above floor(u * n / 2^53), and yet it is always within the
    pool. *)
Theorem getRandomFunction_from_pool
    (allFunctions : list RegisteredFunction) (difficulty : ChallengeDifficulty)
    (w : World) :
  let pool := Generator.getFunctionsByDifficulty allFunctions difficulty in
  (pool = [] <->
   Generator.getRandomFunction allFunctions difficulty w
   = Throw (js "No functions available for difficulty: "
              ++ Generator.difficultyName difficulty))
  /\ (forall f w',
        Generator.getRandomFunction allFunctions difficulty w = Return f w' ->
        f ∈ allFunctions /\ fnDifficulty f = difficulty)
  /\ (forall u rest,
        pool <> [] -> uniform w = u :: rest ->
        let index := Double.round ((u mod 2 ^ 53) * Z.of_nat (length pool)) / 2 ^ 53 in
        0 <= index < Z.of_nat (length pool)
        /\ exists f,
             pool !! Z.to_nat index = Some f
             /\ Generator.getRandomFunction allFunctions difficulty w
                = Return f (mkWorld (entropy w) rest)).
Proof.
  intros pool. unfold Generator.getRandomFunction. fold pool.
  assert (Hpool : forall f, f ∈ pool -> f ∈ allFunctions /\ fnDifficulty f = difficulty).
  { intros f Hf. apply list_elem_of_In, filter_In in Hf as [Hin Hd].
    split; [by apply list_elem_of_In | by apply bool_decide_eq_true_1 in Hd]. }
  assert (Hindex : forall u, pool <> [] ->
            0 <= Double.round ((u mod 2 ^ 53) * Z.of_nat (length pool)) / 2 ^ 53
              < Z.of_nat (length pool)).
  { intros u Hne. apply round_index; [apply Z.mod_pos_bound; lia|].
    destruct pool; [done | simpl; lia]. }
  split_and!.
  - destruct pool as [|first pool']; [done|]. split; [done|].
    unfold bind, randomIndex. by destruct (uniform w).
  - intros f w'. destruct pool as [|first pool'] eqn:Hp; [done|]. rewrite <- Hp in *.
    unfold bind, randomIndex. destruct (uniform w) as [|u rest]; [done|].
    intros [<- _]%ret_Return. apply Hpool.
    destruct (nth_in_or_default
                (Z.to_nat (Double.round ((u mod 2 ^ 53) * Z.of_nat (length pool)) / 2 ^ 53))
                pool first)
      as [Hin | ->]; [by apply list_elem_of_In|].
    rewrite Hp. apply elem_of_cons. by left.
  - intros u rest Hne Hu. pose proof (Hindex u Hne) as Hlt.
    set (index := Double.round _ / 2 ^ 53) in *.
    split; [exact Hlt|].
    destruct (lookup_lt_is_Some_2 pool (Z.to_nat index)) as [f Hf]; [lia|].
    exists f. split; [exact Hf|]. subst index.
    destruct pool as [|first pool'] eqn:Hp; [done|]. rewrite <- Hp in *.
    unfold bind, randomIndex. rewrite Hu. unfold ret. f_equal.
    by apply nth_lookup_Some.
Qed.

Lemma getRandomFunction_from_pool_witness :
  let catalog :=
    map (fun i => mkFunction [97 + i] (fun _ => Ok (JNum i)) [] [] easy) (seqZ 0 13) in
  6928614811339224 * 13 / 2 ^ 53 = 9
  /\ exists f,
       Generator.getRandomFunction catalog easy (mkWorld [] [6928614811339224; 1])
         = Return f (mkWorld [] [1])
       /\ name f = js "k" /\ catalog !! 10%nat = Some f /\ fnDifficulty f = easy.
Proof.
  intros catalog. split; [reflexivity|].
  destruct (getRandomFunction_from_pool catalog easy (mkWorld [] [6928614811339224; 1]))
    as (_ & Hmember & Hdraw).
  destruct (Hdraw 6928614811339224 [1]) as (_ & f & Hat & Hf);
    [discriminate | reflexivity |].
  exists f. split; [exact Hf|]. split_and!.
  - vm_compute in Hat. by injection Hat as <-.
  - vm_compute in Hat. by injection Hat as <-.
  - by apply (Hmember f _ Hf).
Defined.

(** ** The client: operations that fail *)

Lemma executeChainedOperations_app (before after : list (jsstring * option Z)) :
  forall start,
  Executor.executeChainedOperations start (before ++ after)
  = Executor.andThen (Executor.executeChainedOperations start before)
      (fun r => Executor.executeChainedOperations r after).
Proof.
  induction before as [|[operation value] before IH]; intros start; [done|].
  cbn [app Executor.executeChainedOperations].
  destruct (Executor.applyStep start operation value); [apply IH | done | done].
Qed.

(** X29.  [executeChainedOperations] stops at the first operation that
    fails.  After operations that run to a value r, a divide by 0 throws
    "Division by zero", a modulo by 0 throws "Modulo by zero" and a name
    that is none of the ten throws "Unknown operation: ...", whatever
    comes after; an operation without a value adds or subtracts 0 and
    multiplies by 1. *)
Theorem executeChainedOperations_failures (start r : Z)
    (before after : list (jsstring * option Z)) (name : jsstring) (value : option Z) :
  Executor.executeChainedOperations start before = Executor.Done r ->
  Executor.executeChainedOperations start (before ++ (js "divide", Some 0) :: after)
    = Executor.Failed (js "Division by zero")
  /\ Executor.executeChainedOperations start (before ++ (js "modulo", Some 0) :: after)
     = Executor.Failed (js "Modulo by zero")
  /\ (name ∉ operationNames ->
      Executor.executeChainedOperations start (before ++ (name, value) :: after)
      = Executor.Failed (js "Unknown operation: " ++ name))
  /\ (Z.abs r <= 2 ^ 53 ->
      Forall (fun operation =>
                Executor.executeChainedOperations start (before ++ [(operation, None)])
                = Executor.Done r)
             [js "add"; js "subtract"; js "multiply"]).
Proof.
  intros Hrun. split_and!.
  - rewrite executeChainedOperations_app, Hrun. reflexivity.
  - rewrite executeChainedOperations_app, Hrun. reflexivity.
  - intros Hname. rewrite executeChainedOperations_app, Hrun.
    cbn [Executor.andThen Executor.executeChainedOperations].
    unfold operationNames in Hname. rewrite !not_elem_of_cons in Hname.
    destruct Hname as (? & ? & ? & ? & ? & ? & ? & ? & ? & ? & _).
    unfold Executor.applyStep, named. by rewrite !bool_decide_eq_false_2 by done.
  - intros Hr.
    repeat (apply Forall_cons; split);
      try (rewrite executeChainedOperations_app, Hrun;
           cbn [Executor.andThen Executor.executeChainedOperations];
           unfold Executor.applyStep; pick_case; cbn [default id];
           rewrite number_safe by (by vm_compute); cbn [Executor.andThen];
           rewrite ?Z.add_0_r, ?Z.sub_0_r, ?Z.mul_1_r; by rewrite number_safe).
    constructor.
Qed.

Lemma executeChainedOperations_failures_witness :
  Executor.executeChainedOperations 7
    ([(js "add", Some 5); (js "abs", None)] ++ (js "divide", Some 0) :: [(js "add", Some 1)])
  = Executor.Failed (js "Division by zero").
Proof.
  apply (executeChainedOperations_failures 7 12 [(js "add", Some 5); (js "abs", None)]
           [(js "add", Some 1)] (js "add") None).
  reflexivity.
Defined.

(** ** Catalog functions *)

Lemma gcdLoop_correct (fuel : nat) : forall a b,
  0 <= a -> 0 <= b -> b < Z.of_nat fuel \/ b = 0 ->
  MathFunctions.gcdLoop fuel a b = Some (Z.gcd a b).
Proof.
  induction fuel as [|fuel IH]; intros a b Ha Hb Hfuel; cbn [MathFunctions.gcdLoop];
    destruct (Z.eqb_spec b 0) as [->|Hne];
    try (rewrite Z.gcd_0_r, Z.abs_eq by done; done); [lia|].
  pose proof (Z.mod_pos_bound a b ltac:(lia)).
  rewrite Z.rem_mod_nonneg by lia.
  rewrite IH by lia. f_equal. by rewrite Z.gcd_mod_r, Z.gcd_comm.
Qed.

Lemma mul_pow_mod (x y q m : Z) :
  m <> 0 -> ((x mod m) * (y mod m) ^ q) mod m = (x * y ^ q) mod m.
Proof.
  intros Hm. rewrite (Z.mul_mod (x mod m) ((y mod m) ^ q) m) by done.
  rewrite Z.mod_mod, Z.mod_pow_l by done. by rewrite <- Z.mul_mod.
Qed.

Lemma modPowLoop_correct (modulus : Z) (fuel : nat) : forall result base exp,
  1 < modulus -> 0 <= result < modulus -> 0 <= base < modulus ->
  0 <= exp < 2 ^ Z.of_nat fuel ->
  MathFunctions.modPowLoop fuel result base exp modulus
  = Some ((result * base ^ exp) mod modulus).
Proof.
  induction fuel as [|fuel IH]; intros result base exp Hm Hr Hb He;
    cbn [MathFunctions.modPowLoop].
  - assert (exp = 0) as -> by (simpl in He; lia). simpl.
    rewrite Z.mul_1_r, Z.mod_small by lia. done.
  - destruct (Z.gtb_spec exp 0) as [Hpos|Hzero].
    + rewrite Nat2Z.inj_succ, Z.pow_succ_r in He by lia.
      assert (Hmm : 0 <= (base * base) mod modulus < modulus)
        by (apply Z.mod_pos_bound; lia).
      rewrite !Z.rem_mod_nonneg by (lia || nia).
      assert (Hsplit : exp = 2 * (exp / 2) + exp mod 2) by (apply Z.div_mod; lia).
      assert (Hbit : exp mod 2 = 0 \/ exp mod 2 = 1)
        by (pose proof (Z.mod_pos_bound exp 2); lia).
      assert (Hpow : base ^ exp = (base * base) ^ (exp / 2) * base ^ (exp mod 2)).
      { rewrite Hsplit at 1. rewrite Z.pow_add_r, Z.pow_mul_r by (arith || lia).
        by rewrite Z.pow_2_r. }
      destruct Hbit as [Hbit|Hbit]; rewrite Hbit in *; cbn [Z.eqb Pos.eqb].
      * rewrite IH by (done || arith).
        f_equal. rewrite Hpow, Z.pow_0_r, Z.mul_1_r.
        rewrite <- (Z.mod_small result modulus) at 1 by lia.
        apply mul_pow_mod. lia.
      * assert (0 <= (result * base) mod modulus < modulus)
          by (apply Z.mod_pos_bound; lia).
        rewrite IH by (done || arith).
        f_equal. rewrite Hpow, Z.pow_1_r, mul_pow_mod by lia.
        f_equal. ring.
    + assert (exp = 0) as -> by lia. simpl.
      rewrite Z.mul_1_r, Z.mod_small by lia. done.
Qed.

(** X30.  The arithmetic of the catalog is right on integers: [gcd]
    returns the greatest common divisor, [lcm] the least common multiple
    when the product is at most 2^53 and the arguments are not both 0, and
    [modPow], for a base and an exponent that are not negative and a
    modulus m >= 1 with m * m <= 2^53, returns base^exp mod m. *)
Theorem catalog_arithmetic (a b base exp modulus : Z) :
  MathFunctions.gcd a b = Some (Z.gcd a b)
  /\ (Z.abs (a * b) <= 2 ^ 53 -> a <> 0 \/ b <> 0 ->
      MathFunctions.lcm a b = Some (Z.lcm a b))
  /\ (0 <= base -> 0 <= exp -> 1 <= modulus -> modulus * modulus <= 2 ^ 53 ->
      MathFunctions.modPow base exp modulus = Some (base ^ exp mod modulus)).
Proof.
  assert (Hgcd : MathFunctions.gcd a b = Some (Z.gcd a b)).
  { unfold MathFunctions.gcd. rewrite gcdLoop_correct by lia.
    by rewrite Z.gcd_abs_l, Z.gcd_abs_r. }
  split_and!; [exact Hgcd | |].
  - intros Hsafe Hne. unfold MathFunctions.lcm. rewrite Hgcd.
    destruct (Z.leb_spec (Z.abs (a * b)) (2 ^ 53)); [|lia].
    pose proof (Z.gcd_nonneg a b) as Hg.
    destruct (Z.eqb_spec (Z.gcd a b) 0) as [H0|H0].
    { apply Z.gcd_eq_0 in H0. lia. }
    f_equal. unfold Z.lcm.
    destruct (Z.gcd_divide_r a b) as [k Hk].
    rewrite Hk at 1 3. rewrite Z.div_mul by done.
    rewrite Z.mul_assoc, Z.abs_mul, (Z.abs_eq (Z.gcd a b)) by done.
    by rewrite Z.div_mul.
  - intros Hbase Hexp Hm Hsq. unfold MathFunctions.modPow.
    destruct (Z.eqb_spec modulus 1) as [->|Hne1]; [by rewrite Z.mod_1_r|].
    destruct (Z.eqb_spec modulus 0); [lia|].
    destruct (Z.leb_spec (modulus * modulus) (2 ^ 53)); [|lia]. cbn [orb negb].
    pose proof (Z.mod_pos_bound base modulus ltac:(lia)).
    rewrite Z.rem_mod_nonneg by lia.
    rewrite modPowLoop_correct; try lia.
    + f_equal. rewrite Z.mul_1_l. apply Z.mod_pow_l.
    + split; [done|]. rewrite Nat2Z.inj_succ, Z2Nat.id by apply Z.log2_nonneg.
      destruct (Z.eq_dec exp 0) as [->|]; [done|]. apply Z.log2_spec. lia.
Qed.

Lemma catalog_arithmetic_witness :
  MathFunctions.lcm 12 18 = Some 36 /\ MathFunctions.modPow 7 5 13 = Some 11.
Proof.
  destruct (catalog_arithmetic 12 18 7 5 13) as (_ & Hlcm & Hpow).
  split; [apply Hlcm | apply Hpow]; (by vm_compute) || (left; discriminate) || lia.
Defined.
